(** * A fixed-size worker pool with an optional priority queue

    Shallow embedding of [include/thread_pool.h]: the work queue with its two
    ordering strategies, the closure built by [submit_task_helper] around a
    promise, and the worker loop as a transition system over the state that
    the single [queue_mutex] protects.

    The header builds on [std::queue] and [std::priority_queue]; the second
    is a vector kept as a binary heap by [std::push_heap] / [std::pop_heap].
    Those algorithms are embedded here as libstdc++ writes them
    ([bits/stl_heap.h], [bits/stl_queue.h]), since the order in which equal
    priorities leave the queue is decided there. *)

From Equations Require Import Equations.
From Equations.Prop Require Import Logic.
From stdpp Require Import base option list strings pretty gmap.
From Stdlib Require Import ZArith Lia ZifyNat.

Local Open Scope nat_scope.

(* ===================================================================== *)
(** ** Random-access ranges *)
(* ===================================================================== *)

(** A vector or deque is a list; [first !! i] is the read [*(first + i)].
    An access outside the container is undefined behaviour in C++ and is
    [None] here, so a result [Some _] says that no such access happened. *)

Definition vec_set {A : Type} (first : list A) (i : nat) (x : A) : option (list A) :=
  if decide (i < length first) then Some (<[i:=x]> first) else None.

Definition pop_back {A : Type} (c : list A) : option (list A) :=
  match c with
  | [] => None
  | _ :: _ => Some (take (length c - 1) c)
  end.

Definition pop_front {A : Type} (c : list A) : option (list A) :=
  match c with
  | [] => None
  | _ :: c' => Some c'
  end.

(* ===================================================================== *)
(** ** The heap algorithms of the standard library *)
(* ===================================================================== *)

(** Distances are [nat]: they are positions inside a range.  The C++ code
    computes them in a signed type; [(holeIndex - 1) / 2] at [holeIndex = 0]
    is [0] there as it is with truncated subtraction.  The one expression
    whose signed value matters, [(len - 2) / 2], is evaluated in [Z]. *)

Module StdHeap.
Section Algorithms.
Context {A : Type} (comp : A -> A -> bool).

(** [__push_heap]: move the hole up while its parent is less than [value],
    then store [value] in the hole. *)
Equations? __push_heap (first : list A) (holeIndex topIndex : nat) (value : A)
  : option (list A) by wf holeIndex lt :=
  __push_heap first holeIndex topIndex value with lt_dec topIndex holeIndex => {
    | right _ := vec_set first holeIndex value;
    | left Hgt with first !! ((holeIndex - 1) / 2) => {
        | None := None;
        | Some p with comp p value => {
            | true with vec_set first holeIndex p => {
                | None := None;
                | Some first' :=
                    __push_heap first' ((holeIndex - 1) / 2) topIndex value };
            | false := vec_set first holeIndex value } } }.
Proof.
  clear -Hgt. destruct holeIndex as [|h]; [lia|].
  replace (S h - 1) with h by lia.
  assert (h / 2 <= h) by (apply Nat.Div0.div_le_upper_bound; lia). lia.
Qed.

(** [push_heap(first, last)] with [first] the start of the vector and [last]
    a position in it. *)
Definition push_heap (first : list A) (last : nat) : option (list A) :=
  value ← first !! (last - 1);
  __push_heap first (last - 1) 0 value.

(** One turn of the [while] loop of [__adjust_heap]: pick the larger child
    (the right one on a tie) and move it into the hole. *)
Definition __adjust_heap_body (first : list A) (holeIndex secondChild : nat)
  : option (list A * nat * nat) :=
  let secondChild := 2 * (secondChild + 1) in
  r ← first !! secondChild;
  l ← first !! (secondChild - 1);
  let secondChild := if comp r l then secondChild - 1 else secondChild in
  x ← first !! secondChild;
  first' ← vec_set first holeIndex x;
  Some (first', secondChild, secondChild).

Equations? __adjust_heap_loop (first : list A) (holeIndex secondChild len : nat)
  : option (list A * nat * nat) by wf ((len - 1) / 2 - secondChild) lt :=
  __adjust_heap_loop first holeIndex secondChild len
    with lt_dec secondChild ((len - 1) / 2) => {
    | right _ := Some (first, holeIndex, secondChild);
    | left Hlt with inspect (__adjust_heap_body first holeIndex secondChild) => {
        | exist _ None _ := None;
        | exist _ (Some (first', h', s')) Hbody :=
            __adjust_heap_loop first' h' s' len } }.
Proof.
  unfold __adjust_heap_body in Hbody. simplify_option_eq.
  destruct (comp _ _); lia.
Qed.

Definition __adjust_heap (first : list A) (holeIndex len : nat) (value : A)
  : option (list A) :=
  let topIndex := holeIndex in
  '(first, holeIndex, secondChild) ← __adjust_heap_loop first holeIndex holeIndex len;
  '(first, holeIndex) ←
     (if Nat.even len
         && (Z.of_nat secondChild =? (Z.of_nat len - 2) ÷ 2)%Z
      then
        let secondChild := 2 * (secondChild + 1) in
        x ← first !! (secondChild - 1);
        first' ← vec_set first holeIndex x;
        Some (first', secondChild - 1)
      else Some (first, holeIndex));
  __push_heap first holeIndex topIndex value.

(** [__pop_heap(first, last, result)]: [first] is position [0]. *)
Definition __pop_heap (first : list A) (last result : nat) : option (list A) :=
  value ← first !! result;
  top ← first !! 0;
  first' ← vec_set first result top;
  __adjust_heap first' 0 last value.

Definition pop_heap (first : list A) (last : nat) : option (list A) :=
  if decide (1 < last) then __pop_heap first (last - 1) (last - 1)
  else Some first.

End Algorithms.
End StdHeap.

(** [std::priority_queue<T>] over a vector [c] with [std::less<T>]. *)
Module PriorityQueue.
Section Adaptor.
Context {A : Type} (comp : A -> A -> bool).

Definition push (c : list A) (x : A) : option (list A) :=
  let c := c ++ [x] in
  StdHeap.push_heap comp c (length c).

Definition top (c : list A) : option A := c !! 0.

Definition pop (c : list A) : option (list A) :=
  c' ← StdHeap.pop_heap comp c (length c);
  pop_back c'.

End Adaptor.
End PriorityQueue.

(** [std::queue<T>] over a deque [c]. *)
Module Queue.
Section Adaptor.
Context {A : Type}.

Definition push (c : list A) (x : A) : option (list A) := Some (c ++ [x]).

Definition front (c : list A) : option A := c !! 0.

Definition pop (c : list A) : option (list A) := pop_front c.

End Adaptor.
End Queue.

(* ===================================================================== *)
(** ** Work items and the work queue *)
(* ===================================================================== *)

(** [using Priority = std::int8_t]: a signed 8-bit integer, carried as a
    [Z] in its range; [to_Priority] is the conversion from a wider integer. *)
Definition Priority_min : Z := -128.
Definition Priority_max : Z := 127.

Definition is_Priority (p : Z) : Prop := (Priority_min <= p <= Priority_max)%Z.

Definition to_Priority (z : Z) : Z := ((z + 128) mod 256 - 128)%Z.

Record WorkItem (T : Type) : Type := mkWorkItem {
  task : T;
  priority : Z
}.
Arguments mkWorkItem {T} _ _.
Arguments task {T} _.
Arguments priority {T} _.

(** [WorkItem::operator<] *)
Definition WorkItem_lt {T : Type} (self other : WorkItem T) : bool :=
  (priority self <? priority other)%Z.

(** [class WorkQueue].  The member [work_queue] is a [std::priority_queue]
    or a [std::queue] by [EnablePriorityScheduling]; either way its state is
    the sequence held by the underlying container. *)
Module WorkQueue.
Section Strategy.
Context {T : Type} (EnablePriorityScheduling : bool).

Definition push (work_queue : list (WorkItem T)) (work_item : WorkItem T)
  : option (list (WorkItem T)) :=
  if EnablePriorityScheduling
  then PriorityQueue.push WorkItem_lt work_queue work_item
  else Queue.push work_queue work_item.

Definition pop (work_queue : list (WorkItem T))
  : option (WorkItem T * list (WorkItem T)) :=
  work_item ←
    (if EnablePriorityScheduling
     then PriorityQueue.top work_queue
     else Queue.front work_queue);
  work_queue ←
    (if EnablePriorityScheduling
     then PriorityQueue.pop WorkItem_lt work_queue
     else Queue.pop work_queue);
  Some (work_item, work_queue).

Definition empty (work_queue : list (WorkItem T)) : bool :=
  match work_queue with
  | [] => true
  | _ :: _ => false
  end.

(** Push a batch in order; pop [n] times, collecting what is returned. *)
Fixpoint push_all (work_queue : list (WorkItem T)) (items : list (WorkItem T))
  : option (list (WorkItem T)) :=
  match items with
  | [] => Some work_queue
  | work_item :: items =>
      work_queue ← push work_queue work_item;
      push_all work_queue items
  end.

Fixpoint pop_n (n : nat) (work_queue : list (WorkItem T))
  : option (list (WorkItem T) * list (WorkItem T)) :=
  match n with
  | O => Some ([], work_queue)
  | S n =>
      '(work_item, work_queue) ← pop work_queue;
      '(rest, work_queue) ← pop_n n work_queue;
      Some (work_item :: rest, work_queue)
  end.

(** The queue states a pool can be in: what pushes and pops make of the
    empty queue. *)
Inductive built : list (WorkItem T) -> Prop :=
| built_nil : built []
| built_push q x q' : built q -> push q x = Some q' -> built q'
| built_pop q x q' : built q -> pop q = Some (x, q') -> built q'.

End Strategy.
End WorkQueue.

(* ===================================================================== *)
(** ** The heap invariant *)
(* ===================================================================== *)

Section HeapPredicates.
Context {A : Type} (comp : A -> A -> bool).

(** [std::is_heap(first, first + len, comp)]: no element is greater than
    its parent. *)
Definition is_heap_until (first : list A) (len : nat) : Prop :=
  forall i x p, 0 < i < len ->
    first !! i = Some x -> first !! ((i - 1) / 2) = Some p -> comp p x = false.

(** The same with one position, the hole, left out of the comparison. *)
Definition heap_except (first : list A) (len hole : nat) : Prop :=
  forall i x p, 0 < i < len -> i <> hole -> (i - 1) / 2 <> hole ->
    first !! i = Some x -> first !! ((i - 1) / 2) = Some p -> comp p x = false.

(** Every child of the hole is at most [y]. *)
Definition children_le (first : list A) (len hole : nat) (y : A) : Prop :=
  forall i x, 0 < i < len -> (i - 1) / 2 = hole ->
    first !! i = Some x -> comp y x = false.

(** The children of the hole are at most the parent of the hole. *)
Definition hole_bridged (first : list A) (len hole : nat) : Prop :=
  0 < hole -> forall g, first !! ((hole - 1) / 2) = Some g ->
    children_le first len hole g.

End HeapPredicates.

(* ===================================================================== *)
(** ** Promises, futures and the submitted closure *)
(* ===================================================================== *)

Inductive future_errc : Type :=
| broken_promise
| future_already_retrieved
| promise_already_satisfied
| no_state.

(** What [std::current_exception()] can hold: an exception thrown by the
    submitted callable, or a [std::future_error] of the library. *)
Inductive exception_ptr (Exn : Type) : Type :=
| user_exception (e : Exn)
| future_error (code : future_errc).
Arguments user_exception {Exn} _.
Arguments future_error {Exn} _.

(** The shared state behind a [std::promise<R>] and its [std::future<R>].
    [R = void] is [V = unit]. *)
Inductive shared_state (V Exn : Type) : Type :=
| not_ready
| has_value (v : V)
| has_exception (e : exception_ptr Exn).
Arguments not_ready {V Exn}.
Arguments has_value {V Exn} _.
Arguments has_exception {V Exn} _.

(** How a statement completes. *)
Inductive completion (Exn X : Type) : Type :=
| normal (x : X)
| throws (e : exception_ptr Exn).
Arguments normal {Exn X} _.
Arguments throws {Exn X} _.

(** What [std::invoke(f, args...)] comes to. *)
Inductive Outcome (V Exn : Type) : Type :=
| Returned (v : V)
| Raised (e : Exn).
Arguments Returned {V Exn} _.
Arguments Raised {V Exn} _.

Section Promises.
Context {Args V Exn : Type}.

(** The shared states live on the heap, addressed by [nat]. *)
Abbreviation Heap := (gmap nat (shared_state V Exn)).

(** A statement: it changes the heap and completes normally or throws. *)
Definition stmt (X : Type) : Type := Heap -> completion Exn X * Heap.

Definition ret {X : Type} (x : X) : stmt X := fun h => (normal x, h).

Definition throw {X : Type} (e : exception_ptr Exn) : stmt X :=
  fun h => (throws e, h).

Definition bind {X Y : Type} (s : stmt X) (k : X -> stmt Y) : stmt Y :=
  fun h =>
    match s h with
    | (normal x, h') => k x h'
    | (throws e, h') => (throws e, h')
    end.

(** [try { s } catch (...) { handler(std::current_exception()) }] *)
Definition try_catch {X : Type} (s : stmt X)
    (handler : exception_ptr Exn -> stmt X) : stmt X :=
  fun h =>
    match s h with
    | (normal x, h') => (normal x, h')
    | (throws e, h') => handler e h'
    end.

(** [promise->set_value(v)] *)
Definition set_value (promise : nat) (v : V) : stmt unit :=
  fun h =>
    match h !! promise with
    | Some not_ready => (normal tt, <[promise := has_value v]> h)
    | Some _ => (throws (future_error promise_already_satisfied), h)
    | None => (throws (future_error no_state), h)
    end.

(** [promise->set_exception(e)] *)
Definition set_exception (promise : nat) (e : exception_ptr Exn) : stmt unit :=
  fun h =>
    match h !! promise with
    | Some not_ready => (normal tt, <[promise := has_exception e]> h)
    | Some _ => (throws (future_error promise_already_satisfied), h)
    | None => (throws (future_error no_state), h)
    end.

(** [~promise()], run when the last closure that holds the promise is
    destroyed: a shared state that is not ready is abandoned with
    [future_error(broken_promise)] and made ready; a ready one is left as
    it is.  (The promise tests first that a future still shares the state;
    without one nobody can read it.) *)
Definition promise_destroy (promise : nat) (h : Heap) : Heap :=
  match h !! promise with
  | Some not_ready =>
      <[promise := has_exception (future_error broken_promise)]> h
  | _ => h
  end.

(** [std::invoke(f, args...)]: the callable returns or throws. *)
Definition invoke (f : Args -> Outcome V Exn) (args : Args) : stmt V :=
  match f args with
  | Returned v => ret v
  | Raised e => throw (user_exception e)
  end.

(** The lambda of [submit_task_helper]: its captures, and its body. *)
Record TaskClosure : Type := mkTaskClosure {
  closure_f : Args -> Outcome V Exn;
  closure_args : Args;
  closure_promise : nat
}.

Definition TaskClosure_call (c : TaskClosure) : stmt unit :=
  try_catch
    (bind (invoke (closure_f c) (closure_args c))
          (fun v => set_value (closure_promise c) v))
    (fun e => set_exception (closure_promise c) e).

(** [std::future<R>]: the handle given back to the submitter. *)
Record Future : Type := mkFuture {
  future_state : nat;
  future_valid : bool
}.

(** [future.get()]: [None] while the state is not ready (the caller blocks);
    otherwise the value, or the stored exception thrown again; the future
    is left invalid. *)
Definition future_get (fut : Future) (h : Heap)
  : option (completion Exn V * Future) :=
  if future_valid fut then
    match h !! future_state fut with
    | Some (has_value v) => Some (normal v, mkFuture (future_state fut) false)
    | Some (has_exception e) => Some (throws e, mkFuture (future_state fut) false)
    | _ => None
    end
  else Some (throws (future_error no_state), fut).

End Promises.
Arguments TaskClosure : clear implicits.

(* ===================================================================== *)
(** ** The pool *)
(* ===================================================================== *)

(** [std::size_t] arithmetic wraps at [2^64]. *)
Definition size_max : Z := (2 ^ 64 - 1)%Z.
Definition size_dec (n : Z) : Z := ((n - 1) mod 2 ^ 64)%Z.
Definition size_inc (n : Z) : Z := ((n + 1) mod 2 ^ 64)%Z.

(** Where a worker stands in the thread function of the constructor
    (lines 62-81).  The two last points are not in the source: an exception
    that leaves the thread function ends in [std::terminate], and [pop] on
    an empty queue is undefined. *)
Inductive WorkerPC (T : Type) : Type :=
| AtLock                                 (* about to lock [queue_mutex] *)
| AtDecrement                            (* [--tasks_running] *)
| AtWait                                 (* in [cv.wait], testing the predicate *)
| Waiting                                (* in [cv.wait], blocked, lock released *)
| AtStopCheck                            (* [if (stop) return] *)
| AtPop                                  (* [work_queue.pop()] *)
| AtIncrement (work_item : WorkItem T)   (* [++tasks_running] *)
| AtUnlock (work_item : WorkItem T)      (* [lock.unlock()] *)
| Executing (work_item : WorkItem T)     (* [work_item.task()] *)
| Stopped                                (* returned *)
| Terminated
| Undefined.
Arguments AtLock {T}.
Arguments AtDecrement {T}.
Arguments AtWait {T}.
Arguments Waiting {T}.
Arguments AtStopCheck {T}.
Arguments AtPop {T}.
Arguments AtIncrement {T} _.
Arguments AtUnlock {T} _.
Arguments Executing {T} _.
Arguments Stopped {T}.
Arguments Terminated {T}.
Arguments Undefined {T}.

(** The result of instantiating a member template: code, or a diagnostic
    of the compiler. *)
Inductive instantiation (X : Type) : Type :=
| well_formed (x : X)
| ill_formed (diagnostic : string).
Arguments well_formed {X} _.
Arguments ill_formed {X} _.

Definition static_assert {X : Type} (condition : bool) (message : string)
    (rest : X) : instantiation X :=
  if condition then well_formed rest else ill_formed message.

Section Pool.
Context {Args V Exn : Type}.

Abbreviation Task := (TaskClosure Args V Exn).

(** The members of [ThreadPool], with the heap of shared states that the
    queued closures and the returned futures point into.  [queue_mutex] is
    its owner, a worker, or [None]; the condition variable has no state of
    its own, since a waiting thread may wake at any time. *)
Record ThreadPool : Type := mkThreadPool {
  num_threads : Z;
  threads : list (WorkerPC Task);
  work_queue : list (WorkItem Task);
  queue_mutex : option nat;
  stop : bool;
  tasks_running : Z;
  promises : gmap nat (shared_state V Exn)
}.

Definition set_thread (i : nat) (pc : WorkerPC Task) (p : ThreadPool) : ThreadPool :=
  mkThreadPool (num_threads p) (<[i:=pc]> (threads p)) (work_queue p)
    (queue_mutex p) (stop p) (tasks_running p) (promises p).

Definition set_work_queue (q : list (WorkItem Task)) (p : ThreadPool) : ThreadPool :=
  mkThreadPool (num_threads p) (threads p) q
    (queue_mutex p) (stop p) (tasks_running p) (promises p).

Definition set_queue_mutex (m : option nat) (p : ThreadPool) : ThreadPool :=
  mkThreadPool (num_threads p) (threads p) (work_queue p)
    m (stop p) (tasks_running p) (promises p).

Definition set_stop (b : bool) (p : ThreadPool) : ThreadPool :=
  mkThreadPool (num_threads p) (threads p) (work_queue p)
    (queue_mutex p) b (tasks_running p) (promises p).

Definition set_tasks_running (n : Z) (p : ThreadPool) : ThreadPool :=
  mkThreadPool (num_threads p) (threads p) (work_queue p)
    (queue_mutex p) (stop p) n (promises p).

Definition set_promises (h : gmap nat (shared_state V Exn)) (p : ThreadPool)
  : ThreadPool :=
  mkThreadPool (num_threads p) (threads p) (work_queue p)
    (queue_mutex p) (stop p) (tasks_running p) h.

(** The constructor: [num_threads] workers, each at the top of its loop. *)
Definition ThreadPool_new (num_threads : Z) : ThreadPool :=
  mkThreadPool num_threads (replicate (Z.to_nat num_threads) AtLock) []
    None false num_threads ∅.

Definition thread_count (p : ThreadPool) : Z := num_threads p.

(** [get_tasks_running]: the read is made under a [lock_guard]; [None]
    while a worker holds the mutex (the caller blocks). *)
Definition get_tasks_running (p : ThreadPool) : option Z :=
  match queue_mutex p with
  | None => Some (tasks_running p)
  | Some _ => None
  end.

(** The first block of the destructor, up to [cv.notify_all()]:
    [stop = true] under the lock; [None] while a worker holds the mutex.
    The join loop and the destruction of the members come after it, see
    [joined], [destroy_members] and [ThreadPool_destructor]. *)
Definition destroy (p : ThreadPool) : option ThreadPool :=
  match queue_mutex p with
  | None => Some (set_stop true p)
  | Some _ => None
  end.

(** The destructor returns from its [join] loop once every worker has. *)
Definition is_Stopped (pc : WorkerPC Task) : bool :=
  match pc with Stopped => true | _ => false end.

Definition joined (p : ThreadPool) : bool := forallb is_Stopped (threads p).

(** The end of the destructor: after the joins the members are destroyed,
    and with [work_queue] the closures that are still queued, front to
    back.  Each of them holds the only reference left to its promise, so
    the promises of the abandoned tasks are destroyed with them.  What
    remains of the pool is the heap of shared states that the futures
    point into. *)
Definition destroy_members (p : ThreadPool) : gmap nat (shared_state V Exn) :=
  foldl (fun h work_item => promise_destroy (closure_promise (task work_item)) h)
        (promises p) (work_queue p).

Section Scheduling.
Context (EnablePriorityScheduling : bool).

(** One step of worker [i]; [None] when it cannot move (it waits for the
    mutex, or its thread function has ended). *)
Definition worker_step (i : nat) (p : ThreadPool) : option ThreadPool :=
  pc ← threads p !! i;
  match pc with
  | AtLock =>
      match queue_mutex p with
      | None => Some (set_thread i AtDecrement (set_queue_mutex (Some i) p))
      | Some _ => None
      end
  | AtDecrement =>
      Some (set_thread i AtWait
              (set_tasks_running (size_dec (tasks_running p)) p))
  | AtWait =>
      if stop p || negb (WorkQueue.empty (work_queue p))
      then Some (set_thread i AtStopCheck p)
      else Some (set_thread i Waiting (set_queue_mutex None p))
  | Waiting =>
      match queue_mutex p with
      | None => Some (set_thread i AtWait (set_queue_mutex (Some i) p))
      | Some _ => None
      end
  | AtStopCheck =>
      if stop p
      then Some (set_thread i Stopped (set_queue_mutex None p))
      else Some (set_thread i AtPop p)
  | AtPop =>
      match WorkQueue.pop EnablePriorityScheduling (work_queue p) with
      | Some (work_item, work_queue) =>
          Some (set_thread i (AtIncrement work_item)
                  (set_work_queue work_queue p))
      | None => Some (set_thread i Undefined p)
      end
  | AtIncrement work_item =>
      Some (set_thread i (AtUnlock work_item)
              (set_tasks_running (size_inc (tasks_running p)) p))
  | AtUnlock work_item =>
      Some (set_thread i (Executing work_item) (set_queue_mutex None p))
  | Executing work_item =>
      match TaskClosure_call (task work_item) (promises p) with
      | (normal _, h) => Some (set_thread i AtLock (set_promises h p))
      | (throws _, h) => Some (set_thread i Terminated (set_promises h p))
      end
  | Stopped | Terminated | Undefined => None
  end.

(** [submit_task_helper]: make the promise and its future, build the
    closure, push it under a [lock_guard]; [None] while a worker holds the
    mutex.  [cv.notify_one()] changes no state. *)
Definition submit_task_helper (priority : Z) (f : Args -> Outcome V Exn)
    (args : Args) (p : ThreadPool) : option (Future * ThreadPool) :=
  let promise := fresh (dom (promises p)) in
  let result := mkFuture promise true in
  let work_item := mkTaskClosure f args promise in
  match queue_mutex p with
  | None =>
      work_queue ← WorkQueue.push EnablePriorityScheduling (work_queue p)
                     (mkWorkItem work_item priority);
      Some (result,
            set_work_queue work_queue
              (set_promises (<[promise := not_ready]> (promises p)) p))
  | Some _ => None
  end.

Definition submit_task (f : Args -> Outcome V Exn) (args : Args)
    (p : ThreadPool) : option (Future * ThreadPool) :=
  submit_task_helper (to_Priority 0) f args p.

Definition submit_priority_task
  : instantiation (Z -> (Args -> Outcome V Exn) -> Args -> ThreadPool
                   -> option (Future * ThreadPool)) :=
  static_assert EnablePriorityScheduling
    "Priority scheduling should be enabled"
    (fun priority f args p => submit_task_helper priority f args p).

(** What the threads of a program can do to a pool while it exists.
    [act_destroy] is the first block of the destructor, [destroy]: the
    pool is there until the join loop of its destructor has ended, and a
    run goes no further than that.  What the destructor does then is
    [destroy_members]. *)
Inductive Action : Type :=
| act_worker (i : nat)
| act_submit_task (f : Args -> Outcome V Exn) (args : Args)
| act_submit_priority_task (priority : Z) (f : Args -> Outcome V Exn) (args : Args)
| act_get_tasks_running
| act_destroy.

Inductive Event : Type :=
| ev_pushed (work_item : WorkItem Task)
| ev_popped (i : nat) (work_item : WorkItem Task)
| ev_started (i : nat) (work_item : WorkItem Task)
| ev_silent.

Definition exec (a : Action) (p : ThreadPool) : option ThreadPool :=
  match a with
  | act_worker i => worker_step i p
  | act_submit_task f args => snd <$> submit_task f args p
  | act_submit_priority_task priority f args =>
      match submit_priority_task with
      | well_formed submit => snd <$> submit (to_Priority priority) f args p
      | ill_formed _ => None
      end
  | act_get_tasks_running => _ ← get_tasks_running p; Some p
  | act_destroy => destroy p
  end.

(** What an enabled action shows of itself. *)
Definition event_of (a : Action) (p : ThreadPool) : Event :=
  match a with
  | act_worker i =>
      match threads p !! i with
      | Some AtPop =>
          match WorkQueue.pop EnablePriorityScheduling (work_queue p) with
          | Some (work_item, _) => ev_popped i work_item
          | None => ev_silent
          end
      | Some (Executing work_item) => ev_started i work_item
      | _ => ev_silent
      end
  | act_submit_task f args =>
      ev_pushed (mkWorkItem
                   (mkTaskClosure f args (fresh (dom (promises p))))
                   (to_Priority 0))
  | act_submit_priority_task priority f args =>
      ev_pushed (mkWorkItem
                   (mkTaskClosure f args (fresh (dom (promises p))))
                   (to_Priority priority))
  | _ => ev_silent
  end.

Fixpoint run (acts : list Action) (p : ThreadPool)
  : option (ThreadPool * list Event) :=
  match acts with
  | [] => Some (p, [])
  | a :: acts =>
      p' ← exec a p;
      '(p'', trace) ← run acts p';
      Some (p'', event_of a p :: trace)
  end.

(** [~ThreadPool] as a whole: the first block, the join loop, during which
    the other threads take the steps of [meanwhile], and the destruction of
    the members.  [None]: the destructor cannot take the mutex, a step of
    [meanwhile] is not enabled, or some worker has not returned after
    [meanwhile], so that its [join] blocks.  The result is what the other
    threads did and the shared states that are left. *)
Definition ThreadPool_destructor (meanwhile : list Action) (p : ThreadPool)
  : option (list Event * gmap nat (shared_state V Exn)) :=
  p ← destroy p;
  '(p, trace) ← run meanwhile p;
  if joined p then Some (trace, destroy_members p) else None.

Definition reachable (num_threads : Z) (p : ThreadPool) : Prop :=
  exists acts trace, run acts (ThreadPool_new num_threads) = Some (p, trace).

End Scheduling.

Definition pushed (trace : list Event) : list (WorkItem Task) :=
  flat_map (fun e => match e with ev_pushed w => [w] | _ => [] end) trace.

Definition popped (trace : list Event) : list (WorkItem Task) :=
  flat_map (fun e => match e with ev_popped _ w => [w] | _ => [] end) trace.

Definition started (trace : list Event) : list (WorkItem Task) :=
  flat_map (fun e => match e with ev_started _ w => [w] | _ => [] end) trace.

End Pool.
Arguments ThreadPool : clear implicits.
Arguments Action : clear implicits.
Arguments Event : clear implicits.

(* ===================================================================== *)
(** ** Invariants of the pool *)
(* ===================================================================== *)

Section PoolPredicates.
Context {Args V Exn : Type}.

Abbreviation Task := (TaskClosure Args V Exn).

(** The control points between the construction of the [unique_lock] and
    its release. *)
Definition holds_lock (pc : WorkerPC Task) : bool :=
  match pc with
  | AtDecrement | AtWait | AtStopCheck | AtPop
  | AtIncrement _ | AtUnlock _ => true
  | _ => false
  end.

(** The share of a worker in [tasks_running]: one from the start of a turn
    of the loop to its decrement, and from the increment to the end. *)
Definition counted (pc : WorkerPC Task) : Z :=
  match pc with
  | AtLock | AtDecrement | AtUnlock _ | Executing _ | Terminated => 1
  | _ => 0
  end.

Definition counted_total (ts : list (WorkerPC Task)) : Z :=
  foldr (fun pc n => (counted pc + n)%Z) 0%Z ts.

(** The work item a worker has taken from the queue and not yet run. *)
Definition held (pc : WorkerPC Task) : list (WorkItem Task) :=
  match pc with
  | AtIncrement w | AtUnlock w | Executing w => [w]
  | _ => []
  end.

(** Submitted and not yet run. *)
Definition pending (p : ThreadPool Args V Exn) : list (WorkItem Task) :=
  work_queue p ++ flat_map held (threads p).

(** The mutex is owned by the one worker inside its critical section. *)
Definition owner_inv (ts : list (WorkerPC Task)) (m : option nat) : Prop :=
  forall i, m = Some i <->
    exists pc, ts !! i = Some pc /\ holds_lock pc = true.

Definition promise_of (w : WorkItem Task) : nat := closure_promise (task w).

Record pool_inv (EnablePriorityScheduling : bool) (p : ThreadPool Args V Exn)
  : Prop := mk_pool_inv {
  inv_size : (0 <= num_threads p <= size_max)%Z
             /\ length (threads p) = Z.to_nat (num_threads p);
  inv_owner : owner_inv (threads p) (queue_mutex p);
  inv_check : forall i, threads p !! i = Some AtStopCheck ->
                stop p = true \/ work_queue p <> [];
  inv_pop : forall i, threads p !! i = Some AtPop ->
                stop p = false /\ work_queue p <> [];
  inv_queue : WorkQueue.built EnablePriorityScheduling (work_queue p);
  inv_count : tasks_running p = counted_total (threads p);
  inv_fresh : NoDup (map promise_of (pending p));
  inv_not_ready : forall w, w ∈ pending p ->
                    promises p !! promise_of w = Some not_ready;
  inv_alive : forall i pc, threads p !! i = Some pc ->
                pc <> Terminated /\ pc <> Undefined
}.

(** A worker that tests the predicate of its wait while [stop] is set is on
    its way out. *)
Definition leaving (i : nat) (p : ThreadPool Args V Exn) : Prop :=
  stop p = true
  /\ (threads p !! i = Some AtWait \/ threads p !! i = Some AtStopCheck
      \/ threads p !! i = Some Stopped).

End PoolPredicates.

(** What the closure leaves in the shared state for an outcome of the
    callable. *)
Definition recorded {V Exn : Type} (o : Outcome V Exn) : shared_state V Exn :=
  match o with
  | Returned v => has_value v
  | Raised e => has_exception (user_exception e)
  end.

(** What [future.get()] gives for an outcome of the callable. *)
Definition delivered {V Exn : Type} (o : Outcome V Exn) : completion Exn V :=
  match o with
  | Returned v => normal v
  | Raised e => throws (user_exception e)
  end.

(* ===================================================================== *)
(** ** Sample queues and pools *)
(* ===================================================================== *)

(** A priority queue holding a task of priority 1 and one of priority 5,
    pushed in that order. *)
Definition two_priorities : list (WorkItem nat) :=
  [mkWorkItem 2 5%Z; mkWorkItem 1 1%Z].

(** Four tasks of one priority. *)
Definition four_equal : list (WorkItem nat) :=
  [mkWorkItem 1 0%Z; mkWorkItem 2 0%Z; mkWorkItem 3 0%Z; mkWorkItem 4 0%Z].

(** A priority queue after [submit_priority_task(-3, ...)] and
    [submit_task(...)]. *)
Definition negative_and_default : list (WorkItem nat) :=
  [mkWorkItem 2 (to_Priority 0); mkWorkItem 1 (-3)%Z].


(** Callables over [unit] with results in [Z] and exceptions named by a
    string. *)
Definition returns_seven : unit -> Outcome Z string := fun _ => Returned 7%Z.
Definition raises_boom : unit -> Outcome Z string := fun _ => Raised "boom"%string.

(** The pool a run leaves behind. *)
Definition pool_after {Args V Exn : Type} (E : bool) (num_threads : Z)
    (acts : list (Action Args V Exn)) : ThreadPool Args V Exn :=
  match run E acts (ThreadPool_new num_threads) with
  | Some (p, _) => p
  | None => ThreadPool_new num_threads
  end.

(** One worker runs its loop from the top to the call of the task. *)
Definition to_the_task {Args V Exn : Type} (i : nat) : list (Action Args V Exn) :=
  replicate 7 (act_worker i).

(** A pool of one worker about to run a task that throws. *)
Definition about_to_throw : ThreadPool unit Z string :=
  pool_after false 1 (act_submit_task raises_boom tt :: to_the_task 0).

Definition trace_after {Args V Exn : Type} (E : bool) (num_threads : Z)
    (acts : list (Action Args V Exn)) : list (Event Args V Exn) :=
  match run E acts (ThreadPool_new num_threads) with
  | Some (_, trace) => trace
  | None => []
  end.

(** Two submissions to a pool of one worker without priority scheduling;
    the worker takes the first task and runs it. *)
Definition two_then_run : list (Action unit Z string) :=
  act_submit_task returns_seven tt :: act_submit_task raises_boom tt
  :: to_the_task 0 ++ [act_worker 0].

(** A worker that holds the lock in its wait, with [stop] set and a task
    still queued. *)
Definition stopping_with_work : ThreadPool unit Z string :=
  mkThreadPool 1 [AtWait]
    [mkWorkItem (mkTaskClosure returns_seven tt 0) 0%Z]
    (Some 0) true 0 {[ 0 := not_ready ]}.

(** A pool of two workers with priority scheduling: one task submitted,
    worker 0 at its [pop]. *)
Definition at_the_pop : ThreadPool unit Z string :=
  pool_after true 2
    (act_submit_task returns_seven tt :: replicate 4 (act_worker 0)).

(** The same pool one step earlier in worker 0's loop after it has taken
    the task: about to increment the counter. *)
Definition at_the_increment : ThreadPool unit Z string :=
  pool_after true 2
    (act_submit_task returns_seven tt :: replicate 5 (act_worker 0)).

(** A pool of one worker with priority scheduling: priorities 1 and 5 are
    submitted in that order, then the worker runs up to the call of a
    task. *)
Definition low_then_high : list (Action unit Z string) :=
  act_submit_priority_task 1 returns_seven tt
  :: act_submit_priority_task 5 raises_boom tt
  :: to_the_task 0.

(* ===================================================================== *)
(** ** Notions used by the further properties *)
(* ===================================================================== *)

Section PoolNotions.
Context {Args V Exn : Type}.

(** What the callable of a work item comes to when it is invoked. *)
Definition outcome_of (w : WorkItem (TaskClosure Args V Exn)) : Outcome V Exn :=
  closure_f (task w) (closure_args (task w)).

(** The future that [submit_task_helper] returned for a work item. *)
Definition future_of (w : WorkItem (TaskClosure Args V Exn)) : Future :=
  mkFuture (promise_of w) true.


(** The steps that take a parked worker out of its loop once [stop] is
    set: wake and take the lock, test the predicate, test [stop]. *)
Definition wake_and_leave (i : nat) : list (Action Args V Exn) :=
  [act_worker i; act_worker i; act_worker i].

(** The first block of the destructor, followed by the steps in which [n]
    parked workers leave their loops, one after the other. *)
Definition teardown (n : nat) : list (Action Args V Exn) :=
  act_destroy :: flat_map wake_and_leave (seq 0 n).

(** One turn of the loop of worker [i], from the lock to the end of the
    task. *)
Definition one_turn (i : nat) : list (Action Args V Exn) :=
  replicate 8 (act_worker i).

(** [k] turns of worker [i], one after the other. *)
Definition turns (k i : nat) : list (Action Args V Exn) :=
  concat (replicate k (one_turn i)).

(** Submitted work items keep to their own promises: these are pairwise
    distinct, each is unwritten or holds the outcome of its own callable,
    and nothing is pending that was not submitted. *)
Definition integrity (submitted : list (WorkItem (TaskClosure Args V Exn)))
    (p : ThreadPool Args V Exn) : Prop :=
  NoDup (map promise_of submitted)
  /\ (forall w, w ∈ submitted ->
        promises p !! promise_of w = Some not_ready
        \/ promises p !! promise_of w = Some (recorded (outcome_of w)))
  /\ (forall w, w ∈ pending p -> w ∈ submitted).

End PoolNotions.

(* ===================================================================== *)
(** ** The workloads of [tests/thread_pool.cpp] *)
(* ===================================================================== *)

(** [std::size_t] and [unsigned long long] are 64 bits wide and wrap
    around; [int] is 32 bits wide and its overflow is undefined. *)
Definition size_add (a b : Z) : Z := ((a + b) mod 2 ^ 64)%Z.
Definition size_sub (a b : Z) : Z := ((a - b) mod 2 ^ 64)%Z.

Definition INT_MAX : Z := (2 ^ 31 - 1)%Z.

(** [static_cast<int>(i)] of a [std::size_t]. *)
Definition static_cast_int (i : Z) : Z := ((i + 2 ^ 31) mod 2 ^ 32 - 2 ^ 31)%Z.

(** [fibonacci]: the doubly recursive function of the CPU-bound tests. *)
Equations? fibonacci (n : Z) : Z by wf (Z.to_nat n) lt :=
  fibonacci n with Z_le_gt_dec n 1 := {
    | left _ := n;
    | right Hgt :=
        size_add (fibonacci (size_sub n 1)) (fibonacci (size_sub n 2)) }.
Proof.
  all: unfold size_sub.
  - pose proof (Z.mod_pos_bound (n - 1) (2 ^ 64) ltac:(lia)).
    pose proof (Z.mod_le (n - 1) (2 ^ 64) ltac:(lia) ltac:(lia)). lia.
  - pose proof (Z.mod_pos_bound (n - 2) (2 ^ 64) ltac:(lia)).
    pose proof (Z.mod_le (n - 2) (2 ^ 64) ltac:(lia) ltac:(lia)). lia.
Qed.

(** The Fibonacci numbers, as integers without bound. *)
Fixpoint fib_number (n : nat) : Z :=
  match n with
  | 0 => 0%Z
  | S m =>
      match m with
      | 0 => 1%Z
      | S k => (fib_number m + fib_number k)%Z
      end
  end.

(** The same numbers, two at a time. *)
Fixpoint fib_pair (n : nat) : Z * Z :=
  match n with
  | 0 => (0%Z, 1%Z)
  | S m => let '(a, b) := fib_pair m in (b, (a + b)%Z)
  end.

(** How [memory_work] ends: with a value, with an exception of the
    library, or in undefined behaviour. *)
Inductive std_exception : Type :=
| length_error
| bad_alloc.

Inductive ending (X : Type) : Type :=
| finished (x : X)
| thrown (e : std_exception)
| undefined.
Arguments finished {X} _.
Arguments thrown {X} _.
Arguments undefined {X}.

(** [++value] on an [int]. *)
Definition int_incr (value : Z) : option Z :=
  if decide (value < INT_MAX)%Z then Some (value + 1)%Z else None.

(** [std::iota(first, last, value)]: every element is assigned [value],
    which is incremented after each assignment, the last one included. *)
Fixpoint iota (range : list Z) (value : Z) : option (list Z) :=
  match range with
  | [] => Some []
  | _ :: rest =>
      value' ← int_incr value;
      rest' ← iota rest value';
      Some (value :: rest')
  end.

(** [std::accumulate(first, last, init)] with [init] an
    [unsigned long long]: each [int] is converted and added. *)
Fixpoint accumulate (range : list Z) (init : Z) : Z :=
  match range with
  | [] => init
  | x :: rest => accumulate rest (size_add init (x mod 2 ^ 64)%Z)
  end.

(** [std::vector<int>::max_size()]: [PTRDIFF_MAX / sizeof(int)]. *)
Definition vector_int_max_size : Z := ((2 ^ 63 - 1) / 4)%Z.

(** [memory_work].  [allocate n] says whether [operator new] finds room for
    [n] ints; the vector asks for none when it is empty. *)
Definition memory_work (allocate : Z -> bool) (size : Z) : ending Z :=
  if decide (vector_int_max_size < size)%Z then thrown length_error
  else if negb ((size =? 0)%Z || allocate size) then thrown bad_alloc
  else
    let data := replicate (Z.to_nat size) 0%Z in
    match iota data 0%Z with
    | Some data => finished (accumulate data 0%Z)
    | None => undefined
    end.

(** *** [test_exception_handling] *)

(** The callable submitted for index [i]: it throws a [std::runtime_error],
    here its message, when [i] is even. *)
Definition exception_task (i : Z) : unit -> Outcome Z string :=
  fun _ =>
    if (i mod 2 =? 0)%Z
    then Raised ("Test exception " +:+ pretty i)
    else Returned (static_cast_int i).

(** The first loop: one submission for each [i] below [exception_tasks]. *)
Definition submission_loop (exception_tasks : nat)
  : list (Action unit Z string) :=
  map (fun i => act_submit_task (exception_task (Z.of_nat i)) tt)
      (seq 0 exception_tasks).

(** What the submitting thread does in a schedule. *)
Definition client_part {Args V Exn : Type} (acts : list (Action Args V Exn))
  : list (Action Args V Exn) :=
  flat_map (fun a => match a with act_worker _ => [] | _ => [a] end) acts.

(** What a submission asks for: the outcome of its callable. *)
Definition requested {Args V Exn : Type} (a : Action Args V Exn)
  : list (Outcome V Exn) :=
  match a with
  | act_submit_task f args => [f args]
  | act_submit_priority_task _ f args => [f args]
  | _ => []
  end.

Definition raised {V Exn : Type} (o : Outcome V Exn) : bool :=
  match o with
  | Raised _ => true
  | Returned _ => false
  end.

(** The second loop: the futures are read in turn, and a read that throws
    is counted.  [meanwhile] holds, for each read, what the other threads
    do to the pool before it; [None] when a read finds its future not ready
    (the loop blocks) or the schedule cannot run. *)
Fixpoint handle_results (E : bool) (futures : list Future)
    (meanwhile : list (list (Action unit Z string)))
    (p : ThreadPool unit Z string) (exception_count : nat) : option nat :=
  match futures with
  | [] => Some exception_count
  | future :: futures =>
      '(p', _) ← run E (hd [] meanwhile) p;
      '(result, _) ← future_get future (promises p');
      handle_results E futures (tl meanwhile) p'
        (match result with
         | normal _ => exception_count
         | throws _ => S exception_count
         end)
  end.

(** The check after the loops: [exception_count != futures.size() / 2]. *)
Definition unexpected_number (exception_count : nat) (futures : list Future)
  : bool :=
  negb (exception_count =? length futures / 2).

(** A run of the test with four tasks on two workers: worker 0 takes a
    turn after every second submission, worker 1 runs what is left while
    the results are read. *)
Definition four_submitted : list (Action unit Z string) :=
  [act_submit_task (exception_task 0) tt;
   act_submit_task (exception_task 1) tt]
  ++ one_turn 0
  ++ [act_submit_task (exception_task 2) tt;
      act_submit_task (exception_task 3) tt]
  ++ one_turn 0.

Definition four_meanwhile : list (list (Action unit Z string)) :=
  [[]; []; turns 2 1; []].

(* ===================================================================== *)
(** * Properties *)
(* ===================================================================== *)

Local Arguments Nat.div : simpl never.
Local Arguments Nat.mul : simpl never.
Local Arguments Nat.sub : simpl never.

(** ** Vectors *)

Lemma vec_set_Some {A : Type} (first : list A) i x :
  i < length first -> vec_set first i x = Some (<[i:=x]> first).
Proof. intros H. unfold vec_set. destruct (decide _); [reflexivity|lia]. Qed.

Lemma vec_set_inv {A : Type} (first first' : list A) i x :
  vec_set first i x = Some first' -> i < length first /\ first' = <[i:=x]> first.
Proof.
  unfold vec_set. destruct (decide _); [|discriminate].
  intros [= <-]. auto.
Qed.

Lemma cons_insert_swap {A : Type} (l : list A) j a b :
  j < length l -> l !! j = Some a -> b :: l ≡ₚ a :: <[j:=b]> l.
Proof.
  revert j. induction l as [|x l IH]; intros [|j] Hj Hl; simpl in *; try lia.
  - injection Hl as ->. apply perm_swap.
  - rewrite (perm_swap x b), (IH j) by (auto; lia). apply perm_swap.
Qed.

(** Writing [b] over [a] at [j], and [a] over the old content of [i]:
    the same elements as writing [b] at [i]. *)
Lemma insert_move_perm {A : Type} (l : list A) i j a b :
  i <> j -> i < length l -> j < length l -> l !! j = Some a ->
  <[j:=b]> (<[i:=a]> l) ≡ₚ <[i:=b]> l.
Proof.
  revert i j. induction l as [|x l IH]; intros [|i] [|j] Hne Hi Hj Hl;
    simpl in *; try lia.
  - symmetry. apply cons_insert_swap; [lia|assumption].
  - injection Hl as ->.
    rewrite (cons_insert_swap (<[i:=a]> l) i a b).
    + by rewrite list_insert_insert_eq.
    + rewrite length_insert. lia.
    + apply list_lookup_insert_eq. lia.
  - f_equiv. apply IH; auto; lia.
Qed.

(** ** Distances *)

(** The truncated subtraction of [nat] gives what the signed C++
    expressions give at every distance. *)
Lemma parent_signed (holeIndex : nat) :
  Z.of_nat ((holeIndex - 1) / 2) = ((Z.of_nat holeIndex - 1) ÷ 2)%Z.
Proof.
  destruct holeIndex as [|h]; [reflexivity|].
  rewrite Z.quot_div_nonneg by lia. lia.
Qed.

Lemma last_parent_signed (len : nat) :
  Z.of_nat ((len - 1) / 2) = ((Z.of_nat len - 1) ÷ 2)%Z.
Proof. apply parent_signed. Qed.

(** ** The heap algorithms on small vectors *)

Example push_heap_sifts_up :
  PriorityQueue.push Z.ltb [5; 3; 4; 1]%Z 7%Z = Some [7; 5; 4; 1; 3]%Z.
Proof. reflexivity. Qed.

Example pop_heap_sifts_down :
  PriorityQueue.pop Z.ltb [7; 5; 4; 1; 3]%Z = Some [5; 3; 4; 1]%Z.
Proof. reflexivity. Qed.

Example pop_heap_single : PriorityQueue.pop Z.ltb [7]%Z = Some [].
Proof. reflexivity. Qed.

Example pop_heap_empty : PriorityQueue.pop Z.ltb ([] : list Z) = None.
Proof. reflexivity. Qed.

(** Equal priorities: nothing moves on the pushes; the first pop moves the
    right child [3] to the front. *)
Example equal_priorities_after_pushes :
  WorkQueue.push_all true [] four_equal = Some four_equal.
Proof. reflexivity. Qed.

Example equal_priorities_first_pop :
  WorkQueue.pop true four_equal
  = Some (mkWorkItem 1 0%Z,
          [mkWorkItem 3 0%Z; mkWorkItem 2 0%Z; mkWorkItem 4 0%Z]).
Proof. reflexivity. Qed.

Example to_Priority_wraps :
  to_Priority 0 = 0%Z /\ to_Priority 300 = 44%Z /\ to_Priority (-129) = 127%Z.
Proof. repeat split; reflexivity. Qed.

(** ** The heap algorithms keep the heap invariant *)

Section HeapProofs.
Context {A : Type} (comp : A -> A -> bool).

(** [comp] is a strict weak ordering, as [std::push_heap] requires. *)
Hypothesis comp_asym : forall a b, comp a b = true -> comp b a = false.
Hypothesis comp_negtrans :
  forall a b c, comp a b = false -> comp b c = false -> comp a c = false.

Lemma comp_irrefl a : comp a a = false.
Proof.
  destruct (comp a a) eqn:E; [|reflexivity].
  pose proof (comp_asym _ _ E). congruence.
Qed.

Lemma __push_heap_unfold first hole top value :
  StdHeap.__push_heap comp first hole top value =
  if decide (top < hole) then
    p ← first !! ((hole - 1) / 2);
    if comp p value then
      first' ← vec_set first hole p;
      StdHeap.__push_heap comp first' ((hole - 1) / 2) top value
    else vec_set first hole value
  else vec_set first hole value.
Proof.
  rewrite StdHeap.__push_heap_equation_1.
  destruct (lt_dec top hole) as [Hlt|Hlt]; simpl;
    destruct (decide (top < hole)); try lia; [|reflexivity].
  destruct (first !! ((hole - 1) / 2)) as [p|]; simpl; [|reflexivity].
  destruct (comp p value); simpl; [|reflexivity].
  destruct (vec_set first hole p); reflexivity.
Qed.

Lemma __adjust_heap_loop_unfold first hole sc len :
  StdHeap.__adjust_heap_loop comp first hole sc len =
  if decide (sc < (len - 1) / 2) then
    '(first', h', s') ← StdHeap.__adjust_heap_body comp first hole sc;
    StdHeap.__adjust_heap_loop comp first' h' s' len
  else Some (first, hole, sc).
Proof.
  rewrite StdHeap.__adjust_heap_loop_equation_1.
  destruct (lt_dec sc ((len - 1) / 2)) as [Hlt|Hlt]; simpl;
    destruct (decide (sc < (len - 1) / 2)); try lia; [|reflexivity].
  unfold inspect.
  destruct (StdHeap.__adjust_heap_body comp first hole sc) as [[[f h] s]|] eqn:Hb;
    reflexivity.
Qed.

(** Rewrite a lookup in an updated vector by comparing the two positions. *)
Ltac lookup_insert_in H :=
  match type of H with
  | <[?i:=_]> _ !! ?j = Some _ =>
      first [ rewrite list_lookup_insert_ne in H by lia
            | rewrite list_lookup_insert_eq in H by lia; injection H as <- ]
  end.

Lemma fill_hole_is_heap first len hole value :
  hole < length first ->
  heap_except comp first len hole ->
  children_le comp first len hole value ->
  (0 < hole -> forall p, first !! ((hole - 1) / 2) = Some p -> comp p value = false) ->
  is_heap_until comp (<[hole:=value]> first) len.
Proof.
  intros Hl He Hc Hp i x p Hi Hx Hpar.
  destruct (decide (i = hole)) as [->|Hne].
  - lookup_insert_in Hx. lookup_insert_in Hpar. apply Hp; [lia|assumption].
  - lookup_insert_in Hx.
    destruct (decide ((i - 1) / 2 = hole)) as [Heq|Hne'].
    + rewrite Heq in Hpar. lookup_insert_in Hpar. eapply Hc; eauto.
    + lookup_insert_in Hpar. eapply He; eauto.
Qed.

Lemma push_step_invariant first len hole value p :
  0 < hole < len -> len <= length first ->
  first !! ((hole - 1) / 2) = Some p -> comp p value = true ->
  heap_except comp first len hole ->
  children_le comp first len hole value ->
  hole_bridged comp first len hole ->
  heap_except comp (<[hole:=p]> first) len ((hole - 1) / 2)
  /\ children_le comp (<[hole:=p]> first) len ((hole - 1) / 2) value
  /\ hole_bridged comp (<[hole:=p]> first) len ((hole - 1) / 2).
Proof.
  intros Hh Hlen Hp Hcmp He Hc Hb.
  assert (Hvp : comp value p = false) by auto.
  repeat split.
  - intros i x q Hi Hne1 Hne2 Hx Hq.
    destruct (decide (i = hole)) as [->|Hne]; [congruence|].
    lookup_insert_in Hx.
    destruct (decide ((i - 1) / 2 = hole)) as [Heq|Hne'].
    + rewrite Heq in Hq. lookup_insert_in Hq.
      eapply (Hb ltac:(lia) _ Hp); eauto.
    + lookup_insert_in Hq. eapply He; eauto.
  - intros i x Hi Hpar Hx.
    destruct (decide (i = hole)) as [->|Hne].
    + lookup_insert_in Hx. assumption.
    + lookup_insert_in Hx.
      apply (comp_negtrans _ p); [assumption|].
      apply (He i x p); auto; try lia. rewrite Hpar. assumption.
  - intros Hpos g Hg.
    lookup_insert_in Hg.
    assert (Hgp : comp g p = false).
    { apply (He ((hole - 1) / 2) p g); auto; lia. }
    intros i x Hi Hpar Hx.
    destruct (decide (i = hole)) as [->|Hne].
    + lookup_insert_in Hx. assumption.
    + lookup_insert_in Hx.
      apply (comp_negtrans _ p); [assumption|].
      apply (He i x p); auto; try lia. rewrite Hpar. assumption.
Qed.

Lemma __push_heap_spec len value hole :
  forall first, hole < len -> len <= length first ->
  heap_except comp first len hole ->
  children_le comp first len hole value ->
  hole_bridged comp first len hole ->
  exists first',
    StdHeap.__push_heap comp first hole 0 value = Some first'
    /\ is_heap_until comp first' len
    /\ first' ≡ₚ <[hole:=value]> first
    /\ length first' = length first
    /\ (forall j, len <= j -> first' !! j = first !! j).
Proof.
  induction hole as [hole IH] using lt_wf_ind.
  intros first Hh Hlen He Hc Hb.
  rewrite __push_heap_unfold.
  destruct (decide (0 < hole)) as [Hpos|Hzero].
  - destruct (lookup_lt_is_Some_2 first ((hole - 1) / 2)) as [p Hp]; [lia|].
    rewrite Hp. simpl.
    destruct (comp p value) eqn:Hcmp.
    + rewrite vec_set_Some by lia. simpl.
      destruct (push_step_invariant first len hole value p)
        as (He' & Hc' & Hb'); auto.
      destruct (IH ((hole - 1) / 2) ltac:(lia) (<[hole:=p]> first)
                  ltac:(lia) ltac:(rewrite length_insert; lia) He' Hc' Hb')
        as (first' & Hrun & Hheap & Hperm & Hlen' & Htail).
      exists first'. split; [assumption|]. split; [assumption|].
      split; [|split].
      * rewrite Hperm. apply insert_move_perm; auto; lia.
      * rewrite Hlen', length_insert. reflexivity.
      * intros j Hj. rewrite Htail by assumption.
        apply list_lookup_insert_ne. lia.
    + rewrite vec_set_Some by lia.
      eexists. split; [reflexivity|]. split; [|split; [|split]].
      * apply fill_hole_is_heap; auto; [lia|].
        intros _ p' Hp'. congruence.
      * reflexivity.
      * apply length_insert.
      * intros j Hj. apply list_lookup_insert_ne. lia.
  - rewrite vec_set_Some by lia.
    eexists. split; [reflexivity|]. split; [|split; [|split]].
    + apply fill_hole_is_heap; auto; lia.
    + reflexivity.
    + apply length_insert.
    + intros j Hj. apply list_lookup_insert_ne. lia.
Qed.

Lemma __adjust_heap_body_spec first len hole :
  hole < (len - 1) / 2 -> len <= length first ->
  heap_except comp first len hole ->
  hole_bridged comp first len hole ->
  exists first' h',
    StdHeap.__adjust_heap_body comp first hole hole = Some (first', h', h')
    /\ hole < h' < len
    /\ length first' = length first
    /\ (forall j, len <= j -> first' !! j = first !! j)
    /\ heap_except comp first' len h'
    /\ hole_bridged comp first' len h'
    /\ (forall value, <[h':=value]> first' ≡ₚ <[hole:=value]> first).
Proof.
  intros Hh Hlen He Hb. unfold StdHeap.__adjust_heap_body.
  destruct (lookup_lt_is_Some_2 first (2 * (hole + 1))) as [r Hr]; [lia|].
  destruct (lookup_lt_is_Some_2 first (2 * (hole + 1) - 1)) as [l Hl]; [lia|].
  rewrite Hr, Hl. simpl.
  set (h' := if comp r l then 2 * (hole + 1) - 1 else 2 * (hole + 1)).
  set (x := if comp r l then l else r).
  assert (Hx : first !! h' = Some x).
  { subst h' x. destruct (comp r l); assumption. }
  assert (Hh' : h' = 2 * (hole + 1) - 1 \/ h' = 2 * (hole + 1)).
  { subst h'. destruct (comp r l); auto. }
  (* the child that stays below is at most the one that moves up *)
  assert (Hother : forall i y, 0 < i -> (i - 1) / 2 = hole -> i <> h' ->
                               first !! i = Some y -> comp x y = false).
  { intros i y Hi Hpar Hne Hy. subst h' x.
    destruct (comp r l) eqn:Hcmp.
    - assert (i = 2 * (hole + 1)) as -> by lia.
      assert (y = r) as -> by congruence. auto.
    - assert (i = 2 * (hole + 1) - 1) as -> by lia.
      assert (y = l) as -> by congruence. assumption. }
  clearbody h' x.
  rewrite Hx. simpl. rewrite vec_set_Some by lia. simpl.
  exists (<[hole:=x]> first), h'.
  split; [reflexivity|]. split; [lia|]. split; [apply length_insert|].
  split; [intros j Hj; apply list_lookup_insert_ne; lia|].
  split; [|split].
  - intros i y q Hi Hne1 Hne2 Hy Hq.
    destruct (decide (i = hole)) as [->|Hne].
    + lookup_insert_in Hy. lookup_insert_in Hq.
      apply (Hb ltac:(lia) q Hq h' x); auto; lia.
    + lookup_insert_in Hy.
      destruct (decide ((i - 1) / 2 = hole)) as [Heq|Hne'].
      * rewrite Heq in Hq. lookup_insert_in Hq. apply (Hother i y); auto; lia.
      * lookup_insert_in Hq. eapply He; eauto.
  - intros Hpos g Hg.
    replace ((h' - 1) / 2) with hole in Hg by lia.
    lookup_insert_in Hg.
    intros i y Hi Hpar Hy. lookup_insert_in Hy.
    apply (He i y x); auto; try lia. rewrite Hpar. assumption.
  - intros value. apply insert_move_perm; auto; lia.
Qed.

Lemma __adjust_heap_loop_spec len n :
  forall first hole, (len - 1) / 2 - hole <= n ->
  hole < len -> len <= length first ->
  heap_except comp first len hole ->
  hole_bridged comp first len hole ->
  exists first' h',
    StdHeap.__adjust_heap_loop comp first hole hole len = Some (first', h', h')
    /\ hole <= h' < len /\ ~ h' < (len - 1) / 2
    /\ length first' = length first
    /\ (forall j, len <= j -> first' !! j = first !! j)
    /\ heap_except comp first' len h'
    /\ hole_bridged comp first' len h'
    /\ (forall value, <[h':=value]> first' ≡ₚ <[hole:=value]> first).
Proof.
  induction n as [|n IH]; intros first hole Hn Hh Hlen He Hb;
    rewrite __adjust_heap_loop_unfold;
    (destruct (decide (hole < (len - 1) / 2)) as [Hlt|Hge];
     [|exists first, hole; repeat split; auto; lia]).
  - lia.
  - destruct (__adjust_heap_body_spec first len hole Hlt Hlen He Hb)
      as (first1 & h1 & Hbody & Hh1 & Hlen1 & Htail1 & He1 & Hb1 & Hperm1).
    rewrite Hbody. simpl.
    destruct (IH first1 h1 ltac:(lia) ltac:(lia) ltac:(lia) He1 Hb1)
      as (first2 & h2 & Hrun & Hh2 & Hstop & Hlen2 & Htail2 & He2 & Hb2 & Hperm2).
    exists first2, h2. split; [assumption|].
    split; [lia|]. split; [assumption|]. split; [lia|].
    split; [intros j Hj; rewrite Htail2, Htail1 by assumption; reflexivity|].
    split; [assumption|]. split; [assumption|].
    intros value. rewrite Hperm2. apply Hperm1.
Qed.

Lemma last_child_alone_iff sc len :
  Nat.even len && (Z.of_nat sc =? (Z.of_nat len - 2) ÷ 2)%Z = true
  <-> 2 * (sc + 1) = len.
Proof.
  rewrite andb_true_iff, Nat.even_spec, Z.eqb_eq.
  split.
  - intros [[k ->] H]. destruct k as [|k]; [simpl in H; lia|].
    rewrite Z.quot_div_nonneg in H by lia. lia.
  - intros <-. split; [exists (sc + 1); lia|].
    rewrite Z.quot_div_nonneg by lia. lia.
Qed.

(** A hole without children is ready for [__push_heap]. *)
Lemma leaf_children_le first len hole y :
  len <= 2 * hole + 1 -> children_le comp first len hole y.
Proof. intros Hleaf i x Hi Hpar _. lia. Qed.

Lemma __adjust_heap_spec first len value :
  0 < len -> len <= length first ->
  is_heap_until comp first len ->
  exists first',
    StdHeap.__adjust_heap comp first 0 len value = Some first'
    /\ is_heap_until comp first' len
    /\ first' ≡ₚ <[0:=value]> first
    /\ length first' = length first
    /\ (forall j, len <= j -> first' !! j = first !! j).
Proof.
  intros Hpos Hlen Hheap. unfold StdHeap.__adjust_heap.
  assert (He : heap_except comp first len 0).
  { intros i x p Hi _ _. apply Hheap. assumption. }
  assert (Hb : hole_bridged comp first len 0) by (intros ?; lia).
  destruct (__adjust_heap_loop_spec len _ first 0 (le_n _) Hpos Hlen He Hb)
    as (first1 & h1 & Hrun & Hh1 & Hstop & Hlen1 & Htail1 & He1 & Hb1 & Hperm1).
  rewrite Hrun. simpl.
  destruct (Nat.even len && (Z.of_nat h1 =? (Z.of_nat len - 2) ÷ 2)%Z) eqn:Hlast.
  - apply last_child_alone_iff in Hlast.
    destruct (lookup_lt_is_Some_2 first1 (2 * (h1 + 1) - 1)) as [x Hx]; [lia|].
    rewrite Hx. simpl. rewrite vec_set_Some by lia. simpl.
    set (h2 := 2 * (h1 + 1) - 1).
    destruct (__push_heap_spec len value h2 (<[h1:=x]> first1))
      as (first2 & Hpush & Hheap2 & Hperm2 & Hlen2 & Htail2).
    + lia.
    + rewrite length_insert. lia.
    + intros i y q Hi Hne1 Hne2 Hy Hq.
      destruct (decide (i = h1)) as [->|Hne].
      * lookup_insert_in Hy. lookup_insert_in Hq.
        apply (Hb1 ltac:(lia) q Hq h2 x); auto; lia.
      * lookup_insert_in Hy.
        destruct (decide ((i - 1) / 2 = h1)) as [Heq|Hne']; [lia|].
        lookup_insert_in Hq. eapply He1; eauto.
    + apply leaf_children_le. lia.
    + intros _ g _. apply leaf_children_le. lia.
    + exists first2. split; [assumption|]. split; [assumption|].
      split; [|split].
      * rewrite Hperm2, <- Hperm1. apply insert_move_perm; auto; lia.
      * rewrite Hlen2, length_insert. assumption.
      * intros j Hj. rewrite Htail2 by assumption.
        rewrite list_lookup_insert_ne by lia. auto.
  - assert (Hleaf : len <= 2 * h1 + 1).
    { destruct (decide (2 * (h1 + 1) = len)) as [Heq|Hne]; [|lia].
      apply last_child_alone_iff in Heq. congruence. }
    assert (Hc1 : children_le comp first1 len h1 value)
      by (apply leaf_children_le; assumption).
    assert (Hb1' : hole_bridged comp first1 len h1)
      by (intros _ g _; apply leaf_children_le; assumption).
    destruct (__push_heap_spec len value h1 first1
                ltac:(lia) ltac:(lia) He1 Hc1 Hb1')
      as (first2 & Hpush & Hheap2 & Hperm2 & Hlen2 & Htail2).
    exists first2. simpl. split; [assumption|]. split; [assumption|].
    split; [|split].
    + rewrite Hperm2. apply Hperm1.
    + lia.
    + intros j Hj. rewrite Htail2 by assumption. auto.
Qed.

(** ** The priority queue *)

Lemma is_heap_nil : is_heap_until comp [] 0.
Proof. intros i x p Hi. lia. Qed.

(** The front of a heap is not less than any element. *)
Lemma is_heap_top_max c t :
  is_heap_until comp c (length c) -> c !! 0 = Some t ->
  forall x, x ∈ c -> comp t x = false.
Proof.
  intros Hheap Ht x Hx.
  apply list_elem_of_lookup_1 in Hx as [i Hi]. revert x Hi.
  induction i as [i IH] using lt_wf_ind. intros x Hi.
  destruct (decide (i = 0)) as [->|Hpos].
  - assert (x = t) as -> by congruence. apply comp_irrefl.
  - pose proof (lookup_lt_Some _ _ _ Hi) as Hlt.
    destruct (lookup_lt_is_Some_2 c ((i - 1) / 2)) as [p Hp]; [lia|].
    apply (comp_negtrans _ p).
    + apply (IH ((i - 1) / 2)); [lia|assumption].
    + apply (Hheap i x p); auto. lia.
Qed.

Lemma PriorityQueue_push_spec c x :
  is_heap_until comp c (length c) ->
  exists c',
    PriorityQueue.push comp c x = Some c'
    /\ is_heap_until comp c' (length c')
    /\ c' ≡ₚ x :: c.
Proof.
  intros Hheap. unfold PriorityQueue.push, StdHeap.push_heap.
  rewrite length_app. simpl.
  replace (length c + 1 - 1) with (length c) by lia.
  assert (Hx : (c ++ [x]) !! length c = Some x) by apply list_lookup_middle, eq_refl.
  rewrite Hx. simpl.
  assert (He : heap_except comp (c ++ [x]) (length c + 1) (length c)).
  { intros i y p Hi Hne _ Hy Hp.
    rewrite lookup_app_l in Hy, Hp by lia. apply (Hheap i y p); auto; lia. }
  assert (Hc : forall y, children_le comp (c ++ [x]) (length c + 1) (length c) y)
    by (intros y; apply leaf_children_le; lia).
  destruct (__push_heap_spec (length c + 1) x (length c) (c ++ [x]))
    as (c' & Hrun & Hheap' & Hperm & Hlen & _).
  - lia.
  - rewrite length_app. simpl. lia.
  - assumption.
  - apply Hc.
  - intros _ g _. apply Hc.
  - exists c'. split; [assumption|]. split.
    + rewrite Hlen, length_app. assumption.
    + rewrite Hperm, list_insert_id by assumption.
      symmetry. apply Permutation_cons_append.
Qed.

Lemma PriorityQueue_pop_spec c t :
  is_heap_until comp c (length c) -> c !! 0 = Some t ->
  exists c',
    PriorityQueue.pop comp c = Some c'
    /\ is_heap_until comp c' (length c')
    /\ c ≡ₚ t :: c'.
Proof.
  intros Hheap Ht. unfold PriorityQueue.pop, StdHeap.pop_heap.
  pose proof (lookup_lt_Some _ _ _ Ht) as Hne.
  destruct (decide (1 < length c)) as [Hbig|Hone].
  - unfold StdHeap.__pop_heap.
    destruct (lookup_lt_is_Some_2 c (length c - 1)) as [v Hv]; [lia|].
    rewrite Hv, Ht. simpl. rewrite vec_set_Some by lia. simpl.
    destruct (__adjust_heap_spec (<[length c - 1:=t]> c) (length c - 1) v)
      as (c2 & Hrun & Hheap2 & Hperm & Hlen & Htail).
    + lia.
    + rewrite length_insert. lia.
    + intros i x p Hi Hx Hp.
      rewrite list_lookup_insert_ne in Hx, Hp by lia.
      apply (Hheap i x p); auto; lia.
    + rewrite Hrun. simpl. rewrite length_insert in Hlen.
      assert (Hlast : c2 !! (length c - 1) = Some t).
      { rewrite Htail by lia. apply list_lookup_insert_eq. lia. }
      assert (Hc2 : c2 = take (length c - 1) c2 ++ [t]).
      { rewrite <- (take_drop (length c - 1) c2) at 1. f_equal.
        rewrite (drop_S _ _ _ Hlast), drop_ge by lia. reflexivity. }
      unfold pop_back. destruct c2 as [|y c2']; [simpl in Hlen; lia|].
      rewrite Hlen. eexists. split; [reflexivity|].
      set (c2 := y :: c2') in *. split.
      * rewrite length_take_le by lia.
        intros i x p Hi Hx Hp.
        rewrite lookup_take_lt in Hx, Hp by lia.
        apply (Hheap2 i x p); auto.
      * rewrite Permutation_cons_append, <- Hc2, Hperm.
        rewrite (insert_move_perm c (length c - 1) 0 t v) by (auto; lia).
        rewrite list_insert_id by assumption. reflexivity.
  - simpl. destruct c as [|y [|z c]]; simpl in *; try lia.
    injection Ht as ->. eexists. split; [reflexivity|].
    split; [apply is_heap_nil|reflexivity].
Qed.

End HeapProofs.

(** ** The work queue *)

Section WorkQueueProofs.
Context {T : Type}.
Implicit Types (q : list (WorkItem T)) (w x : WorkItem T).

Lemma WorkItem_lt_asym w x : WorkItem_lt w x = true -> WorkItem_lt x w = false.
Proof. unfold WorkItem_lt. lia. Qed.

Lemma WorkItem_lt_negtrans w x y :
  WorkItem_lt w x = false -> WorkItem_lt x y = false -> WorkItem_lt w y = false.
Proof. unfold WorkItem_lt. lia. Qed.

Lemma WorkItem_lt_false w x :
  WorkItem_lt w x = false <-> (priority x <= priority w)%Z.
Proof. unfold WorkItem_lt. lia. Qed.

Lemma empty_true_iff q : WorkQueue.empty q = true <-> q = [].
Proof. destruct q; simpl; split; congruence. Qed.

Lemma empty_false_iff q : WorkQueue.empty q = false <-> q <> [].
Proof. destruct q; simpl; split; congruence. Qed.

(** *** FIFO strategy *)

Lemma fifo_push q x : WorkQueue.push false q x = Some (q ++ [x]).
Proof. reflexivity. Qed.

Lemma fifo_pop_cons w q : WorkQueue.pop false (w :: q) = Some (w, q).
Proof. reflexivity. Qed.

Lemma pop_nil (E : bool) : WorkQueue.pop (T:=T) E [] = None.
Proof. destruct E; reflexivity. Qed.

Lemma fifo_push_all q items :
  WorkQueue.push_all false q items = Some (q ++ items).
Proof.
  revert q. induction items as [|w items IH]; intros q; simpl.
  - by rewrite app_nil_r.
  - rewrite IH, <- app_assoc. reflexivity.
Qed.

Lemma fifo_pop_n items q :
  WorkQueue.pop_n false (length items) (items ++ q) = Some (items, q).
Proof.
  induction items as [|w items IH]; simpl; [reflexivity|].
  rewrite IH. reflexivity.
Qed.

(** *** Priority strategy *)

Lemma built_is_heap q :
  WorkQueue.built true q -> is_heap_until WorkItem_lt q (length q).
Proof.
  induction 1 as [|q x q' _ IH Hpush|q x q' _ IH Hpop].
  - apply is_heap_nil.
  - destruct (PriorityQueue_push_spec WorkItem_lt WorkItem_lt_asym
                WorkItem_lt_negtrans q x IH) as (c' & Hc' & Hheap & _).
    simpl in Hpush. assert (q' = c') as -> by congruence. assumption.
  - unfold WorkQueue.pop in Hpop. simpl in Hpop.
    destruct (PriorityQueue.top q) as [t|] eqn:Ht; [|discriminate].
    destruct (PriorityQueue_pop_spec WorkItem_lt WorkItem_lt_asym
                WorkItem_lt_negtrans q t IH Ht) as (c' & Hc' & Hheap & _).
    simpl in Hpop. rewrite Hc' in Hpop. simpl in Hpop.
    assert (q' = c') as -> by congruence. assumption.
Qed.

Lemma priority_pop_spec q :
  WorkQueue.built true q -> q <> [] ->
  exists w q',
    WorkQueue.pop true q = Some (w, q')
    /\ q ≡ₚ w :: q'
    /\ forall x, x ∈ q -> (priority x <= priority w)%Z.
Proof.
  intros Hb Hne. pose proof (built_is_heap q Hb) as Hheap.
  destruct q as [|t q0]; [congruence|]. set (q := t :: q0) in *.
  assert (Ht : q !! 0 = Some t) by reflexivity.
  destruct (PriorityQueue_pop_spec WorkItem_lt WorkItem_lt_asym
              WorkItem_lt_negtrans q t Hheap Ht) as (c' & Hc' & _ & Hperm).
  exists t, c'. split; [|split].
  - unfold WorkQueue.pop, PriorityQueue.top. rewrite Ht. simpl.
    rewrite Hc'. reflexivity.
  - assumption.
  - intros x Hx. apply WorkItem_lt_false.
    eapply is_heap_top_max; eauto using WorkItem_lt_asym, WorkItem_lt_negtrans.
Qed.

(** *** Both strategies *)

Lemma push_spec (E : bool) q x :
  WorkQueue.built E q ->
  exists q', WorkQueue.push E q x = Some q' /\ q' ≡ₚ x :: q.
Proof.
  intros Hb. destruct E.
  - destruct (PriorityQueue_push_spec WorkItem_lt WorkItem_lt_asym
                WorkItem_lt_negtrans q x (built_is_heap q Hb))
      as (c' & Hc' & _ & Hperm).
    exists c'. auto.
  - exists (q ++ [x]). split; [reflexivity|].
    symmetry. apply Permutation_cons_append.
Qed.

Lemma pop_spec (E : bool) q :
  WorkQueue.built E q -> q <> [] ->
  exists w q', WorkQueue.pop E q = Some (w, q') /\ q ≡ₚ w :: q'.
Proof.
  intros Hb Hne. destruct E.
  - destruct (priority_pop_spec q Hb Hne) as (w & q' & Hpop & Hperm & _).
    eauto.
  - destruct q as [|w q']; [congruence|]. exists w, q'. split; reflexivity.
Qed.

Lemma pop_Some_nonempty (E : bool) q w q' :
  WorkQueue.pop E q = Some (w, q') -> q <> [].
Proof. intros H ->. rewrite pop_nil in H. discriminate. Qed.

Lemma pop_perm (E : bool) q w q' :
  WorkQueue.built E q -> WorkQueue.pop E q = Some (w, q') -> q ≡ₚ w :: q'.
Proof.
  intros Hb Hpop.
  destruct (pop_spec E q Hb (pop_Some_nonempty _ _ _ _ Hpop))
    as (w1 & q1 & Hpop1 & Hperm).
  congruence.
Qed.

Lemma push_perm (E : bool) q x q' :
  WorkQueue.built E q -> WorkQueue.push E q x = Some q' -> q' ≡ₚ x :: q.
Proof.
  intros Hb Hpush. destruct (push_spec E q x Hb) as (q1 & Hpush1 & Hperm).
  congruence.
Qed.

End WorkQueueProofs.

(** ** The submitted closure *)

Section ClosureProofs.
Context {Args V Exn : Type}.
Implicit Types (c : TaskClosure Args V Exn) (h : gmap nat (shared_state V Exn)).

(** On a promise that is not ready the closure stores the outcome of the
    callable, touches nothing else, and lets no exception out. *)
Lemma TaskClosure_call_not_ready c h :
  h !! closure_promise c = Some not_ready ->
  TaskClosure_call c h =
    (normal tt,
     <[closure_promise c := recorded (closure_f c (closure_args c))]> h).
Proof.
  intros Hp. unfold TaskClosure_call, try_catch, bind, invoke.
  destruct (closure_f c (closure_args c)) as [v|e]; simpl.
  - unfold set_value. rewrite Hp. reflexivity.
  - unfold throw, set_exception. rewrite Hp. reflexivity.
Qed.

(** A state that is ready is never written again. *)
Lemma set_value_ready p v h s :
  h !! p = Some s -> s <> not_ready ->
  set_value p v h = (throws (future_error promise_already_satisfied), h).
Proof.
  intros Hp Hs. unfold set_value. rewrite Hp. destruct s; congruence.
Qed.

Lemma set_exception_ready p e h s :
  h !! p = Some s -> s <> not_ready ->
  set_exception p e h = (throws (future_error promise_already_satisfied), h).
Proof.
  intros Hp Hs. unfold set_exception. rewrite Hp. destruct s; congruence.
Qed.

Lemma TaskClosure_call_keeps c h p s :
  h !! p = Some s -> s <> not_ready ->
  (TaskClosure_call c h).2 !! p = Some s.
Proof.
  intros Hp Hs.
  destruct (h !! closure_promise c) as [s'|] eqn:Hc.
  - assert (s' = not_ready \/ s' <> not_ready) as [->|Hs']
      by (destruct s'; auto; right; discriminate).
    + rewrite TaskClosure_call_not_ready by assumption. simpl.
      rewrite lookup_insert_ne; [assumption|]. intros Heq. congruence.
    + unfold TaskClosure_call, try_catch, bind, invoke.
      destruct (closure_f c (closure_args c)) as [v|e]; simpl.
      * rewrite (set_value_ready _ _ _ _ Hc Hs').
        rewrite (set_exception_ready _ _ _ _ Hc Hs'). assumption.
      * unfold throw. rewrite (set_exception_ready _ _ _ _ Hc Hs'). assumption.
  - unfold TaskClosure_call, try_catch, bind, invoke, throw, set_value,
      set_exception.
    destruct (closure_f c (closure_args c)) as [v|e]; simpl;
      rewrite ?Hc; simpl; rewrite ?Hc; assumption.
Qed.

Lemma future_get_recorded p h (o : Outcome V Exn) :
  h !! p = Some (recorded o) ->
  future_get (mkFuture p true) h = Some (delivered o, mkFuture p false).
Proof. intros Hp. unfold future_get. simpl. rewrite Hp. destruct o; reflexivity. Qed.

Lemma future_get_not_ready p h :
  h !! p = Some not_ready -> future_get (V:=V) (Exn:=Exn) (mkFuture p true) h = None.
Proof. intros Hp. unfold future_get. simpl. rewrite Hp. reflexivity. Qed.

End ClosureProofs.

(** ** Bookkeeping over the vector of workers *)

Section ThreadsLemmas.
Context {Args V Exn : Type}.
Implicit Types (ts : list (WorkerPC (TaskClosure Args V Exn))).

Lemma counted_range (pc : WorkerPC (TaskClosure Args V Exn)) :
  (0 <= counted pc <= 1)%Z.
Proof. destruct pc; simpl; lia. Qed.

Lemma counted_total_range ts :
  (0 <= counted_total ts <= Z.of_nat (length ts))%Z.
Proof.
  induction ts as [|pc ts IH]; simpl; [lia|].
  pose proof (counted_range pc). lia.
Qed.

Lemma counted_total_insert ts i pc pc' :
  ts !! i = Some pc ->
  counted_total (<[i:=pc']> ts)
  = (counted_total ts - counted pc + counted pc')%Z.
Proof.
  revert i. induction ts as [|x ts IH]; intros [|i] H; simpl in *;
    try discriminate.
  - injection H as ->. lia.
  - rewrite (IH i H). lia.
Qed.

Lemma held_insert_perm ts i pc pc' :
  ts !! i = Some pc ->
  flat_map held (<[i:=pc']> ts) ++ held pc ≡ₚ held pc' ++ flat_map held ts.
Proof.
  revert i. induction ts as [|x ts IH]; intros [|i] H; simpl in *;
    try discriminate.
  - injection H as ->. rewrite <- app_assoc. f_equiv.
    apply Permutation_app_comm.
  - rewrite <- app_assoc, (IH i H).
    rewrite !app_assoc. f_equiv. apply Permutation_app_comm.
Qed.

Lemma held_insert_same ts i pc pc' :
  ts !! i = Some pc -> held pc' = held pc ->
  flat_map held (<[i:=pc']> ts) = flat_map held ts.
Proof.
  revert i. induction ts as [|x ts IH]; intros [|i] H Heq; simpl in *;
    try discriminate.
  - injection H as ->. by rewrite Heq.
  - by rewrite (IH i H Heq).
Qed.

End ThreadsLemmas.

(** ** Runs of small pools *)

(** One worker, no priorities: the first submission is run first and its
    value is in the shared state of its future. *)
Example fifo_pool_runs_first_submission :
  threads (pool_after false 1 two_then_run) = [AtLock]
  /\ promises (pool_after false 1 two_then_run) !! 0 = Some (has_value 7%Z)
  /\ promises (pool_after false 1 two_then_run) !! 1 = Some not_ready
  /\ tasks_running (pool_after false 1 two_then_run) = 1%Z.
Proof. vm_compute. repeat split; reflexivity. Qed.

(** One worker, priorities 1 then 5: the worker takes the task of
    priority 5. *)
Example priority_pool_takes_high_first :
  threads (pool_after true 1 low_then_high)
  = [Executing (mkWorkItem (mkTaskClosure raises_boom tt 1) 5%Z)]
  /\ work_queue (pool_after true 1 low_then_high)
     = [mkWorkItem (mkTaskClosure returns_seven tt 0) 1%Z].
Proof. vm_compute. split; reflexivity. Qed.

(** A worker cannot take the mutex while another holds it. *)
Example mutex_excludes :
  worker_step true 1 at_the_pop = None
  /\ get_tasks_running at_the_pop = None
  /\ submit_task true returns_seven tt at_the_pop = None.
Proof. vm_compute. repeat split; reflexivity. Qed.

(** ** The invariant *)

Section PoolProofs.
Context {Args V Exn : Type} (E : bool).
Implicit Types (p : ThreadPool Args V Exn)
  (ts : list (WorkerPC (TaskClosure Args V Exn)))
  (pc : WorkerPC (TaskClosure Args V Exn)).

Lemma owner_unique ts m i j pci pcj :
  owner_inv ts m ->
  ts !! i = Some pci -> holds_lock pci = true ->
  ts !! j = Some pcj -> holds_lock pcj = true -> i = j.
Proof.
  intros Ho Hi Hli Hj Hlj.
  assert (m = Some i) by (apply Ho; eauto).
  assert (m = Some j) by (apply Ho; eauto).
  congruence.
Qed.

Lemma owner_free ts j pc :
  owner_inv ts None -> ts !! j = Some pc -> holds_lock pc = false.
Proof.
  intros Ho Hj. destruct (holds_lock pc) eqn:Hl; [|reflexivity].
  assert (None = Some j) by (apply Ho; eauto). discriminate.
Qed.

Lemma owner_step ts m i pc pc' m' :
  owner_inv ts m -> ts !! i = Some pc ->
  (holds_lock pc' = true ->
     m' = Some i /\ (holds_lock pc = true \/ m = None)) ->
  (holds_lock pc' = false -> holds_lock pc = true -> m' = None) ->
  (holds_lock pc' = false -> holds_lock pc = false -> m' = m) ->
  owner_inv (<[i:=pc']> ts) m'.
Proof.
  intros Ho Hi Hacq Hrel Hkeep j.
  pose proof (lookup_lt_Some _ _ _ Hi) as Hlt.
  assert (Hother : forall pcj, i <> j -> ts !! j = Some pcj ->
            holds_lock pcj = true -> holds_lock pc = false /\ m = Some j).
  { intros pcj Hne Hj Hlj. assert (Hm : m = Some j) by (apply Ho; eauto).
    split; [|assumption].
    destruct (holds_lock pc) eqn:Hl; [|reflexivity].
    exfalso. apply Hne. eapply owner_unique; eauto. }
  split.
  - intros ->.
    destruct (decide (i = j)) as [<-|Hne].
    + exists pc'. split; [apply list_lookup_insert_eq; assumption|].
      destruct (holds_lock pc') eqn:Hl'; [reflexivity|].
      destruct (holds_lock pc) eqn:Hl.
      * specialize (Hrel eq_refl eq_refl). discriminate.
      * specialize (Hkeep eq_refl eq_refl).
        symmetry in Hkeep. apply Ho in Hkeep as (pc0 & Hpc0 & Hl0). congruence.
    + destruct (holds_lock pc') eqn:Hl'.
      * destruct (Hacq eq_refl) as [Hm _]. congruence.
      * destruct (holds_lock pc) eqn:Hl.
        -- specialize (Hrel eq_refl eq_refl). discriminate.
        -- specialize (Hkeep eq_refl eq_refl).
           symmetry in Hkeep. apply Ho in Hkeep as (pcj & Hpcj & Hlj).
           exists pcj. rewrite list_lookup_insert_ne by assumption. auto.
  - intros (pcj & Hj & Hlj).
    apply list_lookup_insert_Some in Hj as [(<- & <- & _)|(Hne & Hj)].
    + apply Hacq. assumption.
    + destruct (Hother pcj Hne Hj Hlj) as [Hl Hm].
      destruct (holds_lock pc') eqn:Hl'.
      * destruct (Hacq eq_refl) as [_ [?|?]]; congruence.
      * rewrite (Hkeep eq_refl Hl). assumption.
Qed.

Lemma counted_total_replicate n :
  counted_total (replicate n (@AtLock (TaskClosure Args V Exn))) = Z.of_nat n.
Proof. induction n as [|n IH]; simpl; [reflexivity|]. rewrite IH. lia. Qed.

Lemma held_replicate n :
  flat_map held (replicate n (@AtLock (TaskClosure Args V Exn))) = [].
Proof. induction n as [|n IH]; simpl; auto. Qed.

Lemma pool_inv_new n :
  (0 <= n <= size_max)%Z ->
  pool_inv E (ThreadPool_new n : ThreadPool Args V Exn).
Proof.
  intros Hn. constructor; simpl.
  - split; [assumption|apply length_replicate].
  - intros i. split; [discriminate|].
    intros (pc & Hpc & Hl). apply lookup_replicate in Hpc as [-> _].
    discriminate.
  - intros i Hpc. apply lookup_replicate in Hpc as [? _]. discriminate.
  - intros i Hpc. apply lookup_replicate in Hpc as [? _]. discriminate.
  - constructor.
  - rewrite counted_total_replicate. lia.
  - unfold pending. simpl. rewrite held_replicate. constructor.
  - unfold pending. simpl. rewrite held_replicate.
    intros w Hw. apply elem_of_nil in Hw. contradiction.
  - intros i pc Hpc. apply lookup_replicate in Hpc as [-> _].
    split; discriminate.
Qed.

Lemma counted_le_total ts i pc :
  ts !! i = Some pc -> (counted pc <= counted_total ts)%Z.
Proof.
  intros Hpc.
  pose proof (counted_total_range (<[i:=Stopped]> ts)) as H.
  rewrite (counted_total_insert _ _ _ _ Hpc) in H. simpl in H. lia.
Qed.

Lemma counted_insert_le ts i pc pc' :
  ts !! i = Some pc ->
  (counted_total ts - counted pc + counted pc' <= Z.of_nat (length ts))%Z.
Proof.
  intros Hpc.
  pose proof (counted_total_range (<[i:=pc']> ts)) as H.
  rewrite (counted_total_insert _ _ _ _ Hpc), length_insert in H. lia.
Qed.

(** The goals of a step that only moves worker [i] from one control point
    to another. *)
Ltac other_threads Hexcl :=
  let j := fresh "j" in let Hj := fresh "Hj" in let Hne := fresh "Hne" in
  intros j Hj;
  apply list_lookup_insert_Some in Hj as [(<- & Hj & _)|(Hne & Hj)];
  [try discriminate
  |try solve [eauto | exfalso; apply Hne; eapply Hexcl; eauto]].

Ltac count_goal Hpc :=
  match goal with
  | |- _ = counted_total (<[_:=?pc']> ?ts) =>
      pose proof (counted_le_total _ _ _ Hpc);
      pose proof (counted_insert_le _ _ _ pc' Hpc);
      pose proof (counted_total_range ts);
      rewrite (counted_total_insert _ _ _ _ Hpc)
  end;
  unfold size_dec, size_inc, size_max in *; simpl in *;
  rewrite ?Z.mod_small by lia; lia.

Ltac alive_goal Halive :=
  let j := fresh "j" in let pcj := fresh "pcj" in let Hj := fresh "Hj" in
  intros j pcj Hj;
  apply list_lookup_insert_Some in Hj as [(_ & <- & _)|(_ & Hj)];
  [split; discriminate|eauto].

Ltac moved Hpc Hexcl Halive :=
  constructor; unfold pending; simpl;
  [ try solve [rewrite length_insert; assumption]
  | try solve [eapply owner_step; [eassumption|eassumption|simpl..];
               intros; try discriminate; auto]
  | try solve [other_threads Hexcl]
  | try solve [other_threads Hexcl]
  | try assumption
  | try solve [count_goal Hpc]
  | try solve [rewrite (held_insert_same _ _ _ _ Hpc) by reflexivity; assumption]
  | try solve [rewrite (held_insert_same _ _ _ _ Hpc) by reflexivity; assumption]
  | try solve [alive_goal Halive] ].

Lemma worker_step_inv i p p' :
  pool_inv E p -> worker_step E i p = Some p' -> pool_inv E p'.
Proof.
  intros Hinv Hstep. unfold worker_step in Hstep.
  destruct (threads p !! i) as [pc|] eqn:Hpc; simpl in Hstep; [|discriminate].
  pose proof (lookup_lt_Some _ _ _ Hpc) as Hlt.
  destruct Hinv as [Hsize Hown Hcheck Hpop Hq Hcount Hfresh Hnr Halive].
  assert (Hm : holds_lock pc = true -> queue_mutex p = Some i)
    by (intros; apply Hown; eauto).
  assert (Hexcl : forall j pcj, threads p !! j = Some pcj ->
            holds_lock pc = true -> holds_lock pcj = true -> i = j)
    by (intros; eapply owner_unique; eauto).
  unfold pending in *.
  destruct p as [n ts q m st tr h]; simpl in *.
  destruct pc; simpl in *; try discriminate.
  - (* AtLock *)
    destruct m; [discriminate|]. injection Hstep as <-.
    moved Hpc Hexcl Halive.
  - (* AtDecrement *)
    injection Hstep as <-. moved Hpc Hexcl Halive.
  - (* AtWait *)
    destruct (st || negb (WorkQueue.empty q)) eqn:Hpred;
      injection Hstep as <-; moved Hpc Hexcl Halive.
    other_threads Hexcl.
    apply orb_true_iff in Hpred as [?|Hne]; [auto|right].
    apply negb_true_iff, empty_false_iff in Hne. assumption.
  - (* Waiting *)
    destruct m; [discriminate|]. injection Hstep as <-.
    moved Hpc Hexcl Halive.
  - (* AtStopCheck *)
    destruct st eqn:Hst; injection Hstep as <-; moved Hpc Hexcl Halive.
    other_threads Hexcl.
    destruct (Hcheck _ Hpc); [discriminate|auto].
  - (* AtPop *)
    destruct (Hpop _ Hpc) as [Hst Hne].
    destruct (pop_spec E q Hq Hne) as (w & q' & Hpopq & Hperm).
    rewrite Hpopq in Hstep. injection Hstep as <-.
    assert (Hpend : q' ++ flat_map held (<[i:=AtIncrement w]> ts)
                    ≡ₚ q ++ flat_map held ts).
    { pose proof (held_insert_perm ts i AtPop (AtIncrement w) Hpc) as Hh.
      simpl in Hh. rewrite app_nil_r in Hh. rewrite Hh, Hperm.
      simpl. symmetry. apply Permutation_middle. }
    moved Hpc Hexcl Halive.
    + eapply WorkQueue.built_pop; eauto.
    + rewrite Hpend. assumption.
    + intros w' Hw'. apply Hnr. rewrite <- Hpend. assumption.
  - (* AtIncrement *)
    injection Hstep as <-. moved Hpc Hexcl Halive.
  - (* AtUnlock *)
    injection Hstep as <-. moved Hpc Hexcl Halive.
  - (* Executing *)
    assert (Hw : h !! promise_of work_item = Some not_ready).
    { apply Hnr. apply elem_of_app. right.
      apply list_elem_of_In, in_flat_map. exists (Executing work_item).
      split; [apply list_elem_of_In; eapply list_elem_of_lookup_2; eauto|].
      simpl. auto. }
    rewrite TaskClosure_call_not_ready in Hstep by assumption.
    injection Hstep as <-.
    pose proof (held_insert_perm ts i (Executing work_item) AtLock Hpc) as Hh.
    simpl in Hh.
    assert (Hpend : q ++ flat_map held ts
                    ≡ₚ work_item :: q ++ flat_map held (<[i:=AtLock]> ts)).
    { rewrite <- Hh, app_assoc. symmetry. apply Permutation_cons_append. }
    rewrite Hpend in Hfresh. simpl in Hfresh.
    apply NoDup_cons in Hfresh as [Hnotin Hfresh].
    moved Hpc Hexcl Halive; [assumption|].
    intros w' Hw'. rewrite lookup_insert_ne.
    + apply Hnr. rewrite Hpend. apply elem_of_cons. auto.
    + intros Heq. apply Hnotin.
      change (closure_promise (task work_item)) with (promise_of work_item) in Heq.
      rewrite Heq. apply (list_elem_of_fmap_2 promise_of). assumption.
Qed.

Lemma submit_task_helper_inv priority f args p fut p' :
  pool_inv E p ->
  submit_task_helper E priority f args p = Some (fut, p') ->
  pool_inv E p'.
Proof.
  intros Hinv Hsub. unfold submit_task_helper in Hsub.
  destruct Hinv as [Hsize Hown Hcheck Hpop Hq Hcount Hfresh Hnr Halive].
  unfold pending in *.
  destruct p as [n ts q m st tr h]; simpl in *.
  destruct m; [discriminate|].
  set (pr := fresh (dom h)) in *.
  set (x := mkWorkItem (mkTaskClosure f args pr) priority) in *.
  destruct (WorkQueue.push E q x) as [q'|] eqn:Hpush; [|discriminate].
  simpl in Hsub. injection Hsub as <- <-.
  pose proof (push_perm E q x q' Hq Hpush) as Hperm.
  assert (Hpr : h !! pr = None) by apply not_elem_of_dom, is_fresh.
  assert (Hnew : forall w, w ∈ q ++ flat_map held ts -> promise_of w <> pr).
  { intros w Hw Heq. apply Hnr in Hw. congruence. }
  constructor; unfold pending; simpl; auto.
  - intros i Hi. pose proof (owner_free _ _ _ Hown Hi). discriminate.
  - intros i Hi. pose proof (owner_free _ _ _ Hown Hi). discriminate.
  - eapply WorkQueue.built_push; eauto.
  - rewrite Hperm. simpl. apply NoDup_cons. split; [|assumption].
    intros Hin. apply list_elem_of_fmap in Hin as (w & Heq & Hw).
    apply (Hnew w Hw). symmetry. assumption.
  - intros w Hw. rewrite Hperm in Hw. simpl in Hw.
    apply elem_of_cons in Hw as [->|Hw].
    + apply lookup_insert_eq.
    + rewrite lookup_insert_ne; [auto|]. intros Heq. apply (Hnew w Hw). auto.
Qed.

Lemma exec_inv a p p' : pool_inv E p -> exec E a p = Some p' -> pool_inv E p'.
Proof.
  intros Hinv Hexec. destruct a as [i|f args|priority f args| |]; simpl in Hexec.
  - eapply worker_step_inv; eauto.
  - unfold submit_task in Hexec.
    destruct (submit_task_helper E (to_Priority 0) f args p) as [[fut p1]|] eqn:Hs;
      [|discriminate].
    simpl in Hexec. injection Hexec as <-.
    eapply submit_task_helper_inv; eauto.
  - unfold submit_priority_task, static_assert in Hexec.
    destruct E eqn:HE in Hexec at 1; [|discriminate].
    destruct (submit_task_helper E (to_Priority priority) f args p)
      as [[fut p1]|] eqn:Hs; [|discriminate].
    simpl in Hexec. injection Hexec as <-.
    eapply submit_task_helper_inv; eauto.
  - destruct (get_tasks_running p); [|discriminate].
    simpl in Hexec. injection Hexec as <-. assumption.
  - unfold destroy in Hexec.
    destruct Hinv as [Hsize Hown Hcheck Hpop Hq Hcount Hfresh Hnr Halive].
    unfold pending in *.
    destruct p as [n ts q m st tr h]; simpl in *.
    destruct m; [discriminate|]. injection Hexec as <-.
    constructor; unfold pending; simpl; auto.
    intros i Hi. pose proof (owner_free _ _ _ Hown Hi). discriminate.
Qed.

Lemma run_inv acts : forall p p' trace,
  pool_inv E p -> run E acts p = Some (p', trace) -> pool_inv E p'.
Proof.
  induction acts as [|a acts IH]; intros p p' trace Hinv Hrun; simpl in Hrun.
  - injection Hrun as <- _. assumption.
  - destruct (exec E a p) as [p1|] eqn:Hexec; [|discriminate]. simpl in Hrun.
    destruct (run E acts p1) as [[p2 tr2]|] eqn:Hrun1; [|discriminate].
    simpl in Hrun. injection Hrun as <- _.
    eapply IH; [|eassumption]. eapply exec_inv; eauto.
Qed.

Lemma reachable_inv n p :
  (0 <= n <= size_max)%Z -> reachable E n p -> pool_inv E p.
Proof.
  intros Hn (acts & trace & Hrun).
  eapply run_inv; [|eassumption]. apply pool_inv_new. assumption.
Qed.

Lemma run_app acts1 acts2 p p1 tr1 :
  run E acts1 p = Some (p1, tr1) ->
  run E (acts1 ++ acts2) p =
    '(p2, tr2) ← run E acts2 p1; Some (p2, tr1 ++ tr2).
Proof.
  revert p p1 tr1. induction acts1 as [|a acts1 IH]; intros p p1 tr1 Hrun;
    simpl in *.
  - injection Hrun as <- <-. destruct (run E acts2 p) as [[??]|]; reflexivity.
  - destruct (exec E a p) as [p'|]; [|discriminate]. simpl in *.
    destruct (run E acts1 p') as [[p'' tr'']|] eqn:Hr; [|discriminate].
    simpl in Hrun. injection Hrun as <- <-.
    rewrite (IH _ _ _ Hr).
    destruct (run E acts2 p'') as [[??]|]; reflexivity.
Qed.

Lemma reachable_step n p a p' :
  reachable E n p -> exec E a p = Some p' -> reachable E n p'.
Proof.
  intros (acts & trace & Hrun) Hexec.
  exists (acts ++ [a]), (trace ++ [event_of E a p]).
  rewrite (run_app _ _ _ _ _ Hrun). simpl. rewrite Hexec. reflexivity.
Qed.

End PoolProofs.

(** ** Draining a priority queue *)

Section DrainProofs.
Context {T : Type}.
Implicit Types (q out : list (WorkItem T)) (w x : WorkItem T).

Lemma pop_n_perm (E : bool) k : forall q out q',
  WorkQueue.built E q -> WorkQueue.pop_n E k q = Some (out, q') ->
  q ≡ₚ out ++ q' /\ WorkQueue.built E q'.
Proof.
  induction k as [|k IH]; intros q out q' Hb Hpop; simpl in Hpop.
  - injection Hpop as <- <-. auto.
  - destruct (WorkQueue.pop E q) as [[w q1]|] eqn:Hw; [|discriminate].
    simpl in Hpop.
    destruct (WorkQueue.pop_n E k q1) as [[rest q2]|] eqn:Hrest; [|discriminate].
    simpl in Hpop. injection Hpop as <- <-.
    assert (Hb1 : WorkQueue.built E q1) by (eapply WorkQueue.built_pop; eauto).
    destruct (IH q1 rest q2 Hb1 Hrest) as [Hperm Hb2].
    split; [|assumption].
    rewrite (pop_perm E q w q1 Hb Hw), Hperm. reflexivity.
Qed.

(** What is popped earlier has no lower priority than what is popped
    later. *)
Lemma priority_pop_n_sorted k : forall q out q',
  WorkQueue.built true q -> WorkQueue.pop_n true k q = Some (out, q') ->
  forall i j x y, i < j -> out !! i = Some x -> out !! j = Some y ->
    (priority y <= priority x)%Z.
Proof.
  induction k as [|k IH]; intros q out q' Hb Hpop i j x y Hij Hx Hy;
    simpl in Hpop.
  - injection Hpop as <- <-. discriminate.
  - destruct (WorkQueue.pop true q) as [[w q1]|] eqn:Hw; [|discriminate].
    simpl in Hpop.
    destruct (WorkQueue.pop_n true k q1) as [[rest q2]|] eqn:Hrest; [|discriminate].
    simpl in Hpop. injection Hpop as <- <-.
    assert (Hb1 : WorkQueue.built true q1) by (eapply WorkQueue.built_pop; eauto).
    destruct j as [|j]; [lia|]. simpl in Hy.
    destruct i as [|i]; simpl in Hx.
    + injection Hx as <-.
      destruct (priority_pop_spec q Hb (pop_Some_nonempty _ _ _ _ Hw))
        as (w' & q1' & Hw' & Hperm & Hmax).
      assert (w' = w) as -> by congruence.
      assert (q1' = q1) as -> by congruence.
      apply Hmax. rewrite Hperm. apply elem_of_cons. right.
      destruct (pop_n_perm true k q1 rest q2 Hb1 Hrest) as [Hperm1 _].
      rewrite Hperm1. apply elem_of_app. left.
      eapply list_elem_of_lookup_2; eauto.
    + apply (IH q1 rest q2 Hb1 Hrest i j); auto. lia.
Qed.

End DrainProofs.

(** ** Runs of the pool *)

Section RunProofs.
Context {Args V Exn : Type} (E : bool).
Implicit Types (p : ThreadPool Args V Exn).

(** A recorded outcome stays: no action of any thread writes a state that
    is ready. *)
Lemma exec_keeps_ready a p p' pr s :
  exec E a p = Some p' ->
  promises p !! pr = Some s -> s <> not_ready ->
  promises p' !! pr = Some s.
Proof.
  intros Hexec Hpr Hs.
  assert (Hsub : forall priority f args fut,
            submit_task_helper E priority f args p = Some (fut, p') ->
            promises p' !! pr = Some s).
  { intros priority f args fut Hsub. unfold submit_task_helper in Hsub.
    destruct (queue_mutex p); [discriminate|].
    destruct (WorkQueue.push E _ _); [|discriminate].
    simpl in Hsub. injection Hsub as _ <-. simpl.
    rewrite lookup_insert_ne; [assumption|].
    intros Heq. pose proof (is_fresh (dom (promises p))) as Hfresh.
    apply not_elem_of_dom in Hfresh. congruence. }
  destruct a as [i|f args|priority f args| |]; simpl in Hexec.
  - unfold worker_step in Hexec.
    destruct (threads p !! i) as [pc|]; [|discriminate]. simpl in Hexec.
    destruct pc; simpl in Hexec; try discriminate.
    1-8: repeat match type of Hexec with
        | match ?x with _ => _ end = Some _ => destruct x eqn:?; simpl in Hexec
        | (if ?x then _ else _) = Some _ => destruct x eqn:?; simpl in Hexec
        end; try discriminate; injection Hexec as <-; simpl; assumption.
    destruct (TaskClosure_call (task work_item) (promises p)) as [[x|e] h']
      eqn:Hcall; injection Hexec as <-; simpl;
      replace h' with (TaskClosure_call (task work_item) (promises p)).2
        by (rewrite Hcall; reflexivity);
      apply TaskClosure_call_keeps; assumption.
  - unfold submit_task in Hexec.
    destruct (submit_task_helper E _ f args p) as [[fut p1]|] eqn:Hsubmit;
      [|discriminate].
    simpl in Hexec. injection Hexec as <-. eauto.
  - unfold submit_priority_task, static_assert in Hexec.
    destruct E eqn:HE in Hexec at 1; [|discriminate].
    destruct (submit_task_helper E _ f args p) as [[fut p1]|] eqn:Hsubmit;
      [|discriminate].
    simpl in Hexec. injection Hexec as <-. eauto.
  - destruct (get_tasks_running p); [|discriminate].
    simpl in Hexec. injection Hexec as <-. assumption.
  - unfold destroy in Hexec. destruct (queue_mutex p); [discriminate|].
    injection Hexec as <-. assumption.
Qed.

Lemma run_keeps_ready acts : forall p p' trace pr s,
  run E acts p = Some (p', trace) ->
  promises p !! pr = Some s -> s <> not_ready ->
  promises p' !! pr = Some s.
Proof.
  induction acts as [|a acts IH]; intros p p' trace pr s Hrun Hpr Hs;
    simpl in Hrun.
  - injection Hrun as <- _. assumption.
  - destruct (exec E a p) as [p1|] eqn:Hexec; [|discriminate]. simpl in Hrun.
    destruct (run E acts p1) as [[p2 tr2]|] eqn:Hrun1; [|discriminate].
    simpl in Hrun. injection Hrun as <- _.
    eapply IH; eauto using exec_keeps_ready.
Qed.

End RunProofs.

(** ** Order of submission, dequeuing and execution *)

Section TraceProofs.
Context {Args V Exn : Type}.
Implicit Types (p : ThreadPool Args V Exn).

(** Without priority scheduling one step keeps
    [queue ++ pushed = popped ++ queue']. *)
Lemma exec_fifo_order a p p' :
  exec false a p = Some p' ->
  work_queue p ++ pushed [event_of false a p]
  = popped [event_of false a p] ++ work_queue p'.
Proof.
  intros Hexec.
  assert (Hsub : forall priority f args fut,
            submit_task_helper false priority f args p = Some (fut, p') ->
            work_queue p'
            = work_queue p
              ++ [mkWorkItem (mkTaskClosure f args (fresh (dom (promises p))))
                    priority]).
  { intros priority f args fut Hsub. unfold submit_task_helper in Hsub.
    destruct (queue_mutex p); [discriminate|]. simpl in Hsub.
    injection Hsub as _ <-. reflexivity. }
  destruct a as [i|f args|priority f args| |]; simpl in Hexec.
  - unfold worker_step in Hexec. simpl.
    destruct (threads p !! i) as [pc|]; [|discriminate]. simpl in Hexec.
    destruct pc; simpl in Hexec; try discriminate.
    1-5,7-8: repeat match type of Hexec with
        | match ?x with _ => _ end = Some _ => destruct x eqn:?; simpl in Hexec
        | (if ?x then _ else _) = Some _ => destruct x eqn:?; simpl in Hexec
        end; try discriminate; injection Hexec as <-; simpl;
        rewrite app_nil_r; reflexivity.
    + destruct (work_queue p) as [|w q'] eqn:Hq; simpl in *.
      * injection Hexec as <-. simpl. rewrite Hq. reflexivity.
      * injection Hexec as <-. simpl. rewrite app_nil_r. reflexivity.
    + destruct (TaskClosure_call _ _) as [[x|e] h']; injection Hexec as <-;
        simpl; rewrite app_nil_r; reflexivity.
  - unfold submit_task in Hexec.
    destruct (submit_task_helper false _ f args p) as [[fut p1]|] eqn:Hsubmit;
      [|discriminate].
    simpl in Hexec. injection Hexec as <-. simpl.
    rewrite (Hsub _ _ _ _ Hsubmit). reflexivity.
  - discriminate.
  - destruct (get_tasks_running p); [|discriminate].
    simpl in Hexec. injection Hexec as <-. simpl. apply app_nil_r.
  - unfold destroy in Hexec. destruct (queue_mutex p); [discriminate|].
    injection Hexec as <-. simpl. apply app_nil_r.
Qed.

Lemma pushed_cons e (trace : list (Event Args V Exn)) :
  pushed (e :: trace) = pushed [e] ++ pushed trace.
Proof. unfold pushed. simpl. rewrite app_nil_r. reflexivity. Qed.

Lemma popped_cons e (trace : list (Event Args V Exn)) :
  popped (e :: trace) = popped [e] ++ popped trace.
Proof. unfold popped. simpl. rewrite app_nil_r. reflexivity. Qed.

Lemma started_cons e (trace : list (Event Args V Exn)) :
  started (e :: trace) = started [e] ++ started trace.
Proof. unfold started. simpl. rewrite app_nil_r. reflexivity. Qed.

Lemma run_fifo_order acts : forall p p' trace,
  run false acts p = Some (p', trace) ->
  work_queue p ++ pushed trace = popped trace ++ work_queue p'.
Proof.
  induction acts as [|a acts IH]; intros p p' trace Hrun; simpl in Hrun.
  - injection Hrun as <- <-. simpl. apply app_nil_r.
  - destruct (exec false a p) as [p1|] eqn:Hexec; [|discriminate].
    simpl in Hrun.
    destruct (run false acts p1) as [[p2 tr2]|] eqn:Hrun1; [|discriminate].
    simpl in Hrun. injection Hrun as <- <-.
    rewrite pushed_cons, popped_cons, app_assoc.
    rewrite (exec_fifo_order a p p1 Hexec), <- !app_assoc.
    f_equal. apply IH. assumption.
Qed.

(** With one worker, one step keeps [held ++ popped = started ++ held']. *)
Lemma exec_single_worker (E : bool) a p p' pc :
  threads p = [pc] ->
  exec E a p = Some p' ->
  exists pc', threads p' = [pc']
    /\ held pc ++ popped [event_of E a p]
       = started [event_of E a p] ++ held pc'.
Proof.
  intros Hts Hexec.
  assert (Hsub : forall priority f args fut,
            submit_task_helper E priority f args p = Some (fut, p') ->
            threads p' = [pc]).
  { intros priority f args fut Hsub. unfold submit_task_helper in Hsub.
    destruct (queue_mutex p); [discriminate|].
    destruct (WorkQueue.push E _ _); [|discriminate].
    simpl in Hsub. injection Hsub as _ <-. assumption. }
  destruct a as [i|f args|priority f args| |]; simpl in Hexec.
  - unfold worker_step in Hexec. simpl. rewrite Hts in *.
    destruct i as [|i]; [|discriminate]. simpl in *.
    destruct pc; simpl in Hexec; try discriminate.
    1-5,7-8: repeat match type of Hexec with
        | match ?x with _ => _ end = Some _ => destruct x eqn:?; simpl in Hexec
        | (if ?x then _ else _) = Some _ => destruct x eqn:?; simpl in Hexec
        end; try discriminate; injection Hexec as <-; simpl; rewrite Hts;
        eexists; (split; [reflexivity|reflexivity]).
    + destruct (WorkQueue.pop E (work_queue p)) as [[w q']|];
        injection Hexec as <-; simpl; rewrite Hts;
        eexists; (split; [reflexivity|reflexivity]).
    + destruct (TaskClosure_call _ _) as [[x|e] h']; injection Hexec as <-;
        simpl; rewrite Hts; eexists; (split; [reflexivity|reflexivity]).
  - unfold submit_task in Hexec.
    destruct (submit_task_helper E _ f args p) as [[fut p1]|] eqn:Hsubmit;
      [|discriminate].
    simpl in Hexec. injection Hexec as <-. exists pc.
    split; [eauto|]. simpl. apply app_nil_r.
  - unfold submit_priority_task, static_assert in Hexec.
    destruct E eqn:HE in Hexec at 1; [|discriminate].
    destruct (submit_task_helper E _ f args p) as [[fut p1]|] eqn:Hsubmit;
      [|discriminate].
    simpl in Hexec. injection Hexec as <-. exists pc.
    split; [eauto|]. simpl. apply app_nil_r.
  - destruct (get_tasks_running p); [|discriminate].
    simpl in Hexec. injection Hexec as <-. exists pc.
    split; [assumption|]. simpl. apply app_nil_r.
  - unfold destroy in Hexec. destruct (queue_mutex p); [discriminate|].
    injection Hexec as <-. exists pc. split; [assumption|]. simpl. apply app_nil_r.
Qed.

Lemma run_single_worker (E : bool) acts : forall p p' trace pc,
  threads p = [pc] ->
  run E acts p = Some (p', trace) ->
  exists pc', threads p' = [pc']
    /\ held pc ++ popped trace = started trace ++ held pc'.
Proof.
  induction acts as [|a acts IH]; intros p p' trace pc Hts Hrun; simpl in Hrun.
  - injection Hrun as <- <-. exists pc. split; [assumption|]. simpl.
    apply app_nil_r.
  - destruct (exec E a p) as [p1|] eqn:Hexec; [|discriminate].
    simpl in Hrun.
    destruct (run E acts p1) as [[p2 tr2]|] eqn:Hrun1; [|discriminate].
    simpl in Hrun. injection Hrun as <- <-.
    destruct (exec_single_worker E a p p1 pc Hts Hexec) as (pc1 & Hts1 & Hstep).
    destruct (IH p1 p2 tr2 pc1 Hts1 Hrun1) as (pc2 & Hts2 & Hrest).
    exists pc2. split; [assumption|].
    rewrite popped_cons, started_cons, app_assoc, Hstep, <- !app_assoc.
    f_equal. assumption.
Qed.

End TraceProofs.

(** ** What a step leaves alone *)

Section FrameProofs.
Context {Args V Exn : Type} (E : bool).
Implicit Types (p : ThreadPool Args V Exn).

Lemma worker_step_frame j p p' :
  worker_step E j p = Some p' ->
  stop p' = stop p
  /\ num_threads p' = num_threads p
  /\ forall i, i <> j -> threads p' !! i = threads p !! i.
Proof.
  intros Hstep. unfold worker_step in Hstep.
  destruct (threads p !! j) as [pc|]; [|discriminate]. simpl in Hstep.
  destruct pc; simpl in Hstep;
    repeat match type of Hstep with
      | match ?x with _ => _ end = Some _ => destruct x eqn:?; simpl in Hstep
      | (if ?x then _ else _) = Some _ => destruct x eqn:?; simpl in Hstep
      end; try discriminate; injection Hstep as <-; simpl;
    (split; [congruence|split; [reflexivity|]]);
    intros i Hne; apply list_lookup_insert_ne; auto.
Qed.

Lemma client_exec_frame a p p' :
  (forall j, a <> act_worker j) ->
  exec E a p = Some p' ->
  threads p' = threads p
  /\ num_threads p' = num_threads p
  /\ tasks_running p' = tasks_running p
  /\ queue_mutex p = None
  /\ (stop p = true -> stop p' = true).
Proof.
  intros Hclient Hexec.
  assert (Hsub : forall priority f args fut,
            submit_task_helper E priority f args p = Some (fut, p') ->
            threads p' = threads p /\ num_threads p' = num_threads p
            /\ tasks_running p' = tasks_running p /\ queue_mutex p = None
            /\ (stop p = true -> stop p' = true)).
  { intros priority f args fut Hsub. unfold submit_task_helper in Hsub.
    destruct (queue_mutex p); [discriminate|].
    destruct (WorkQueue.push E _ _); [|discriminate].
    simpl in Hsub. injection Hsub as _ <-. simpl. auto. }
  destruct a as [i|f args|priority f args| |]; simpl in Hexec.
  - exfalso. apply (Hclient i). reflexivity.
  - unfold submit_task in Hexec.
    destruct (submit_task_helper E _ f args p) as [[fut p1]|] eqn:Hsubmit;
      [|discriminate].
    simpl in Hexec. injection Hexec as <-. eauto.
  - unfold submit_priority_task, static_assert in Hexec.
    destruct E eqn:HE in Hexec at 1; [|discriminate].
    destruct (submit_task_helper E _ f args p) as [[fut p1]|] eqn:Hsubmit;
      [|discriminate].
    simpl in Hexec. injection Hexec as <-. eauto.
  - unfold get_tasks_running in Hexec.
    destruct (queue_mutex p); [discriminate|].
    simpl in Hexec. injection Hexec as <-. auto.
  - unfold destroy in Hexec. destruct (queue_mutex p); [discriminate|].
    injection Hexec as <-. simpl. auto.
Qed.

(** A worker that has returned stays so. *)
Lemma exec_Stopped a p p' i :
  exec E a p = Some p' ->
  threads p !! i = Some Stopped -> threads p' !! i = Some Stopped.
Proof.
  intros Hexec Hi.
  destruct a as [j|f args|priority f args| |].
  1: { simpl in Hexec. destruct (decide (i = j)) as [->|Hne].
       - unfold worker_step in Hexec. rewrite Hi in Hexec. discriminate.
       - destruct (worker_step_frame j p p' Hexec) as (_ & _ & Hframe).
         rewrite Hframe by assumption. assumption. }
  all: match type of Hexec with
       | exec _ ?a _ = _ =>
           destruct (client_exec_frame a p p') as (-> & _);
             [intros ?; discriminate|assumption|assumption]
       end.
Qed.

Lemma run_Stopped acts : forall p p' trace i,
  run E acts p = Some (p', trace) ->
  threads p !! i = Some Stopped -> threads p' !! i = Some Stopped.
Proof.
  induction acts as [|a acts IH]; intros p p' trace i Hrun Hi; simpl in Hrun.
  - injection Hrun as <- _. assumption.
  - destruct (exec E a p) as [p1|] eqn:Hexec; [|discriminate]. simpl in Hrun.
    destruct (run E acts p1) as [[p2 tr2]|] eqn:Hrun1; [|discriminate].
    simpl in Hrun. injection Hrun as <- _.
    eapply IH; eauto using exec_Stopped.
Qed.

(** A worker that tests the predicate of its wait while [stop] is set
    does not pop. *)
Lemma exec_leaving a p p' i :
  exec E a p = Some p' -> leaving i p ->
  leaving i p' /\ forall w, event_of E a p <> ev_popped i w.
Proof.
  intros Hexec [Hstop Hpc].
  destruct a as [j|f args|priority f args| |].
  1: { simpl in Hexec. destruct (decide (i = j)) as [<-|Hne].
       - unfold worker_step in Hexec. simpl.
         destruct Hpc as [Hi|[Hi|Hi]]; rewrite Hi in *; simpl in Hexec.
         + rewrite Hstop in Hexec. simpl in Hexec. injection Hexec as <-.
           split; [|discriminate]. split; [assumption|]. right. left. simpl.
           apply list_lookup_insert_eq. eapply lookup_lt_Some; eauto.
         + rewrite Hstop in Hexec. injection Hexec as <-.
           split; [|discriminate]. split; [assumption|]. right. right. simpl.
           apply list_lookup_insert_eq. eapply lookup_lt_Some; eauto.
         + discriminate.
       - destruct (worker_step_frame j p p' Hexec) as (Hst & _ & Hframe).
         split.
         + split; [congruence|]. rewrite Hframe by assumption. assumption.
         + intros w. simpl.
           destruct (threads p !! j) as [[]|]; try discriminate.
           destruct (WorkQueue.pop E (work_queue p)) as [[??]|];
             [|discriminate].
           intros [= -> _]. contradiction. }
  all: match type of Hexec with
       | exec _ ?a _ = _ =>
           destruct (client_exec_frame a p p') as (Hts & _ & _ & _ & Hst);
             [intros ?; discriminate|assumption|]
       end;
    (split; [split; [auto|rewrite Hts; assumption]|intros w; discriminate]).
Qed.

Lemma run_leaving acts : forall p p' trace i,
  run E acts p = Some (p', trace) -> leaving i p ->
  leaving i p' /\ forall w, ev_popped i w ∉ trace.
Proof.
  induction acts as [|a acts IH]; intros p p' trace i Hrun Hl; simpl in Hrun.
  - injection Hrun as <- <-. split; [assumption|].
    intros w Hw. apply elem_of_nil in Hw. contradiction.
  - destruct (exec E a p) as [p1|] eqn:Hexec; [|discriminate]. simpl in Hrun.
    destruct (run E acts p1) as [[p2 tr2]|] eqn:Hrun1; [|discriminate].
    simpl in Hrun. injection Hrun as <- <-.
    destruct (exec_leaving a p p1 i Hexec Hl) as [Hl1 Hev].
    destruct (IH p1 p2 tr2 i Hrun1 Hl1) as [Hl2 Htr].
    split; [assumption|].
    intros w Hw. apply elem_of_cons in Hw as [Hw|Hw].
    + apply (Hev w). auto.
    + apply (Htr w). assumption.
Qed.

(** Once the destructor has joined every worker, nothing is taken from the
    queue any more. *)
Lemma exec_joined a p p' :
  exec E a p = Some p' -> joined p = true ->
  joined p' = true
  /\ popped [event_of E a p] = [] /\ started [event_of E a p] = [].
Proof.
  intros Hexec Hj. destruct a as [j|f args|priority f args| |].
  1: { exfalso. simpl in Hexec. unfold worker_step in Hexec.
       destruct (threads p !! j) as [pc|] eqn:Hpc; [|discriminate].
       unfold joined in Hj. rewrite forallb_forall in Hj.
       assert (Hs : is_Stopped pc = true).
       { apply Hj. apply list_elem_of_In. eapply list_elem_of_lookup_2; eauto. }
       destruct pc; try discriminate. }
  all: match type of Hexec with
       | exec _ ?a _ = _ =>
           destruct (client_exec_frame a p p') as (Hts & _);
             [intros ?; discriminate|assumption|]
       end;
    unfold joined; rewrite Hts; auto.
Qed.

Lemma run_joined acts : forall p p' trace,
  run E acts p = Some (p', trace) -> joined p = true ->
  joined p' = true /\ popped trace = [] /\ started trace = [].
Proof.
  induction acts as [|a acts IH]; intros p p' trace Hrun Hj; simpl in Hrun.
  - injection Hrun as <- <-. auto.
  - destruct (exec E a p) as [p1|] eqn:Hexec; [|discriminate]. simpl in Hrun.
    destruct (run E acts p1) as [[p2 tr2]|] eqn:Hrun1; [|discriminate].
    simpl in Hrun. injection Hrun as <- <-.
    destruct (exec_joined a p p1 Hexec Hj) as (Hj1 & Hpop & Hstart).
    destruct (IH p1 p2 tr2 Hrun1 Hj1) as (Hj2 & Hpop2 & Hstart2).
    split; [assumption|].
    rewrite popped_cons, started_cons, Hpop, Hstart, Hpop2, Hstart2. auto.
Qed.

(** The number of threads is fixed at construction. *)
Lemma exec_num_threads a p p' :
  exec E a p = Some p' -> num_threads p' = num_threads p.
Proof.
  intros Hexec. destruct a as [j|f args|priority f args| |].
  1: { simpl in Hexec. apply (worker_step_frame j p p' Hexec). }
  all: match type of Hexec with
       | exec _ ?a _ = _ =>
           destruct (client_exec_frame a p p') as (_ & Hnum & _);
             [intros ?; discriminate|assumption|assumption]
       end.
Qed.

Lemma reachable_num_threads n p : reachable E n p -> num_threads p = n.
Proof.
  intros (acts & trace & Hrun).
  change n with (num_threads (ThreadPool_new n : ThreadPool Args V Exn)).
  revert Hrun. generalize (ThreadPool_new n : ThreadPool Args V Exn).
  revert p trace. induction acts as [|a acts IH]; intros p trace p0 Hrun;
    simpl in Hrun.
  - injection Hrun as <- _. reflexivity.
  - destruct (exec E a p0) as [p1|] eqn:Hexec; [|discriminate]. simpl in Hrun.
    destruct (run E acts p1) as [[p2 tr2]|] eqn:Hrun1; [|discriminate].
    simpl in Hrun. injection Hrun as <- _.
    rewrite (IH _ _ _ Hrun1). apply exec_num_threads with a. assumption.
Qed.

End FrameProofs.

(** ** Turns of the worker loop *)

Section TurnProofs.
Context {Args V Exn : Type} (E : bool).
Implicit Types (p : ThreadPool Args V Exn).

Lemma run_step a acts p p1 :
  exec E a p = Some p1 ->
  run E (a :: acts) p
  = '(p2, trace) ← run E acts p1; Some (p2, event_of E a p :: trace).
Proof. intros H. simpl. rewrite H. reflexivity. Qed.

(** The counter does not wrap at a decrement followed by an increment. *)
Lemma counter_round_trip (n : Z) p i :
  (0 <= n <= size_max)%Z -> reachable E n p ->
  threads p !! i = Some AtLock ->
  size_dec (tasks_running p) = (tasks_running p - 1)%Z
  /\ size_inc (tasks_running p - 1) = tasks_running p.
Proof.
  intros Hn Hreach Hpc.
  pose proof (reachable_inv E n p Hn Hreach) as Hinv.
  destruct (inv_size E p Hinv) as [Hsz Hlen].
  pose proof (inv_count E p Hinv) as Hcount.
  pose proof (counted_le_total _ _ _ Hpc) as Hle. simpl in Hle.
  pose proof (counted_total_range (threads p)) as Hrange.
  unfold size_dec, size_inc, size_max in *.
  rewrite !Z.mod_small by lia. lia.
Qed.

(** The first two steps of a turn, lock and decrement, and the first six,
    up to the increment that follows the [pop]. *)
Lemma turn_prefixes (n : Z) p i w q' :
  (0 <= n <= size_max)%Z ->
  reachable E n p ->
  threads p !! i = Some AtLock ->
  queue_mutex p = None ->
  stop p = false ->
  WorkQueue.pop E (work_queue p) = Some (w, q') ->
  (exists trace,
     run E (replicate 2 (act_worker i)) p
     = Some (set_thread i AtWait
               (set_tasks_running (tasks_running p - 1)
                  (set_queue_mutex (Some i) p)), trace))
  /\ (exists trace,
        run E (replicate 6 (act_worker i)) p
        = Some (set_thread i (AtUnlock w)
                  (set_work_queue q' (set_queue_mutex (Some i) p)), trace)).
Proof.
  intros Hn Hreach Hpc Hm Hstop Hpop.
  destruct (counter_round_trip n p i Hn Hreach Hpc) as [Hdec Hinc].
  assert (Hne : WorkQueue.empty (work_queue p) = false).
  { apply empty_false_iff. eapply pop_Some_nonempty; eauto. }
  pose proof (lookup_lt_Some _ _ _ Hpc) as Hlt.
  destruct p as [nt ts q m st tr h].
  cbn [threads queue_mutex stop work_queue tasks_running promises] in *.
  subst m st.
  assert (H1 : exec E (act_worker i) (mkThreadPool nt ts q None false tr h)
               = Some (mkThreadPool nt (<[i:=AtDecrement]> ts) q (Some i) false
                         tr h))
    by (simpl; unfold worker_step; simpl; rewrite Hpc; reflexivity).
  assert (H2 : exec E (act_worker i)
                 (mkThreadPool nt (<[i:=AtDecrement]> ts) q (Some i) false tr h)
               = Some (mkThreadPool nt (<[i:=AtWait]> ts) q (Some i) false
                         (tr - 1) h))
    by (simpl; unfold worker_step; simpl;
        rewrite list_lookup_insert_eq by assumption; simpl;
        unfold set_thread, set_tasks_running; simpl;
        rewrite list_insert_insert_eq, Hdec; reflexivity).
  assert (H3 : exec E (act_worker i)
                 (mkThreadPool nt (<[i:=AtWait]> ts) q (Some i) false (tr - 1) h)
               = Some (mkThreadPool nt (<[i:=AtStopCheck]> ts) q (Some i) false
                         (tr - 1) h))
    by (simpl; unfold worker_step; simpl;
        rewrite list_lookup_insert_eq by assumption; simpl; rewrite Hne; simpl;
        unfold set_thread; simpl; rewrite list_insert_insert_eq; reflexivity).
  assert (H4 : exec E (act_worker i)
                 (mkThreadPool nt (<[i:=AtStopCheck]> ts) q (Some i) false
                    (tr - 1) h)
               = Some (mkThreadPool nt (<[i:=AtPop]> ts) q (Some i) false
                         (tr - 1) h))
    by (simpl; unfold worker_step; simpl;
        rewrite list_lookup_insert_eq by assumption; simpl;
        unfold set_thread; simpl; rewrite list_insert_insert_eq; reflexivity).
  assert (H5 : exec E (act_worker i)
                 (mkThreadPool nt (<[i:=AtPop]> ts) q (Some i) false (tr - 1) h)
               = Some (mkThreadPool nt (<[i:=AtIncrement w]> ts) q' (Some i)
                         false (tr - 1) h))
    by (simpl; unfold worker_step; simpl;
        rewrite list_lookup_insert_eq by assumption; simpl; rewrite Hpop;
        unfold set_thread, set_work_queue; simpl;
        rewrite list_insert_insert_eq; reflexivity).
  assert (H6 : exec E (act_worker i)
                 (mkThreadPool nt (<[i:=AtIncrement w]> ts) q' (Some i) false
                    (tr - 1) h)
               = Some (mkThreadPool nt (<[i:=AtUnlock w]> ts) q' (Some i) false
                         tr h))
    by (simpl; unfold worker_step; simpl;
        rewrite list_lookup_insert_eq by assumption; simpl;
        unfold set_thread, set_tasks_running; simpl;
        rewrite list_insert_insert_eq, Hinc; reflexivity).
  split; eexists.
  - change (replicate 2 (act_worker i))
      with ([act_worker i; act_worker i] : list (Action Args V Exn)).
    rewrite (run_step _ _ _ _ H1), (run_step _ _ _ _ H2). reflexivity.
  - change (replicate 6 (act_worker i))
      with ([act_worker i; act_worker i; act_worker i; act_worker i;
             act_worker i; act_worker i] : list (Action Args V Exn)).
    rewrite (run_step _ _ _ _ H1), (run_step _ _ _ _ H2),
      (run_step _ _ _ _ H3), (run_step _ _ _ _ H4), (run_step _ _ _ _ H5),
      (run_step _ _ _ _ H6).
    reflexivity.
Qed.

(** A worker that finds the queue empty goes into the wait. *)
Lemma park_run (n : Z) p i :
  (0 <= n <= size_max)%Z ->
  reachable E n p ->
  threads p !! i = Some AtLock ->
  queue_mutex p = None ->
  stop p = false ->
  work_queue p = [] ->
  run E (replicate 3 (act_worker i)) p
  = Some (set_thread i Waiting (set_tasks_running (tasks_running p - 1) p),
          [ev_silent; ev_silent; ev_silent]).
Proof.
  intros Hn Hreach Hpc Hm Hstop Hq.
  destruct (counter_round_trip n p i Hn Hreach Hpc) as [Hdec _].
  pose proof (lookup_lt_Some _ _ _ Hpc) as Hlt.
  destruct p as [nt ts q m st tr h]. simpl in *. subst m st q.
  unfold run, exec, event_of, worker_step. simpl. rewrite Hpc. simpl.
  repeat (rewrite list_lookup_insert_eq by (rewrite ?length_insert; assumption);
          simpl).
  rewrite Hdec. unfold set_thread, set_queue_mutex, set_tasks_running.
  simpl. rewrite !list_insert_insert_eq. reflexivity.
Qed.

Lemma one_turn_runs (n : Z) p i w q' :
  (0 <= n <= size_max)%Z ->
  reachable E n p ->
  threads p !! i = Some AtLock ->
  queue_mutex p = None ->
  stop p = false ->
  WorkQueue.pop E (work_queue p) = Some (w, q') ->
  exists trace,
    run E (one_turn i) p
    = Some (set_work_queue q'
              (set_promises
                 (<[promise_of w := recorded (outcome_of w)]> (promises p)) p),
            trace)
    /\ popped trace = [w] /\ started trace = [w] /\ pushed trace = [].
Proof.
  intros Hn Hreach Hpc Hm Hstop Hpop.
  destruct (counter_round_trip n p i Hn Hreach Hpc) as [Hdec Hinc].
  pose proof (reachable_inv E n p Hn Hreach) as Hinv.
  assert (Hnr : promises p !! promise_of w = Some not_ready).
  { apply (inv_not_ready E p Hinv). unfold pending. apply elem_of_app. left.
    rewrite (pop_perm E _ _ _ (inv_queue E p Hinv) Hpop).
    apply elem_of_cons. auto. }
  assert (Hne : WorkQueue.empty (work_queue p) = false).
  { apply empty_false_iff. eapply pop_Some_nonempty; eauto. }
  pose proof (lookup_lt_Some _ _ _ Hpc) as Hlt.
  destruct p as [nt ts q m st tr h].
  cbn [threads queue_mutex stop work_queue tasks_running promises] in *.
  subst m st.
  eexists. split.
  - change (one_turn i)
      with ([act_worker i; act_worker i; act_worker i; act_worker i;
             act_worker i; act_worker i; act_worker i; act_worker i]
              : list (Action Args V Exn)).
    (* lock *)
    rewrite (run_step _ _ _
               (mkThreadPool nt (<[i:=AtDecrement]> ts) q (Some i) false tr h))
      by (simpl; unfold worker_step; simpl; rewrite Hpc; reflexivity).
    (* decrement *)
    rewrite (run_step _ _ _
               (mkThreadPool nt (<[i:=AtWait]> ts) q (Some i) false (tr - 1) h))
      by (simpl; unfold worker_step; simpl;
          rewrite list_lookup_insert_eq by assumption; simpl;
          unfold set_thread, set_tasks_running; simpl;
          rewrite list_insert_insert_eq, Hdec; reflexivity).
    (* the predicate holds *)
    rewrite (run_step _ _ _
               (mkThreadPool nt (<[i:=AtStopCheck]> ts) q (Some i) false (tr - 1) h))
      by (simpl; unfold worker_step; simpl;
          rewrite list_lookup_insert_eq by assumption; simpl; rewrite Hne; simpl;
          unfold set_thread; simpl; rewrite list_insert_insert_eq; reflexivity).
    (* stop is clear *)
    rewrite (run_step _ _ _
               (mkThreadPool nt (<[i:=AtPop]> ts) q (Some i) false (tr - 1) h))
      by (simpl; unfold worker_step; simpl;
          rewrite list_lookup_insert_eq by assumption; simpl;
          unfold set_thread; simpl; rewrite list_insert_insert_eq; reflexivity).
    (* pop *)
    rewrite (run_step _ _ _
               (mkThreadPool nt (<[i:=AtIncrement w]> ts) q' (Some i) false
                  (tr - 1) h))
      by (simpl; unfold worker_step; simpl;
          rewrite list_lookup_insert_eq by assumption; simpl; rewrite Hpop;
          unfold set_thread, set_work_queue; simpl;
          rewrite list_insert_insert_eq; reflexivity).
    (* increment *)
    rewrite (run_step _ _ _
               (mkThreadPool nt (<[i:=AtUnlock w]> ts) q' (Some i) false tr h))
      by (simpl; unfold worker_step; simpl;
          rewrite list_lookup_insert_eq by assumption; simpl;
          unfold set_thread, set_tasks_running; simpl;
          rewrite list_insert_insert_eq, Hinc; reflexivity).
    (* unlock *)
    rewrite (run_step _ _ _
               (mkThreadPool nt (<[i:=Executing w]> ts) q' None false tr h))
      by (simpl; unfold worker_step; simpl;
          rewrite list_lookup_insert_eq by assumption; simpl;
          unfold set_thread, set_queue_mutex; simpl;
          rewrite list_insert_insert_eq; reflexivity).
    (* the task *)
    rewrite (run_step _ _ _
               (mkThreadPool nt ts q' None false tr
                  (<[promise_of w := recorded (outcome_of w)]> h)))
      by (simpl; unfold worker_step; simpl;
          rewrite list_lookup_insert_eq by assumption; simpl;
          rewrite TaskClosure_call_not_ready by assumption;
          unfold set_thread, set_promises; simpl;
          rewrite list_insert_insert_eq, (list_insert_id _ _ _ Hpc);
          reflexivity).
    simpl. reflexivity.
  - unfold event_of. simpl. rewrite Hpc.
    repeat (rewrite list_lookup_insert_eq by assumption). rewrite Hpop.
    simpl. auto.
Qed.

End TurnProofs.

(* ===================================================================== *)
(** * The claims *)
(* ===================================================================== *)

(** ** Ordering of the work queue *)

Lemma two_priorities_built : WorkQueue.built true two_priorities.
Proof.
  eapply WorkQueue.built_push with (q := [mkWorkItem 1 1%Z]) (x := mkWorkItem 2 5%Z).
  - eapply WorkQueue.built_push with (q := []) (x := mkWorkItem 1 1%Z).
    + apply WorkQueue.built_nil.
    + reflexivity.
  - reflexivity.
Defined.

(** C2.  In a pool with priority scheduling, [pop] on a non-empty work
    queue returns an item whose priority is maximal among the queued items
    and removes exactly that item.  An item of lower priority than another
    queued item is not the one returned and stays queued, and in any series
    of pops an item of higher priority comes out before one of lower
    priority. *)
Theorem priority_pop_returns_maximum {T : Type} (q : list (WorkItem T)) :
  WorkQueue.built true q ->
  WorkQueue.empty q = false ->
  exists w q',
    WorkQueue.pop true q = Some (w, q')
    /\ (forall x, x ∈ q -> (priority x <= priority w)%Z)
    /\ q ≡ₚ w :: q'
    /\ (forall a b, a ∈ q -> b ∈ q -> (priority b < priority a)%Z ->
          w <> b /\ b ∈ q')
    /\ (forall k out rest i j x y,
          WorkQueue.pop_n true k q = Some (out, rest) ->
          out !! i = Some x -> out !! j = Some y ->
          (priority y < priority x)%Z -> i < j).
Proof.
  intros Hb Hne. apply empty_false_iff in Hne.
  destruct (priority_pop_spec q Hb Hne) as (w & q' & Hpop & Hperm & Hmax).
  exists w, q'. split; [assumption|]. split; [assumption|].
  split; [assumption|]. split.
  - intros a b Ha Hbq Hlt.
    assert (Hwb : w <> b).
    { intros ->. specialize (Hmax a Ha). lia. }
    split; [assumption|].
    rewrite Hperm in Hbq. apply elem_of_cons in Hbq as [->|?];
      [contradiction|assumption].
  - intros k out rest i j x y Hpopn Hx Hy Hlt.
    destruct (Nat.lt_trichotomy i j) as [?|[->|Hji]]; [assumption| |].
    + assert (x = y) by congruence. subst. lia.
    + pose proof (priority_pop_n_sorted k q out rest Hb Hpopn j i y x Hji Hy Hx).
      lia.
Qed.

Lemma priority_pop_returns_maximum_witness :
  WorkQueue.built true two_priorities
  /\ WorkQueue.empty two_priorities = false
  /\ exists w q',
       WorkQueue.pop true two_priorities = Some (w, q')
       /\ (forall x, x ∈ two_priorities -> (priority x <= priority w)%Z)
       /\ two_priorities ≡ₚ w :: q'
       /\ (forall a b, a ∈ two_priorities -> b ∈ two_priorities ->
             (priority b < priority a)%Z -> w <> b /\ b ∈ q')
       /\ (forall k out rest i j x y,
             WorkQueue.pop_n true k two_priorities = Some (out, rest) ->
             out !! i = Some x -> out !! j = Some y ->
             (priority y < priority x)%Z -> i < j).
Proof.
  split; [exact two_priorities_built|]. split; [reflexivity|].
  apply (priority_pop_returns_maximum two_priorities);
    [exact two_priorities_built|reflexivity].
Defined.

(** Without priority scheduling a batch is popped in the order of its
    pushes. *)
Lemma fifo_drains_in_push_order {T : Type} (q items : list (WorkItem T)) :
  WorkQueue.push_all false q items = Some (q ++ items)
  /\ WorkQueue.pop_n false (length (q ++ items)) (q ++ items)
     = Some (q ++ items, []).
Proof.
  split; [apply fifo_push_all|].
  rewrite <- (app_nil_r (q ++ items)) at 2. apply fifo_pop_n.
Qed.

(** C9.  In a pool with priority scheduling the order of items of equal
    priority is not the order of insertion: four items of priority 0 pushed
    as 1, 2, 3, 4 are popped as 1, 3, 2, 4. *)
Theorem equal_priority_order_not_insertion_order :
  exists items : list (WorkItem nat),
    (forall x y, x ∈ items -> y ∈ items -> priority x = priority y)
    /\ exists q out,
         WorkQueue.push_all true [] items = Some q
         /\ WorkQueue.pop_n true (length items) q = Some (out, [])
         /\ out <> items
         /\ out ≡ₚ items.
Proof.
  exists four_equal. split.
  - intros x y Hx Hy. unfold four_equal in *.
    repeat (apply elem_of_cons in Hx as [->|Hx]; [|]);
      try (apply elem_of_nil in Hx; contradiction);
      repeat (apply elem_of_cons in Hy as [->|Hy]; [|]);
      try (apply elem_of_nil in Hy; contradiction); reflexivity.
  - exists four_equal,
      [mkWorkItem 1 0%Z; mkWorkItem 3 0%Z; mkWorkItem 2 0%Z; mkWorkItem 4 0%Z].
    split; [vm_compute; reflexivity|]. split; [vm_compute; reflexivity|].
    split; [discriminate|].
    unfold four_equal. do 1 f_equiv. apply perm_swap.
Qed.

(** C10.  With priority scheduling, an item of the default priority of
    [submit_task] outranks an item of negative priority: while both are
    queued, [pop] returns an item of priority at least 0, never the negative
    one, which stays queued; in any series of pops the default item comes
    out first.  The default 0 is not the least value of the signed type. *)
Theorem default_priority_outranks_negative {T : Type}
    (q : list (WorkItem T)) (a b : WorkItem T) :
  WorkQueue.built true q ->
  a ∈ q -> b ∈ q ->
  priority a = to_Priority 0 ->
  is_Priority (priority b) -> (priority b < 0)%Z ->
  (Priority_min < to_Priority 0)%Z
  /\ (exists w q',
        WorkQueue.pop true q = Some (w, q')
        /\ (0 <= priority w)%Z /\ w <> b /\ b ∈ q')
  /\ (forall k out rest i j,
        WorkQueue.pop_n true k q = Some (out, rest) ->
        out !! i = Some a -> out !! j = Some b -> i < j).
Proof.
  intros Hb Ha Hbq Hpa _ Hneg.
  assert (Hzero : to_Priority 0 = 0%Z) by reflexivity.
  assert (Hne : WorkQueue.empty q = false).
  { apply empty_false_iff. intros ->. apply elem_of_nil in Ha. contradiction. }
  apply empty_false_iff in Hne.
  destruct (priority_pop_spec q Hb Hne) as (w & q' & Hpop & Hperm & Hmax).
  split; [rewrite Hzero; reflexivity|]. split.
  - exists w, q'. split; [assumption|].
    assert (Hw : (0 <= priority w)%Z) by (specialize (Hmax a Ha); lia).
    split; [assumption|].
    assert (Hwb : w <> b) by (intros ->; lia).
    split; [assumption|].
    rewrite Hperm in Hbq. apply elem_of_cons in Hbq as [->|?];
      [contradiction|assumption].
  - intros k out rest i j Hpopn Hi Hj.
    destruct (Nat.lt_trichotomy i j) as [?|[->|Hji]]; [assumption| |].
    + assert (a = b) by congruence. subst. lia.
    + pose proof (priority_pop_n_sorted k q out rest Hb Hpopn j i b a Hji Hj Hi).
      lia.
Qed.

Lemma negative_and_default_built : WorkQueue.built true negative_and_default.
Proof.
  eapply WorkQueue.built_push
    with (q := [mkWorkItem 1 (-3)%Z]) (x := mkWorkItem 2 (to_Priority 0)).
  - eapply WorkQueue.built_push with (q := []) (x := mkWorkItem 1 (-3)%Z).
    + apply WorkQueue.built_nil.
    + reflexivity.
  - reflexivity.
Defined.

Lemma default_priority_outranks_negative_witness :
  (Priority_min < to_Priority 0)%Z
  /\ (exists w q',
        WorkQueue.pop true negative_and_default = Some (w, q')
        /\ (0 <= priority w)%Z /\ w <> mkWorkItem 1 (-3)%Z
        /\ mkWorkItem 1 (-3)%Z ∈ q')
  /\ (forall k out rest i j,
        WorkQueue.pop_n true k negative_and_default = Some (out, rest) ->
        out !! i = Some (mkWorkItem 2 (to_Priority 0)) ->
        out !! j = Some (mkWorkItem 1 (-3)%Z) -> i < j).
Proof.
  apply (default_priority_outranks_negative negative_and_default
           (mkWorkItem 2 (to_Priority 0)) (mkWorkItem 1 (-3)%Z)).
  - exact negative_and_default_built.
  - apply list_elem_of_In. simpl. auto.
  - apply list_elem_of_In. simpl. auto.
  - reflexivity.
  - unfold is_Priority, Priority_min, Priority_max. simpl. lia.
  - simpl. lia.
Defined.

(** ** The submitted task and its result *)

(** C1.  A submission queues a closure that shares its promise with the
    future it returns, and the promise is not ready.  When a worker of a
    running pool is about to execute a submitted
    task, nothing has been written to the task's result source yet.  The
    execution writes there once: the value if the callable returns, the
    exception it raised otherwise; it changes no other result source and
    lets no exception out, so the worker goes back to the top of its loop.
    Reading the future then gives the value or throws the captured
    exception again, and no later action of any thread changes what was
    recorded. *)
Theorem executed_task_records_outcome_once {Args V Exn : Type} (E : bool)
    (n : Z) (p : ThreadPool Args V Exn) (i : nat)
    (w : WorkItem (TaskClosure Args V Exn)) :
  (0 <= n <= size_max)%Z ->
  reachable E n p ->
  threads p !! i = Some (Executing w) ->
  let c := task w in
  let o := closure_f c (closure_args c) in
  (forall priority f args (p0 p1 : ThreadPool Args V Exn) fut,
     submit_task_helper E priority f args p0 = Some (fut, p1) ->
     future_valid fut = true
     /\ promises p1 !! future_state fut = Some not_ready
     /\ WorkQueue.push E (work_queue p0)
          (mkWorkItem (mkTaskClosure f args (future_state fut)) priority)
        = Some (work_queue p1))
  /\ promises p !! closure_promise c = Some not_ready
  /\ exists p',
       worker_step E i p = Some p'
       /\ threads p' !! i = Some AtLock
       /\ promises p' = <[closure_promise c := recorded o]> (promises p)
       /\ future_get (mkFuture (closure_promise c) true) (promises p')
          = Some (delivered o, mkFuture (closure_promise c) false)
       /\ forall acts p'' trace,
            run E acts p' = Some (p'', trace) ->
            promises p'' !! closure_promise c = Some (recorded o).
Proof.
  intros Hn Hreach Hpc c o.
  pose proof (reachable_inv E n p Hn Hreach) as Hinv.
  assert (Hnr : promises p !! closure_promise c = Some not_ready).
  { apply (inv_not_ready E p Hinv w). unfold pending.
    apply elem_of_app. right. apply list_elem_of_In, in_flat_map.
    exists (Executing w). split; [|simpl; auto].
    apply list_elem_of_In. eapply list_elem_of_lookup_2; eauto. }
  split.
  { intros priority f args p0 p1 fut Hsub. unfold submit_task_helper in Hsub.
    destruct (queue_mutex p0); [discriminate|].
    destruct (WorkQueue.push E (work_queue p0) _) as [q'|] eqn:Hpush;
      [|discriminate].
    simpl in Hsub. injection Hsub as <- <-. simpl.
    split; [reflexivity|]. split; [apply lookup_insert_eq|assumption]. }
  split; [assumption|].
  pose proof (lookup_lt_Some _ _ _ Hpc) as Hlt.
  eexists. split; [|split; [|split; [|split]]].
  - unfold worker_step. rewrite Hpc. simpl.
    fold c. rewrite TaskClosure_call_not_ready by assumption. reflexivity.
  - simpl. apply list_lookup_insert_eq. assumption.
  - reflexivity.
  - simpl. apply future_get_recorded. apply lookup_insert_eq.
  - intros acts p'' trace Hrun.
    eapply run_keeps_ready; [eassumption| |].
    + simpl. apply lookup_insert_eq.
    + subst o. destruct (closure_f c (closure_args c)); discriminate.
Qed.

Lemma executed_task_records_outcome_once_witness :
  (forall priority f args (p0 p1 : ThreadPool unit Z string) fut,
     submit_task_helper false priority f args p0 = Some (fut, p1) ->
     future_valid fut = true
     /\ promises p1 !! future_state fut = Some not_ready
     /\ WorkQueue.push false (work_queue p0)
          (mkWorkItem (mkTaskClosure f args (future_state fut)) priority)
        = Some (work_queue p1))
  /\ promises about_to_throw !! 0 = Some not_ready
  /\ exists p',
       worker_step false 0 about_to_throw = Some p'
       /\ threads p' !! 0 = Some AtLock
       /\ promises p'
          = <[0 := has_exception (user_exception "boom"%string)]>
              (promises about_to_throw)
       /\ future_get (mkFuture 0 true) (promises p')
          = Some (throws (user_exception "boom"%string), mkFuture 0 false)
       /\ forall acts p'' trace,
            run false acts p' = Some (p'', trace) ->
            promises p'' !! 0
            = Some (has_exception (user_exception "boom"%string)).
Proof.
  apply (executed_task_records_outcome_once false 1 about_to_throw 0
           (mkWorkItem (mkTaskClosure raises_boom tt 0) (to_Priority 0))).
  - unfold size_max. lia.
  - exists (act_submit_task raises_boom tt :: to_the_task 0). eexists.
    vm_compute. reflexivity.
  - vm_compute. reflexivity.
Defined.

(** ** Order of execution without priority scheduling *)

(** C3.  Without priority scheduling [pop] returns the items in the order
    in which they were pushed: a batch pushed on the empty queue is popped
    back as it was pushed.  In every run of a pool the sequence of items
    taken from the queue, followed by the items still queued, is the
    sequence of submissions; with a single worker the tasks are started in
    the order of submission. *)
Theorem fifo_pop_in_insertion_order {Args V Exn : Type} (n : Z)
    (acts : list (Action Args V Exn)) (p : ThreadPool Args V Exn)
    (trace : list (Event Args V Exn)) :
  run false acts (ThreadPool_new n) = Some (p, trace) ->
  (forall (T : Type) (items : list (WorkItem T)),
     WorkQueue.push_all false [] items = Some items
     /\ WorkQueue.pop_n false (length items) items = Some (items, []))
  /\ pushed trace = popped trace ++ work_queue p
  /\ (n = 1%Z ->
      exists pc, threads p = [pc]
        /\ pushed trace = started trace ++ held pc ++ work_queue p).
Proof.
  intros Hrun. split; [|split].
  - intros T items. apply (fifo_drains_in_push_order [] items).
  - apply (run_fifo_order acts _ _ _ Hrun).
  - intros ->.
    destruct (run_single_worker false acts (ThreadPool_new 1) p trace AtLock
                eq_refl Hrun) as (pc & Hts & Hheld).
    exists pc. split; [assumption|].
    pose proof (run_fifo_order acts _ _ _ Hrun) as Hq. simpl in *.
    rewrite Hq, Hheld, app_assoc. reflexivity.
Qed.

Lemma fifo_pop_in_insertion_order_witness :
  let p := pool_after false 1 two_then_run in
  let trace := trace_after false 1 two_then_run in
  run false two_then_run (ThreadPool_new 1) = Some (p, trace)
  /\ (forall (T : Type) (items : list (WorkItem T)),
        WorkQueue.push_all false [] items = Some items
        /\ WorkQueue.pop_n false (length items) items = Some (items, []))
  /\ pushed trace = popped trace ++ work_queue p
  /\ (1%Z = 1%Z ->
      exists pc, threads p = [pc]
        /\ pushed trace = started trace ++ held pc ++ work_queue p).
Proof.
  assert (Hrun : run false two_then_run (ThreadPool_new 1)
                 = Some (pool_after false 1 two_then_run,
                         trace_after false 1 two_then_run))
    by (vm_compute; reflexivity).
  split; [exact Hrun|].
  exact (fifo_pop_in_insertion_order 1 two_then_run _ _ Hrun).
Defined.

(** ** Shutdown *)

(** C4.  A worker that tests the predicate of its wait, holding the lock,
    while [stop] is set leaves its loop: its next step goes to the test of
    [stop], the one after returns and releases the lock, and the work queue
    is as it was, whatever it holds.  A worker that has returned makes no
    further step.  However the other threads are scheduled in between, the
    worker never pops; and once every worker has returned nothing is taken
    from the queue or started any more, so what is queued then stays. *)
Theorem worker_exits_on_stop_without_popping {Args V Exn : Type} (E : bool)
    (p : ThreadPool Args V Exn) (i : nat) :
  threads p !! i = Some AtWait ->
  queue_mutex p = Some i ->
  stop p = true ->
  (exists p1 p2,
     worker_step E i p = Some p1 /\ threads p1 !! i = Some AtStopCheck
     /\ worker_step E i p1 = Some p2 /\ threads p2 !! i = Some Stopped
     /\ work_queue p2 = work_queue p /\ queue_mutex p2 = None
     /\ worker_step E i p2 = None
     /\ forall acts p3 trace,
          run E acts p2 = Some (p3, trace) -> threads p3 !! i = Some Stopped)
  /\ (forall acts p' trace,
        run E acts p = Some (p', trace) ->
        leaving i p' /\ forall w, ev_popped i w ∉ trace)
  /\ (forall (p0 : ThreadPool Args V Exn) acts p' trace,
        joined p0 = true ->
        run E acts p0 = Some (p', trace) ->
        joined p' = true /\ popped trace = [] /\ started trace = []).
Proof.
  intros Hpc Hm Hstop. pose proof (lookup_lt_Some _ _ _ Hpc) as Hlt.
  split; [|split].
  - eexists _, _. split; [|split; [|split; [|split; [|split; [|split; [|split]]]]]].
    + unfold worker_step. rewrite Hpc. simpl. rewrite Hstop. reflexivity.
    + simpl. apply list_lookup_insert_eq. assumption.
    + unfold worker_step. simpl. rewrite list_lookup_insert_eq by assumption.
      simpl. rewrite Hstop. reflexivity.
    + simpl. apply list_lookup_insert_eq. rewrite length_insert. assumption.
    + reflexivity.
    + reflexivity.
    + unfold worker_step. simpl.
      rewrite list_lookup_insert_eq by (rewrite length_insert; assumption).
      reflexivity.
    + intros acts p3 trace Hrun. eapply run_Stopped; [eassumption|].
      simpl. apply list_lookup_insert_eq. rewrite length_insert. assumption.
  - intros acts p' trace Hrun.
    eapply run_leaving; [eassumption|]. split; auto.
  - intros p0 acts p' trace Hj Hrun. eapply run_joined; eauto.
Qed.

Lemma worker_exits_on_stop_without_popping_witness :
  WorkQueue.empty (work_queue stopping_with_work) = false
  /\ (exists p1 p2,
        worker_step false 0 stopping_with_work = Some p1
        /\ threads p1 !! 0 = Some AtStopCheck
        /\ worker_step false 0 p1 = Some p2 /\ threads p2 !! 0 = Some Stopped
        /\ work_queue p2 = work_queue stopping_with_work
        /\ queue_mutex p2 = None
        /\ worker_step false 0 p2 = None
        /\ forall acts p3 trace,
             run false acts p2 = Some (p3, trace) ->
             threads p3 !! 0 = Some Stopped)
  /\ (forall acts p' trace,
        run false acts stopping_with_work = Some (p', trace) ->
        leaving 0 p' /\ forall w, ev_popped 0 w ∉ trace)
  /\ (forall (p0 : ThreadPool unit Z string) acts p' trace,
        joined p0 = true ->
        run false acts p0 = Some (p', trace) ->
        joined p' = true /\ popped trace = [] /\ started trace = []).
Proof.
  split; [reflexivity|].
  apply (worker_exits_on_stop_without_popping false stopping_with_work 0);
    reflexivity.
Defined.

(** ** The precondition of pop *)

(** C5.  [pop] on an empty work queue is undefined; on a non-empty queue
    of a pool it returns an item and the rest.  A worker of a running pool
    that is at its call of [pop] holds the lock, [stop] is false and the
    queue is not empty, so the call returns and the worker goes on to the
    increment with the item it took. *)
Theorem pop_needs_nonempty_and_worker_has_checked {Args V Exn : Type}
    (E : bool) (n : Z) (p : ThreadPool Args V Exn) (i : nat) :
  (0 <= n <= size_max)%Z ->
  reachable E n p ->
  threads p !! i = Some AtPop ->
  (forall (T : Type) (E' : bool), WorkQueue.pop (T:=T) E' [] = None)
  /\ (forall (T : Type) (E' : bool) (q : list (WorkItem T)),
        WorkQueue.built E' q -> WorkQueue.empty q = false ->
        exists w q', WorkQueue.pop E' q = Some (w, q') /\ q ≡ₚ w :: q')
  /\ queue_mutex p = Some i
  /\ stop p = false
  /\ WorkQueue.empty (work_queue p) = false
  /\ exists w q' p',
       WorkQueue.pop E (work_queue p) = Some (w, q')
       /\ worker_step E i p = Some p'
       /\ threads p' !! i = Some (AtIncrement w)
       /\ work_queue p' = q'.
Proof.
  intros Hn Hreach Hpc.
  pose proof (reachable_inv E n p Hn Hreach) as Hinv.
  destruct (inv_pop E p Hinv i Hpc) as [Hstop Hne].
  split; [intros T E'; apply pop_nil|].
  split.
  { intros T E' q Hb Hq. apply pop_spec; [assumption|].
    apply empty_false_iff. assumption. }
  split; [apply (inv_owner E p Hinv); eauto|].
  split; [assumption|]. split; [apply empty_false_iff; assumption|].
  destruct (pop_spec E (work_queue p) (inv_queue E p Hinv) Hne)
    as (w & q' & Hpop & _).
  exists w, q'. eexists. split; [assumption|]. split; [|split].
  - unfold worker_step. rewrite Hpc. simpl. rewrite Hpop. reflexivity.
  - simpl. apply list_lookup_insert_eq. eapply lookup_lt_Some; eauto.
  - reflexivity.
Qed.

Lemma pop_needs_nonempty_and_worker_has_checked_witness :
  threads at_the_pop !! 0 = Some AtPop
  /\ queue_mutex at_the_pop = Some 0
  /\ stop at_the_pop = false
  /\ WorkQueue.empty (work_queue at_the_pop) = false
  /\ exists w q' p',
       WorkQueue.pop true (work_queue at_the_pop) = Some (w, q')
       /\ worker_step true 0 at_the_pop = Some p'
       /\ threads p' !! 0 = Some (AtIncrement w)
       /\ work_queue p' = q'.
Proof.
  split; [vm_compute; reflexivity|].
  apply (pop_needs_nonempty_and_worker_has_checked true 2 at_the_pop 0).
  - unfold size_max. lia.
  - exists (act_submit_task returns_seven tt :: replicate 4 (act_worker 0)).
    eexists. vm_compute. reflexivity.
  - vm_compute. reflexivity.
Defined.

(** ** Priorities at submission *)

(** C6, as the claim has it: the default priority 0 would be the least
    priority.  It is not: -128 is a priority and is below it. *)
Lemma default_priority_is_not_least :
  ~ (forall z : Z, is_Priority z -> (to_Priority 0 <= z)%Z).
Proof.
  intros H. specialize (H (-128)%Z).
  assert (Hp : is_Priority (-128)) by (unfold is_Priority, Priority_min, Priority_max; lia).
  specialize (H Hp). vm_compute in H. apply H. reflexivity.
Qed.

(** C6, amended.  A task submitted with [submit_task] is pushed on the
    work queue with priority 0 and with the promise of the returned future.
    Priorities are signed 8-bit integers: 0 is one of them and is not the
    least, which is -128. *)
Theorem submit_task_enqueues_priority_zero {Args V Exn : Type} (E : bool)
    (f : Args -> Outcome V Exn) (args : Args)
    (p p' : ThreadPool Args V Exn) (fut : Future) :
  submit_task E f args p = Some (fut, p') ->
  (exists w,
     WorkQueue.push E (work_queue p) w = Some (work_queue p')
     /\ priority w = 0%Z
     /\ task w = mkTaskClosure f args (future_state fut)
     /\ future_valid fut = true
     /\ promises p' !! future_state fut = Some not_ready)
  /\ is_Priority 0
  /\ (Priority_min < 0)%Z
  /\ is_Priority Priority_min
  /\ (forall z, is_Priority z -> (Priority_min <= z)%Z).
Proof.
  intros Hsub. unfold submit_task, submit_task_helper in Hsub.
  destruct (queue_mutex p); [discriminate|].
  destruct (WorkQueue.push E (work_queue p) _) as [q'|] eqn:Hpush;
    [|discriminate].
  simpl in Hsub. injection Hsub as <- <-.
  split.
  - eexists. split; [exact Hpush|]. simpl.
    split; [reflexivity|]. split; [reflexivity|]. split; [reflexivity|].
    apply lookup_insert_eq.
  - unfold is_Priority, Priority_min, Priority_max. repeat split; lia.
Qed.

Lemma submit_task_enqueues_priority_zero_witness :
  exists fut p',
    submit_task true returns_seven tt (ThreadPool_new 2) = Some (fut, p')
    /\ (exists w,
          WorkQueue.push true (work_queue (ThreadPool_new 2)) w
          = Some (work_queue p')
          /\ priority w = 0%Z
          /\ task w = mkTaskClosure returns_seven tt (future_state fut)
          /\ future_valid fut = true
          /\ promises p' !! future_state fut = Some not_ready)
    /\ is_Priority 0
    /\ (Priority_min < 0)%Z
    /\ is_Priority Priority_min
    /\ (forall z, is_Priority z -> (Priority_min <= z)%Z).
Proof.
  assert (Hsub : submit_task true returns_seven tt (ThreadPool_new 2)
                 = Some (mkFuture 0 true,
                         pool_after true 2 [act_submit_task returns_seven tt]))
    by (vm_compute; reflexivity).
  eexists _, _. split; [exact Hsub|].
  exact (submit_task_enqueues_priority_zero true returns_seven tt _ _ _ Hsub).
Defined.

(** C7.  [submit_priority_task] of a pool without priority scheduling does
    not compile: its instantiation is the diagnostic of the [static_assert]
    and no code, so there is nothing that could run, fail at run time or
    fall back to the default priority.  With priority scheduling it is
    [submit_task_helper] with the priority passed through. *)
Theorem submit_priority_task_rejected_at_compile_time {Args V Exn : Type} :
  @submit_priority_task Args V Exn false
    = ill_formed "Priority scheduling should be enabled"
  /\ (forall submit,
        @submit_priority_task Args V Exn false <> well_formed submit)
  /\ @submit_priority_task Args V Exn true
     = well_formed (fun priority f args p =>
                      submit_task_helper true priority f args p).
Proof.
  split; [reflexivity|]. split; [|reflexivity].
  intros submit. unfold submit_priority_task, static_assert. discriminate.
Qed.

(** ** The counter of running tasks *)

(** C8.  In every state of a running pool [tasks_running] is the number of
    workers between their increment and their next decrement, and lies
    between 0 and the number of threads.  A step of a worker changes it
    only while that worker holds the mutex: by the decrement that comes
    before the wait, or by the increment that follows the [pop]; both
    steps are enabled where they stand and do not wrap.  A read by
    [get_tasks_running] returns that number whenever no worker holds the
    mutex, and waits while one does.  From the top of its loop, with the
    mutex free and [stop] clear, a worker that finds no work is in the
    wait after three steps, the counter one less; one that finds work has
    the counter one less after its first two steps, holding the mutex at
    the wait, has it back after six, holding the mutex past the [pop] with
    the item in hand, and after the eight steps of the whole turn the item
    has been run, the mutex is free and the counter is what it was. *)
Theorem tasks_running_consistent {Args V Exn : Type} (E : bool) (n : Z)
    (p : ThreadPool Args V Exn) :
  (0 <= n <= size_max)%Z ->
  reachable E n p ->
  tasks_running p = counted_total (threads p)
  /\ (0 <= tasks_running p <= n)%Z
  /\ (forall i p',
        worker_step E i p = Some p' ->
        tasks_running p' <> tasks_running p ->
        queue_mutex p = Some i /\ queue_mutex p' = Some i
        /\ ((threads p !! i = Some AtDecrement
             /\ threads p' !! i = Some AtWait
             /\ tasks_running p' = (tasks_running p - 1)%Z)
            \/ (exists w, threads p !! i = Some (AtIncrement w)
                  /\ threads p' !! i = Some (AtUnlock w)
                  /\ tasks_running p' = (tasks_running p + 1)%Z)))
  /\ (forall i, threads p !! i = Some AtDecrement ->
        exists p', worker_step E i p = Some p'
          /\ tasks_running p' = (tasks_running p - 1)%Z)
  /\ (forall i w, threads p !! i = Some (AtIncrement w) ->
        exists p', worker_step E i p = Some p'
          /\ tasks_running p' = (tasks_running p + 1)%Z)
  /\ (forall v, get_tasks_running p = Some v ->
        queue_mutex p = None
        /\ v = counted_total (threads p)
        /\ forall i pc, threads p !! i = Some pc -> holds_lock pc = false)
  /\ (queue_mutex p = None ->
        get_tasks_running p = Some (counted_total (threads p)))
  /\ (forall j, queue_mutex p = Some j -> get_tasks_running p = None)
  /\ (forall i,
        threads p !! i = Some AtLock ->
        queue_mutex p = None ->
        stop p = false ->
        work_queue p = [] ->
        run E (replicate 3 (act_worker i)) p
        = Some (set_thread i Waiting
                  (set_tasks_running (tasks_running p - 1) p),
                [ev_silent; ev_silent; ev_silent]))
  /\ (forall i w q',
        threads p !! i = Some AtLock ->
        queue_mutex p = None ->
        stop p = false ->
        WorkQueue.pop E (work_queue p) = Some (w, q') ->
        exists trace2 trace6 trace8,
          run E (replicate 2 (act_worker i)) p
          = Some (set_thread i AtWait
                    (set_tasks_running (tasks_running p - 1)
                       (set_queue_mutex (Some i) p)), trace2)
          /\ run E (replicate 6 (act_worker i)) p
             = Some (set_thread i (AtUnlock w)
                       (set_work_queue q' (set_queue_mutex (Some i) p)),
                     trace6)
          /\ run E (one_turn i) p
             = Some (set_work_queue q'
                       (set_promises
                          (<[promise_of w := recorded (outcome_of w)]>
                             (promises p)) p),
                     trace8)
          /\ started trace8 = [w]).
Proof.
  intros Hn Hreach.
  pose proof (reachable_inv E n p Hn Hreach) as Hinv.
  destruct Hinv as [[_ Hlen] Hown _ _ _ Hcount _ _ _].
  rewrite (reachable_num_threads E n p Hreach) in Hlen.
  pose proof (counted_total_range (threads p)) as Hrange.
  assert (Hdec : forall i, threads p !! i = Some AtDecrement ->
            size_dec (tasks_running p) = (tasks_running p - 1)%Z).
  { intros i Hi. pose proof (counted_le_total _ _ _ Hi) as Hle. simpl in Hle.
    unfold size_dec, size_max in *. rewrite Z.mod_small; lia. }
  assert (Hinc : forall i w, threads p !! i = Some (AtIncrement w) ->
            size_inc (tasks_running p) = (tasks_running p + 1)%Z).
  { intros i w Hi.
    pose proof (counted_insert_le _ _ _ (AtUnlock w) Hi) as Hle. simpl in Hle.
    unfold size_inc, size_max in *. rewrite Z.mod_small; lia. }
  split; [assumption|]. split; [lia|].
  split; [|split; [|split; [|split; [|split; [|split; [|split]]]]]].
  - intros i p' Hstep Hne. unfold worker_step in Hstep.
    destruct (threads p !! i) as [pc|] eqn:Hpc; [|discriminate].
    pose proof (lookup_lt_Some _ _ _ Hpc) as Hlt.
    assert (Hm : holds_lock pc = true -> queue_mutex p = Some i)
      by (intros; apply Hown; eauto).
    simpl in Hstep.
    destruct pc; simpl in Hstep;
      repeat match type of Hstep with
        | match ?x with _ => _ end = Some _ => destruct x eqn:?; simpl in Hstep
        | (if ?x then _ else _) = Some _ => destruct x eqn:?; simpl in Hstep
        end; try discriminate; injection Hstep as <-; simpl in *;
      try congruence.
    + split; [auto|]. split; [auto|]. left.
      split; [reflexivity|]. split; [apply list_lookup_insert_eq; assumption|].
      eauto.
    + split; [auto|]. split; [auto|]. right. exists work_item.
      split; [reflexivity|]. split; [apply list_lookup_insert_eq; assumption|].
      eauto.
  - intros i Hi. eexists. split.
    + unfold worker_step. rewrite Hi. reflexivity.
    + simpl. eauto.
  - intros i w Hi. eexists. split.
    + unfold worker_step. rewrite Hi. reflexivity.
    + simpl. eauto.
  - intros v Hv. unfold get_tasks_running in Hv.
    destruct (queue_mutex p) eqn:Hm; [discriminate|]. injection Hv as <-.
    split; [reflexivity|]. split; [assumption|].
    intros i pc Hpc. eapply owner_free; eauto.
  - intros Hm. unfold get_tasks_running. rewrite Hm, Hcount. reflexivity.
  - intros j Hm. unfold get_tasks_running. rewrite Hm. reflexivity.
  - intros i Hpc Hm Hstop Hq. apply (park_run E n); assumption.
  - intros i w q' Hpc Hm Hstop Hpop.
    destruct (turn_prefixes E n p i w q' Hn Hreach Hpc Hm Hstop Hpop)
      as [[trace2 H2] [trace6 H6]].
    destruct (one_turn_runs E n p i w q' Hn Hreach Hpc Hm Hstop Hpop)
      as (trace8 & H8 & _ & Hst & _).
    exists trace2, trace6, trace8. auto.
Qed.

Lemma tasks_running_consistent_witness :
  let p : ThreadPool unit Z string :=
    pool_after true 2 [act_submit_task returns_seven tt] in
  let w := mkWorkItem (mkTaskClosure returns_seven tt 0) 0%Z in
  (threads p !! 0 = Some AtLock
   /\ queue_mutex p = None
   /\ stop p = false
   /\ tasks_running p = 2%Z
   /\ WorkQueue.pop true (work_queue p) = Some (w, [])
   /\ get_tasks_running p = Some 2%Z
   /\ (exists trace2 p2,
         run true (replicate 2 (act_worker 0)) p = Some (p2, trace2)
         /\ threads p2 !! 0 = Some AtWait
         /\ queue_mutex p2 = Some 0
         /\ tasks_running p2 = 1%Z
         /\ get_tasks_running p2 = None)
   /\ (exists trace6 p6,
         run true (replicate 6 (act_worker 0)) p = Some (p6, trace6)
         /\ threads p6 !! 0 = Some (AtUnlock w)
         /\ queue_mutex p6 = Some 0
         /\ tasks_running p6 = 2%Z)
   /\ (exists trace8 p8,
         run true (one_turn 0) p = Some (p8, trace8)
         /\ threads p8 !! 0 = Some AtLock
         /\ queue_mutex p8 = None
         /\ tasks_running p8 = 2%Z
         /\ get_tasks_running p8 = Some 2%Z
         /\ started trace8 = [w])).
Proof.
  intros p w.
  assert (Hn : (0 <= 2 <= size_max)%Z) by (unfold size_max; lia).
  assert (Hreach : reachable true 2 p).
  { exists [act_submit_task returns_seven tt]. eexists.
    vm_compute. reflexivity. }
  destruct (tasks_running_consistent true 2 p Hn Hreach)
    as (_ & _ & _ & _ & _ & _ & Hread & _ & _ & Hturn).
  destruct (Hturn 0 w [] eq_refl eq_refl eq_refl eq_refl)
    as (trace2 & trace6 & trace8 & H2 & H6 & H8 & Hst).
  split; [reflexivity|]. split; [reflexivity|]. split; [reflexivity|].
  split; [reflexivity|]. split; [reflexivity|].
  split; [exact (Hread eq_refl)|].
  split; [exists trace2; eexists; split; [exact H2|];
          repeat split; reflexivity|].
  split; [exists trace6; eexists; split; [exact H6|];
          repeat split; reflexivity|].
  exists trace8. eexists. split; [exact H8|].
  repeat split; try reflexivity. exact Hst.
Defined.

(* ===================================================================== *)
(** * Further properties of the code *)
(* ===================================================================== *)

(** ** The work queue as a container *)

Section QueueContainer.
Context {T : Type}.
Implicit Types (q out items : list (WorkItem T)) (w x : WorkItem T).

Lemma push_all_spec (E : bool) items : forall q,
  WorkQueue.built E q ->
  exists q', WorkQueue.push_all E q items = Some q'
    /\ q' ≡ₚ q ++ items /\ WorkQueue.built E q'.
Proof.
  induction items as [|x items IH]; intros q Hb; simpl.
  - exists q. rewrite app_nil_r. auto.
  - destruct (push_spec E q x Hb) as (q1 & Hpush & Hperm).
    rewrite Hpush. simpl.
    destruct (IH q1 (WorkQueue.built_push E q x q1 Hb Hpush))
      as (q2 & Hall & Hperm2 & Hb2).
    exists q2. split; [assumption|]. split; [|assumption].
    rewrite Hperm2, Hperm. simpl. apply Permutation_middle.
Qed.

Lemma pop_n_drains (E : bool) n : forall q,
  WorkQueue.built E q -> length q = n ->
  exists out, WorkQueue.pop_n E n q = Some (out, []) /\ out ≡ₚ q.
Proof.
  induction n as [|n IH]; intros q Hb Hlen; simpl.
  - destruct q; [|discriminate]. exists []. auto.
  - assert (Hne : q <> []) by (intros ->; discriminate).
    destruct (pop_spec E q Hb Hne) as (w & q' & Hpop & Hperm).
    rewrite Hpop. simpl.
    assert (Hlen' : length q' = n).
    { apply Permutation_length in Hperm. simpl in Hperm. lia. }
    destruct (IH q' (WorkQueue.built_pop E q w q' Hb Hpop) Hlen')
      as (out & Hout & Hperm').
    rewrite Hout. simpl. exists (w :: out). split; [reflexivity|].
    rewrite Hperm, Hperm'. reflexivity.
Qed.

Lemma pop_n_too_many (E : bool) n : forall q,
  WorkQueue.built E q -> length q = n ->
  WorkQueue.pop_n E (S n) q = None.
Proof.
  induction n as [|n IH]; intros q Hb Hlen.
  - destruct q; [|discriminate]. simpl. rewrite pop_nil. reflexivity.
  - assert (Hne : q <> []) by (intros ->; discriminate).
    destruct (pop_spec E q Hb Hne) as (w & q' & Hpop & Hperm).
    assert (Hlen' : length q' = n).
    { apply Permutation_length in Hperm. simpl in Hperm. lia. }
    pose proof (IH q' (WorkQueue.built_pop E q w q' Hb Hpop) Hlen') as Hnone.
    change (WorkQueue.pop_n E (S (S n)) q)
      with ('(work_item, work_queue) ← WorkQueue.pop E q;
            '(rest, work_queue) ← WorkQueue.pop_n E (S n) work_queue;
            Some (work_item :: rest, work_queue)).
    rewrite Hpop. simpl in *. rewrite Hnone. reflexivity.
Qed.

(** X1.  [push] never fails on the queue of a pool, whichever strategy is
    in force: the queue afterwards holds the new item and what it held
    before, nothing else, it is one longer and it is not empty. *)
Theorem push_adds_exactly_the_item (E : bool) q x :
  WorkQueue.built E q ->
  exists q',
    WorkQueue.push E q x = Some q'
    /\ q' ≡ₚ x :: q
    /\ length q' = S (length q)
    /\ WorkQueue.empty q' = false.
Proof.
  intros Hb. destruct (push_spec E q x Hb) as (q' & Hpush & Hperm).
  exists q'. split; [assumption|]. split; [assumption|].
  pose proof (Permutation_length Hperm) as Hlen. simpl in Hlen.
  split; [assumption|]. destruct q'; [discriminate|reflexivity].
Qed.

(** X2.  Whatever is pushed comes out again, once: after any batch of
    pushes on the empty queue, as many pops return the items of the batch,
    each as often as it was pushed, and leave the queue empty; one pop more
    is undefined.  This holds for both strategies. *)
Theorem pops_return_what_was_pushed (E : bool) items :
  exists q out,
    WorkQueue.push_all E [] items = Some q
    /\ WorkQueue.pop_n E (length items) q = Some (out, [])
    /\ out ≡ₚ items
    /\ WorkQueue.pop_n E (S (length items)) q = None.
Proof.
  destruct (push_all_spec E items [] (WorkQueue.built_nil E))
    as (q & Hall & Hperm & Hb).
  simpl in Hperm. pose proof (Permutation_length Hperm) as Hlen.
  destruct (pop_n_drains E (length items) q Hb Hlen) as (out & Hout & Hperm').
  exists q, out. split; [assumption|]. split; [assumption|].
  split; [rewrite Hperm', Hperm; reflexivity|].
  apply pop_n_too_many; assumption.
Qed.

(** X3.  With priority scheduling, popping a whole batch returns it in
    order of priority, highest first: the items of the batch, each once,
    and none of them before an item of strictly higher priority. *)
Theorem priority_drain_is_sorted items :
  exists q out,
    WorkQueue.push_all true [] items = Some q
    /\ WorkQueue.pop_n true (length items) q = Some (out, [])
    /\ out ≡ₚ items
    /\ forall i j x y, i < j -> out !! i = Some x -> out !! j = Some y ->
         (priority y <= priority x)%Z.
Proof.
  destruct (push_all_spec true items [] (WorkQueue.built_nil true))
    as (q & Hall & Hperm & Hb).
  simpl in Hperm. pose proof (Permutation_length Hperm) as Hlen.
  destruct (pop_n_drains true (length items) q Hb Hlen) as (out & Hout & Hperm').
  exists q, out. split; [assumption|]. split; [assumption|].
  split; [rewrite Hperm', Hperm; reflexivity|].
  intros i j x y. eapply priority_pop_n_sorted; eauto.
Qed.

End QueueContainer.

Lemma push_adds_exactly_the_item_witness :
  exists q',
    WorkQueue.push true two_priorities (mkWorkItem 3 1%Z) = Some q'
    /\ q' ≡ₚ mkWorkItem 3 1%Z :: two_priorities
    /\ length q' = S (length two_priorities)
    /\ WorkQueue.empty q' = false.
Proof.
  apply (push_adds_exactly_the_item true two_priorities (mkWorkItem 3 1%Z)).
  exact two_priorities_built.
Defined.

(** ** What holds in every state of a running pool *)

Section ReachableProperties.
Context {Args V Exn : Type} (E : bool).
Implicit Types (p : ThreadPool Args V Exn)
  (pc : WorkerPC (TaskClosure Args V Exn)).

(** X4.  The number of threads is fixed by the constructor: in every state
    of a running pool [thread_count] is the constructor's argument and the
    vector of workers has that length. *)
Theorem thread_count_is_fixed (n : Z) p :
  (0 <= n <= size_max)%Z ->
  reachable E n p ->
  thread_count p = n /\ Z.of_nat (length (threads p)) = n.
Proof.
  intros Hn Hreach.
  pose proof (reachable_num_threads E n p Hreach) as Hnum.
  destruct (inv_size E p (reachable_inv E n p Hn Hreach)) as [_ Hlen].
  unfold thread_count. split; [assumption|]. rewrite Hlen, Hnum. lia.
Qed.

(** X5.  No worker of a running pool is ever lost: none ends in
    [std::terminate] through an exception of a task, and none calls [pop]
    on an empty queue. *)
Theorem workers_never_crash (n : Z) p i pc :
  (0 <= n <= size_max)%Z ->
  reachable E n p ->
  threads p !! i = Some pc ->
  pc <> Terminated /\ pc <> Undefined.
Proof.
  intros Hn Hreach Hpc.
  exact (inv_alive E p (reachable_inv E n p Hn Hreach) i pc Hpc).
Qed.

(** X6.  The work items that are queued or held by a worker have pairwise
    distinct promises, and none of these promises has been written. *)
Theorem pending_promises_distinct_and_unwritten (n : Z) p :
  (0 <= n <= size_max)%Z ->
  reachable E n p ->
  NoDup (map promise_of (pending p))
  /\ forall w, w ∈ pending p -> promises p !! promise_of w = Some not_ready.
Proof.
  intros Hn Hreach. pose proof (reachable_inv E n p Hn Hreach) as Hinv.
  split; [exact (inv_fresh E p Hinv)|exact (inv_not_ready E p Hinv)].
Qed.

(** X7.  At most one worker is between its lock and its unlock, and it is
    the owner of the mutex; while the mutex is free no worker is there. *)
Theorem one_worker_in_the_critical_section (n : Z) p i j pci pcj :
  (0 <= n <= size_max)%Z ->
  reachable E n p ->
  threads p !! i = Some pci -> holds_lock pci = true ->
  threads p !! j = Some pcj -> holds_lock pcj = true ->
  i = j /\ queue_mutex p = Some i.
Proof.
  intros Hn Hreach Hi Hli Hj Hlj.
  pose proof (inv_owner E p (reachable_inv E n p Hn Hreach)) as Hown.
  split; [eapply owner_unique; eauto|]. apply Hown. eauto.
Qed.

End ReachableProperties.

Lemma thread_count_is_fixed_witness :
  thread_count at_the_pop = 2%Z /\ Z.of_nat (length (threads at_the_pop)) = 2%Z.
Proof.
  apply (thread_count_is_fixed true 2 at_the_pop).
  - unfold size_max. lia.
  - exists (act_submit_task returns_seven tt :: replicate 4 (act_worker 0)).
    eexists. vm_compute. reflexivity.
Defined.

Lemma workers_never_crash_witness :
  Executing (mkWorkItem (mkTaskClosure raises_boom tt 0) (to_Priority 0))
    <> Terminated
  /\ Executing (mkWorkItem (mkTaskClosure raises_boom tt 0) (to_Priority 0))
    <> Undefined.
Proof.
  apply (workers_never_crash false 1 about_to_throw 0).
  - unfold size_max. lia.
  - exists (act_submit_task raises_boom tt :: to_the_task 0). eexists.
    vm_compute. reflexivity.
  - vm_compute. reflexivity.
Defined.

Lemma pending_promises_distinct_and_unwritten_witness :
  NoDup (map promise_of (pending at_the_increment))
  /\ forall w, w ∈ pending at_the_increment ->
       promises at_the_increment !! promise_of w = Some not_ready.
Proof.
  apply (pending_promises_distinct_and_unwritten true 2 at_the_increment).
  - unfold size_max. lia.
  - exists (act_submit_task returns_seven tt :: replicate 5 (act_worker 0)).
    eexists. vm_compute. reflexivity.
Defined.

Lemma one_worker_in_the_critical_section_witness :
  0 = 0 /\ queue_mutex at_the_pop = Some 0.
Proof.
  apply (one_worker_in_the_critical_section true 2 at_the_pop 0 0 AtPop AtPop).
  - unfold size_max. lia.
  - exists (act_submit_task returns_seven tt :: replicate 4 (act_worker 0)).
    eexists. vm_compute. reflexivity.
  - vm_compute. reflexivity.
  - reflexivity.
  - vm_compute. reflexivity.
  - reflexivity.
Defined.

(** ** Every submitted task is accounted for *)

Section Conservation.
Context {Args V Exn : Type} (E : bool).
Implicit Types (p : ThreadPool Args V Exn)
  (w : WorkItem (TaskClosure Args V Exn)).

(** What one action does to the pending items and to the promises. *)
Lemma exec_effect a p p' :
  pool_inv E p -> exec E a p = Some p' ->
  pending p ++ pushed [event_of E a p]
    ≡ₚ started [event_of E a p] ++ pending p'
  /\ ((promises p' = promises p
       /\ pushed [event_of E a p] = [] /\ started [event_of E a p] = [])
      \/ (exists w, started [event_of E a p] = [w]
            /\ pushed [event_of E a p] = []
            /\ w ∈ pending p
            /\ promises p'
               = <[promise_of w := recorded (outcome_of w)]> (promises p))
      \/ (exists w, pushed [event_of E a p] = [w]
            /\ started [event_of E a p] = []
            /\ promises p !! promise_of w = None
            /\ promises p'
               = <[promise_of w := not_ready]> (promises p))).
Proof.
  intros Hinv Hexec.
  assert (Hsub : forall priority f args fut,
            submit_task_helper E priority f args p = Some (fut, p') ->
            let w := mkWorkItem
                       (mkTaskClosure f args (fresh (dom (promises p))))
                       priority in
            pending p ++ [w] ≡ₚ pending p'
            /\ promises p !! promise_of w = None
            /\ promises p' = <[promise_of w := not_ready]> (promises p)).
  { intros priority f args fut Hsub w. unfold submit_task_helper in Hsub.
    destruct (queue_mutex p); [discriminate|].
    destruct (WorkQueue.push E (work_queue p) _) as [q'|] eqn:Hpush;
      [|discriminate].
    simpl in Hsub. injection Hsub as _ <-. unfold pending. simpl.
    split; [|split; [|reflexivity]].
    - rewrite (push_perm E _ _ _ (inv_queue E p Hinv) Hpush).
      fold w. simpl. rewrite <- Permutation_cons_append. reflexivity.
    - apply not_elem_of_dom, is_fresh. }
  destruct a as [i|f args|priority f args| |]; simpl in Hexec.
  - unfold worker_step in Hexec. simpl.
    destruct (threads p !! i) as [pc|] eqn:Hpc; [|discriminate].
    simpl in Hexec. unfold pending.
    destruct pc; simpl in Hexec; try discriminate.
    1-5,7-8: repeat match type of Hexec with
        | match ?x with _ => _ end = Some _ => destruct x eqn:?; simpl in Hexec
        | (if ?x then _ else _) = Some _ => destruct x eqn:?; simpl in Hexec
        end; try discriminate; injection Hexec as <-; simpl;
        rewrite (held_insert_same _ _ _ _ Hpc) by reflexivity;
        rewrite app_nil_r; (split; [reflexivity|left; auto]).
    + (* AtPop *)
      destruct (inv_pop E p Hinv i Hpc) as [_ Hne].
      destruct (pop_spec E _ (inv_queue E p Hinv) Hne) as (w & q' & Hpop & Hperm).
      rewrite Hpop in *. injection Hexec as <-. simpl.
      split; [|left; auto]. rewrite app_nil_r.
      pose proof (held_insert_perm (threads p) i AtPop (AtIncrement w) Hpc) as Hh.
      simpl in Hh. rewrite app_nil_r in Hh. rewrite Hh, Hperm. simpl.
      apply Permutation_middle.
    + (* Executing *)
      assert (Hin : work_item ∈ pending p).
      { unfold pending. apply elem_of_app. right.
        apply list_elem_of_In, in_flat_map. exists (Executing work_item).
        split; [|simpl; auto].
        apply list_elem_of_In. eapply list_elem_of_lookup_2; eauto. }
      rewrite TaskClosure_call_not_ready in Hexec
        by (apply (inv_not_ready E p Hinv); assumption).
      injection Hexec as <-. simpl. split.
      * rewrite app_nil_r.
        pose proof (held_insert_perm (threads p) i (Executing work_item) AtLock
                      Hpc) as Hh.
        simpl in Hh. rewrite <- Hh, app_assoc.
        symmetry. apply Permutation_cons_append.
      * right. left. exists work_item. auto.
  - unfold submit_task in Hexec.
    destruct (submit_task_helper E _ f args p) as [[fut p1]|] eqn:Hsubmit;
      [|discriminate].
    simpl in Hexec. injection Hexec as <-.
    destruct (Hsub _ _ _ _ Hsubmit) as (Hperm & Hnone & Hprom).
    split; [exact Hperm|]. right. right. eexists. eauto.
  - unfold submit_priority_task, static_assert in Hexec.
    destruct E eqn:HE in Hexec at 1; [|discriminate].
    destruct (submit_task_helper E _ f args p) as [[fut p1]|] eqn:Hsubmit;
      [|discriminate].
    simpl in Hexec. injection Hexec as <-.
    destruct (Hsub _ _ _ _ Hsubmit) as (Hperm & Hnone & Hprom).
    split; [exact Hperm|]. right. right. eexists. eauto.
  - destruct (get_tasks_running p); [|discriminate].
    simpl in Hexec. injection Hexec as <-. simpl.
    split; [rewrite app_nil_r; reflexivity|left; auto].
  - unfold destroy in Hexec. destruct (queue_mutex p); [discriminate|].
    injection Hexec as <-. simpl. split; [rewrite app_nil_r; reflexivity|left; auto].
Qed.

Lemma run_conserves acts : forall p p' trace,
  pool_inv E p -> run E acts p = Some (p', trace) ->
  pending p ++ pushed trace ≡ₚ started trace ++ pending p'.
Proof.
  induction acts as [|a acts IH]; intros p p' trace Hinv Hrun; simpl in Hrun.
  - injection Hrun as <- <-. simpl. rewrite app_nil_r. reflexivity.
  - destruct (exec E a p) as [p1|] eqn:Hexec; [|discriminate]. simpl in Hrun.
    destruct (run E acts p1) as [[p2 tr2]|] eqn:Hrun1; [|discriminate].
    simpl in Hrun. injection Hrun as <- <-.
    destruct (exec_effect a p p1 Hinv Hexec) as [Hstep _].
    rewrite pushed_cons, started_cons, app_assoc, Hstep, <- !app_assoc.
    f_equiv. apply IH; [eapply exec_inv; eauto|assumption].
Qed.

(** X8.  No submitted task is lost or run twice: in every run of a pool,
    under either strategy, the submissions are, counted with multiplicity,
    the tasks that were started, those a worker holds and those still
    queued. *)
Theorem submissions_are_conserved (n : Z) acts p trace :
  (0 <= n <= size_max)%Z ->
  run E acts (ThreadPool_new n) = Some (p, trace) ->
  pushed trace
    ≡ₚ started trace ++ flat_map held (threads p) ++ work_queue p.
Proof.
  intros Hn Hrun.
  pose proof (run_conserves acts _ _ _ (pool_inv_new E n Hn) Hrun) as H.
  unfold pending in H. simpl in H. rewrite held_replicate in H. simpl in H.
  rewrite H. f_equiv. apply Permutation_app_comm.
Qed.

Lemma exec_integrity a p p' submitted :
  pool_inv E p -> integrity submitted p -> exec E a p = Some p' ->
  integrity (submitted ++ pushed [event_of E a p]) p'.
Proof.
  intros Hinv (Hnd & Hstate & Hpend) Hexec.
  destruct (exec_effect a p p' Hinv Hexec) as [Hperm Hcases].
  assert (Hpend' : forall w, w ∈ pending p' ->
            w ∈ submitted ++ pushed [event_of E a p]).
  { intros w Hw.
    assert (Hw' : w ∈ started [event_of E a p] ++ pending p')
      by (apply elem_of_app; auto).
    rewrite <- Hperm in Hw'. apply elem_of_app in Hw' as [Hw'|Hw'];
      apply elem_of_app; auto. }
  unfold integrity.
  destruct Hcases as [(Hp & Hpu & _)|[(w & _ & Hpu & Hw & Hp)|(w & Hpu & _ & Hnone & Hp)]].
  - rewrite Hpu, app_nil_r in *. rewrite Hp. repeat split; auto.
  - rewrite Hpu, app_nil_r in *. rewrite Hp. split; [assumption|].
    split; [|assumption].
    intros w' Hw'.
    destruct (decide (promise_of w' = promise_of w)) as [Heq|Hne].
    + assert (w' = w) as ->.
      { apply Hpend in Hw.
        apply list_elem_of_lookup_1 in Hw as [k Hk].
        apply list_elem_of_lookup_1 in Hw' as [k' Hk'].
        assert (k' = k).
        { apply (NoDup_lookup (map promise_of submitted) k' k (promise_of w) Hnd);
            rewrite list_lookup_fmap; [rewrite Hk'|rewrite Hk]; simpl;
            congruence. }
        congruence. }
      right. apply lookup_insert_eq.
    + rewrite lookup_insert_ne by auto. auto.
  - rewrite Hpu in *. rewrite Hp. split; [|split; [|assumption]].
    + rewrite map_app. simpl. apply NoDup_app. split; [assumption|].
      split; [|apply NoDup_singleton].
      intros pr Hpr Hin. apply list_elem_of_singleton in Hin as ->.
      apply list_elem_of_fmap in Hpr as (w' & Heq & Hw').
      destruct (Hstate w' Hw') as [H|H]; congruence.
    + intros w' Hw'. apply elem_of_app in Hw' as [Hw'|Hw'].
      * assert (promise_of w' <> promise_of w).
        { intros Heq. destruct (Hstate w' Hw') as [H|H]; congruence. }
        rewrite lookup_insert_ne by auto. auto.
      * apply list_elem_of_singleton in Hw' as ->. left. apply lookup_insert_eq.
Qed.

Lemma run_integrity acts : forall p p' trace submitted,
  pool_inv E p -> integrity submitted p ->
  run E acts p = Some (p', trace) ->
  integrity (submitted ++ pushed trace) p'.
Proof.
  induction acts as [|a acts IH]; intros p p' trace submitted Hinv Hint Hrun;
    simpl in Hrun.
  - injection Hrun as <- <-. simpl. rewrite app_nil_r. assumption.
  - destruct (exec E a p) as [p1|] eqn:Hexec; [|discriminate]. simpl in Hrun.
    destruct (run E acts p1) as [[p2 tr2]|] eqn:Hrun1; [|discriminate].
    simpl in Hrun. injection Hrun as <- <-.
    rewrite pushed_cons, app_assoc.
    apply (IH p1); [eapply exec_inv; eauto| |assumption].
    apply exec_integrity; assumption.
Qed.

Lemma integrity_new (n : Z) :
  integrity [] (ThreadPool_new n : ThreadPool Args V Exn).
Proof.
  split; [constructor|]. split.
  - intros w Hw. apply elem_of_nil in Hw. contradiction.
  - unfold pending. simpl. rewrite held_replicate. auto.
Qed.

(** X10.  Every submission gets a promise of its own: the futures returned
    in a run point to pairwise distinct shared states. *)
Theorem submissions_get_distinct_promises (n : Z) acts p trace :
  (0 <= n <= size_max)%Z ->
  run E acts (ThreadPool_new n) = Some (p, trace) ->
  NoDup (map promise_of (pushed trace)).
Proof.
  intros Hn Hrun.
  destruct (run_integrity acts _ _ _ [] (pool_inv_new E n Hn) (integrity_new n)
              Hrun) as (Hnd & _).
  exact Hnd.
Qed.

End Conservation.

Lemma two_then_run_runs :
  run false two_then_run (ThreadPool_new 1)
  = Some (pool_after false 1 two_then_run, trace_after false 1 two_then_run).
Proof. vm_compute. reflexivity. Defined.

Lemma submissions_are_conserved_witness :
  pushed (trace_after false 1 two_then_run)
    ≡ₚ started (trace_after false 1 two_then_run)
       ++ flat_map held (threads (pool_after false 1 two_then_run))
       ++ work_queue (pool_after false 1 two_then_run).
Proof.
  apply (submissions_are_conserved false 1 two_then_run).
  - unfold size_max. lia.
  - exact two_then_run_runs.
Defined.

Lemma submissions_get_distinct_promises_witness :
  NoDup (map promise_of (pushed (trace_after false 1 two_then_run))).
Proof.
  apply (submissions_get_distinct_promises false 1 two_then_run
           (pool_after false 1 two_then_run)).
  - unfold size_max. lia.
  - exact two_then_run_runs.
Defined.

(** ** What the destructor leaves behind *)

Section DestructorProofs.
Context {Args V Exn : Type} (E : bool).
Implicit Types (p : ThreadPool Args V Exn)
  (w : WorkItem (TaskClosure Args V Exn))
  (q : list (WorkItem (TaskClosure Args V Exn)))
  (h : gmap nat (shared_state V Exn)).

Lemma started_app (tr1 tr2 : list (Event Args V Exn)) :
  started (tr1 ++ tr2) = started tr1 ++ started tr2.
Proof. unfold started. apply flat_map_app. Qed.

Lemma pushed_app (tr1 tr2 : list (Event Args V Exn)) :
  pushed (tr1 ++ tr2) = pushed tr1 ++ pushed tr2.
Proof. unfold pushed. apply flat_map_app. Qed.

Lemma recorded_ready (o : Outcome V Exn) : recorded o <> not_ready.
Proof. destruct o; discriminate. Qed.

Lemma future_get_exception k h (e : exception_ptr Exn) :
  h !! k = Some (has_exception e) ->
  future_get (V:=V) (mkFuture k true) h = Some (throws e, mkFuture k false).
Proof. intros Hk. unfold future_get. simpl. rewrite Hk. reflexivity. Qed.

(** *** The destructor of one promise *)

Lemma promise_destroy_other k pr h :
  k <> pr -> promise_destroy pr h !! k = h !! k.
Proof.
  intros Hne. unfold promise_destroy.
  destruct (h !! pr) as [[| |]|]; try reflexivity.
  apply lookup_insert_ne. auto.
Qed.

Lemma promise_destroy_ready k pr h s :
  h !! k = Some s -> s <> not_ready -> promise_destroy pr h !! k = Some s.
Proof.
  intros Hk Hs. destruct (decide (k = pr)) as [->|Hne].
  - unfold promise_destroy. rewrite Hk. destruct s; congruence.
  - rewrite promise_destroy_other by assumption. assumption.
Qed.

Lemma promise_destroy_not_ready pr h :
  h !! pr = Some not_ready ->
  promise_destroy pr h !! pr
  = Some (has_exception (future_error broken_promise)).
Proof.
  intros Hpr. unfold promise_destroy. rewrite Hpr. apply lookup_insert_eq.
Qed.

(** *** The destruction of the queue *)

Lemma destroy_queue_ready q : forall h k s,
  h !! k = Some s -> s <> not_ready ->
  (foldl (fun h w => promise_destroy (closure_promise (task w)) h) h q) !! k
  = Some s.
Proof.
  induction q as [|x q IH]; intros h k s Hk Hs; simpl; [assumption|].
  apply IH; [|assumption]. apply promise_destroy_ready; assumption.
Qed.

Lemma destroy_queue_other q : forall h k,
  k ∉ map promise_of q ->
  (foldl (fun h w => promise_destroy (closure_promise (task w)) h) h q) !! k
  = h !! k.
Proof.
  induction q as [|x q IH]; intros h k Hk; simpl; [reflexivity|].
  rewrite IH.
  - apply promise_destroy_other. intros ->. apply Hk. simpl.
    apply elem_of_cons. left. reflexivity.
  - intros Hin. apply Hk. simpl. apply elem_of_cons. auto.
Qed.

Lemma destroy_queue_queued q : forall h w,
  w ∈ q -> h !! promise_of w = Some not_ready ->
  (foldl (fun h w => promise_destroy (closure_promise (task w)) h) h q)
    !! promise_of w
  = Some (has_exception (future_error broken_promise)).
Proof.
  induction q as [|x q IH]; intros h w Hw Hnr; simpl.
  - apply elem_of_nil in Hw. contradiction.
  - destruct (decide (promise_of w = promise_of x)) as [Heq|Hne].
    + apply destroy_queue_ready; [|discriminate].
      unfold promise_of in *. rewrite <- Heq.
      apply promise_destroy_not_ready. assumption.
    + apply elem_of_cons in Hw as [->|Hw]; [congruence|].
      apply IH; [assumption|].
      unfold promise_of in *.
      rewrite promise_destroy_other by assumption. assumption.
Qed.

Lemma destroy_members_ready p k s :
  promises p !! k = Some s -> s <> not_ready ->
  destroy_members p !! k = Some s.
Proof. apply destroy_queue_ready. Qed.

Lemma destroy_members_other p k :
  k ∉ map promise_of (work_queue p) ->
  destroy_members p !! k = promises p !! k.
Proof. apply destroy_queue_other. Qed.

Lemma destroy_members_queued p w :
  w ∈ work_queue p -> promises p !! promise_of w = Some not_ready ->
  destroy_members p !! promise_of w
  = Some (has_exception (future_error broken_promise)).
Proof. apply destroy_queue_queued. Qed.

(** *** The state at the end of the join loop *)

Lemma joined_held (ts : list (WorkerPC (TaskClosure Args V Exn))) :
  forallb is_Stopped ts = true -> flat_map held ts = [].
Proof.
  induction ts as [|pc ts IH]; [reflexivity|]. simpl.
  intros H. apply andb_prop in H as [Hpc Hts].
  destruct pc; try discriminate. simpl. auto.
Qed.

(** A task that was started has its outcome in its promise from then on. *)
Lemma run_started_recorded acts : forall p p' trace w,
  pool_inv E p -> run E acts p = Some (p', trace) ->
  w ∈ started trace ->
  promises p' !! promise_of w = Some (recorded (outcome_of w)).
Proof.
  induction acts as [|a acts IH]; intros p p' trace w Hinv Hrun Hw;
    simpl in Hrun.
  - injection Hrun as <- <-. apply elem_of_nil in Hw. contradiction.
  - destruct (exec E a p) as [p1|] eqn:Hexec; [|discriminate]. simpl in Hrun.
    destruct (run E acts p1) as [[p2 tr2]|] eqn:Hrun1; [|discriminate].
    simpl in Hrun. injection Hrun as <- <-.
    rewrite started_cons in Hw. apply elem_of_app in Hw as [Hw|Hw].
    + destruct (exec_effect E a p p1 Hinv Hexec) as [_ Hcases].
      destruct Hcases as [(_ & _ & Hst)|[(w' & Hst & _ & _ & Hp)|(w' & _ & Hst & _)]];
        rewrite Hst in Hw.
      * apply elem_of_nil in Hw. contradiction.
      * apply list_elem_of_singleton in Hw as ->.
        apply (run_keeps_ready E _ _ _ _ _ _ Hrun1); [|apply recorded_ready].
        rewrite Hp. apply lookup_insert_eq.
      * apply elem_of_nil in Hw. contradiction.
    + apply (IH p1 p2 tr2); [eapply exec_inv; eauto|assumption|assumption].
Qed.

(** Once the workers have been joined, every submitted task has been
    started, and then has its outcome recorded, or is still in the queue,
    never started, and is abandoned with the queue. *)
Lemma after_joined (n : Z) acts p trace w :
  (0 <= n <= size_max)%Z ->
  run E acts (ThreadPool_new n) = Some (p, trace) ->
  joined p = true ->
  w ∈ pushed trace ->
  (w ∈ started trace
   /\ destroy_members p !! promise_of w = Some (recorded (outcome_of w)))
  \/ (w ∈ work_queue p /\ (w ∉ started trace)
      /\ destroy_members p !! promise_of w
         = Some (has_exception (future_error broken_promise))).
Proof.
  intros Hn Hrun Hj Hw.
  assert (Hinv0 : pool_inv E (ThreadPool_new n : ThreadPool Args V Exn))
    by (apply pool_inv_new; assumption).
  pose proof (run_inv E _ _ _ _ Hinv0 Hrun) as Hinv.
  pose proof (run_conserves E acts _ _ _ Hinv0 Hrun) as Hcons.
  destruct (run_integrity E acts _ _ _ [] Hinv0 (integrity_new n) Hrun)
    as (Hnd & _ & _).
  simpl in Hnd.
  assert (Hperm : pushed trace ≡ₚ started trace ++ work_queue p).
  { unfold pending in Hcons. simpl in Hcons.
    rewrite held_replicate in Hcons. simpl in Hcons.
    unfold joined in Hj. rewrite (joined_held _ Hj), app_nil_r in Hcons.
    exact Hcons. }
  assert (Hnd' : NoDup (started trace ++ work_queue p)).
  { rewrite <- Hperm. eapply NoDup_fmap_1. exact Hnd. }
  apply NoDup_app in Hnd' as (_ & Hdisj & _).
  rewrite Hperm in Hw. apply elem_of_app in Hw as [Hw|Hw]; [left|right].
  - split; [assumption|].
    apply destroy_members_ready; [|apply recorded_ready].
    apply (run_started_recorded acts _ _ _ _ Hinv0 Hrun Hw).
  - split; [assumption|]. split; [intros Hs; exact (Hdisj w Hs Hw)|].
    apply destroy_members_queued; [assumption|].
    apply (inv_not_ready E p Hinv). unfold pending.
    apply elem_of_app. left. assumption.
Qed.

(** The destructor as a run of the pool that ends with every worker
    joined. *)
Lemma ThreadPool_destructor_run meanwhile p trace h :
  ThreadPool_destructor E meanwhile p = Some (trace, h) ->
  exists p',
    run E (act_destroy :: meanwhile) p = Some (p', ev_silent :: trace)
    /\ joined p' = true
    /\ h = destroy_members p'.
Proof.
  unfold ThreadPool_destructor. intros H.
  destruct (destroy p) as [p1|] eqn:Hd; [|discriminate]. simpl in H.
  destruct (run E meanwhile p1) as [[p2 tr2]|] eqn:Hrun; [|discriminate].
  simpl in H. destruct (joined p2) eqn:Hj; [|discriminate].
  injection H as <- <-. exists p2. split; [|auto].
  simpl. rewrite Hd. simpl. rewrite Hrun. reflexivity.
Qed.

(** X9.  A future resolves to the outcome of its own callable or, when its
    task is abandoned, to a broken promise; nothing else.  While the pool
    exists, the shared state of each submitted task is not ready, so that
    reading its future blocks, or holds what that task's callable returned
    or raised, and reading gives exactly that.  Once the destructor has
    run to its end, whatever the other threads did while it joined the
    workers, every future is ready: that of a task that was started gives
    the task's own outcome, that of a task that never was throws
    [future_error(broken_promise)]. *)
Theorem future_yields_own_outcome_or_broken_promise (n : Z) acts p trace w :
  (0 <= n <= size_max)%Z ->
  run E acts (ThreadPool_new n) = Some (p, trace) ->
  w ∈ pushed trace ->
  ((promises p !! promise_of w = Some not_ready
    /\ future_get (future_of w) (promises p) = None)
   \/ (promises p !! promise_of w = Some (recorded (outcome_of w))
       /\ future_get (future_of w) (promises p)
          = Some (delivered (outcome_of w), mkFuture (promise_of w) false)))
  /\ forall meanwhile trace' h,
       ThreadPool_destructor E meanwhile p = Some (trace', h) ->
       (w ∈ started (trace ++ trace')
        /\ future_get (future_of w) h
           = Some (delivered (outcome_of w), mkFuture (promise_of w) false))
       \/ ((w ∉ started (trace ++ trace'))
           /\ future_get (future_of w) h
              = Some (throws (future_error broken_promise),
                      mkFuture (promise_of w) false)).
Proof.
  intros Hn Hrun Hw. split.
  - destruct (run_integrity E acts _ _ _ [] (pool_inv_new E n Hn)
                (integrity_new n) Hrun) as (_ & Hstate & _).
    destruct (Hstate w Hw) as [H|H]; [left|right]; (split; [assumption|]).
    + apply future_get_not_ready. assumption.
    + apply future_get_recorded. assumption.
  - intros meanwhile trace' h Hd.
    destruct (ThreadPool_destructor_run _ _ _ _ Hd) as (p' & Hrun' & Hj & ->).
    assert (Hall : run E (acts ++ act_destroy :: meanwhile) (ThreadPool_new n)
                   = Some (p', trace ++ ev_silent :: trace'))
      by (rewrite (run_app E _ _ _ _ _ Hrun), Hrun'; reflexivity).
    assert (Hst : started (trace ++ ev_silent :: trace')
                  = started (trace ++ trace'))
      by (rewrite !started_app; reflexivity).
    assert (Hw' : w ∈ pushed (trace ++ ev_silent :: trace'))
      by (rewrite pushed_app; apply elem_of_app; auto).
    destruct (after_joined n _ _ _ w Hn Hall Hj Hw')
      as [[Hs Hh]|(_ & Hs & Hh)]; rewrite Hst in Hs; [left|right];
      (split; [assumption|]).
    + apply future_get_recorded. assumption.
    + apply future_get_exception. assumption.
Qed.

End DestructorProofs.

(** One worker, two tasks: the first has been run, the second is still
    queued when the pool is destroyed. *)
Lemma future_yields_own_outcome_or_broken_promise_witness :
  let p := pool_after false 1 two_then_run in
  let trace := trace_after false 1 two_then_run in
  let w := mkWorkItem (mkTaskClosure raises_boom tt 1) (to_Priority 0) in
  let leave : list (Action unit Z string) := replicate 4 (act_worker 0) in
  (w ∈ pushed trace
   /\ ThreadPool_destructor false leave p
      = Some (replicate 4 ev_silent,
              {[ 0 := has_value 7%Z;
                 1 := has_exception (future_error broken_promise) ]}))
  /\ ((promises p !! promise_of w = Some not_ready
       /\ future_get (future_of w) (promises p) = None)
      \/ (promises p !! promise_of w = Some (recorded (outcome_of w))
          /\ future_get (future_of w) (promises p)
             = Some (delivered (outcome_of w), mkFuture (promise_of w) false)))
  /\ forall meanwhile trace' h,
       ThreadPool_destructor false meanwhile p = Some (trace', h) ->
       (w ∈ started (trace ++ trace')
        /\ future_get (future_of w) h
           = Some (delivered (outcome_of w), mkFuture (promise_of w) false))
       \/ ((w ∉ started (trace ++ trace'))
           /\ future_get (future_of w) h
              = Some (throws (future_error broken_promise),
                      mkFuture (promise_of w) false)).
Proof.
  intros p trace w leave.
  assert (Hw : w ∈ pushed trace).
  { apply list_elem_of_In. vm_compute. right. left. reflexivity. }
  split; [split; [exact Hw|vm_compute; reflexivity]|].
  apply (future_yields_own_outcome_or_broken_promise false 1 two_then_run p
           trace w).
  - unfold size_max. lia.
  - exact two_then_run_runs.
  - exact Hw.
Defined.

(** ** The closure and a promise that is already satisfied *)

Section ClosureEdges.
Context {Args V Exn : Type}.
Implicit Types (c : TaskClosure Args V Exn) (h : gmap nat (shared_state V Exn)).

Lemma TaskClosure_call_ready c h s :
  h !! closure_promise c = Some s ->
  s <> not_ready ->
  TaskClosure_call c h = (throws (future_error promise_already_satisfied), h).
Proof.
  intros Hp Hs. unfold TaskClosure_call, try_catch, bind, invoke.
  destruct (closure_f c (closure_args c)) as [v|e]; simpl.
  - rewrite (set_value_ready _ _ _ _ Hp Hs).
    apply (set_exception_ready _ _ _ _ Hp Hs).
  - unfold throw. apply (set_exception_ready _ _ _ _ Hp Hs).
Qed.

(** X11.  Calling the closure of a task whose promise is already satisfied
    records nothing: whether the callable returns or raises, the call ends
    with [future_error(promise_already_satisfied)] thrown out of the
    closure, past its [catch], and every shared state is as before. *)
Theorem closure_on_satisfied_promise_throws c h s :
  h !! closure_promise c = Some s ->
  s <> not_ready ->
  TaskClosure_call c h = (throws (future_error promise_already_satisfied), h).
Proof. exact (TaskClosure_call_ready c h s). Qed.

(** X12.  The closure of a task writes to no shared state but its own:
    whatever the heap and whatever the callable does, every other promise
    reads after the call as it did before. *)
Theorem closure_touches_only_its_promise c h pr :
  pr <> closure_promise c ->
  (TaskClosure_call c h).2 !! pr = h !! pr.
Proof.
  intros Hne.
  destruct (h !! closure_promise c) as [s|] eqn:Hp.
  - assert (s = not_ready \/ s <> not_ready) as [->|Hs]
      by (destruct s; auto; right; discriminate).
    + rewrite TaskClosure_call_not_ready by assumption. simpl.
      apply lookup_insert_ne. auto.
    + rewrite (TaskClosure_call_ready c h s Hp Hs). reflexivity.
  - unfold TaskClosure_call, try_catch, bind, invoke, throw, set_value,
      set_exception.
    destruct (closure_f c (closure_args c)) as [v|e]; simpl;
      rewrite ?Hp; simpl; rewrite ?Hp; reflexivity.
Qed.

End ClosureEdges.

Lemma closure_on_satisfied_promise_throws_witness :
  TaskClosure_call (mkTaskClosure raises_boom tt 0)
    ({[ 0 := has_value 7%Z ]} : gmap nat (shared_state Z string))
  = (throws (future_error promise_already_satisfied), {[ 0 := has_value 7%Z ]}).
Proof.
  apply (closure_on_satisfied_promise_throws
           (mkTaskClosure raises_boom tt 0) {[ 0 := has_value 7%Z ]}
           (has_value 7%Z)).
  - reflexivity.
  - discriminate.
Defined.

Lemma closure_touches_only_its_promise_witness :
  (TaskClosure_call (mkTaskClosure raises_boom tt 0)
     ({[ 0 := not_ready; 1 := not_ready ]}
        : gmap nat (shared_state Z string))).2 !! 1
  = ({[ 0 := not_ready; 1 := not_ready ]}
       : gmap nat (shared_state Z string)) !! 1.
Proof.
  apply (closure_touches_only_its_promise (mkTaskClosure raises_boom tt 0)).
  simpl. lia.
Defined.

(** ** Shutdown *)

Section Lifecycle.
Context {Args V Exn : Type} (E : bool).
Implicit Types (p : ThreadPool Args V Exn).

Lemma exec_stop a p p' :
  exec E a p = Some p' -> stop p = true -> stop p' = true.
Proof.
  intros Hexec Hstop. destruct a as [j|f args|priority f args| |].
  1: { simpl in Hexec. destruct (worker_step_frame E j p p' Hexec) as (-> & _).
       assumption. }
  all: match type of Hexec with
       | exec _ ?a _ = _ =>
           destruct (client_exec_frame E a p p') as (_ & _ & _ & _ & Hst);
             [intros ?; discriminate|assumption|auto]
       end.
Qed.

Lemma run_stop acts : forall p p' trace,
  run E acts p = Some (p', trace) ->
  (stop p = true -> stop p' = true)
  /\ (In act_destroy acts -> stop p' = true).
Proof.
  induction acts as [|a acts IH]; intros p p' trace Hrun; simpl in Hrun.
  - injection Hrun as <- _. split; [auto|intros []].
  - destruct (exec E a p) as [p1|] eqn:Hexec; [|discriminate]. simpl in Hrun.
    destruct (run E acts p1) as [[p2 tr2]|] eqn:Hrun1; [|discriminate].
    simpl in Hrun. injection Hrun as <- _.
    destruct (IH p1 p2 tr2 Hrun1) as [Hkeep Hlater]. split.
    + intros Hstop. apply Hkeep. eapply exec_stop; eauto.
    + intros [->|Hin]; [|auto].
      apply Hkeep. simpl in Hexec. unfold destroy in Hexec.
      destruct (queue_mutex p); [discriminate|]. injection Hexec as <-.
      reflexivity.
Qed.

(** X13.  [stop] is set once and for all: after the destructor has set it,
    no action of a worker or of a client clears it, and the destructor's
    own step always leaves it set. *)
Theorem stop_is_never_cleared acts p p' trace :
  run E acts p = Some (p', trace) ->
  (stop p = true -> stop p' = true)
  /\ (In act_destroy acts -> stop p' = true).
Proof. exact (run_stop acts p p' trace). Qed.

(** A parked worker that is woken while [stop] is set and the mutex is
    free returns, and nothing but its own control point changes. *)
Lemma wake_and_leave_runs i p :
  threads p !! i = Some Waiting ->
  queue_mutex p = None ->
  stop p = true ->
  run E (wake_and_leave i) p
  = Some (set_thread i Stopped p, [ev_silent; ev_silent; ev_silent]).
Proof.
  intros Hpc Hm Hstop. pose proof (lookup_lt_Some _ _ _ Hpc) as Hlt.
  destruct p as [n ts q m st tr h]. simpl in *. subst m st.
  unfold wake_and_leave, run, exec, event_of, worker_step. simpl.
  rewrite Hpc. simpl.
  repeat (rewrite list_lookup_insert_eq by (rewrite ?length_insert; assumption);
          simpl).
  unfold set_thread, set_queue_mutex. simpl.
  rewrite !list_insert_insert_eq. reflexivity.
Qed.

Lemma leave_in_turn (ws : list nat) : forall p,
  NoDup ws ->
  (forall i, i ∈ ws -> threads p !! i = Some Waiting) ->
  queue_mutex p = None ->
  stop p = true ->
  exists p' trace,
    run E (flat_map wake_and_leave ws) p = Some (p', trace)
    /\ (forall i, i ∈ ws -> threads p' !! i = Some Stopped)
    /\ (forall j, j ∉ ws -> threads p' !! j = threads p !! j)
    /\ length (threads p') = length (threads p)
    /\ work_queue p' = work_queue p
    /\ promises p' = promises p
    /\ tasks_running p' = tasks_running p
    /\ queue_mutex p' = None
    /\ popped trace = [] /\ started trace = [] /\ pushed trace = [].
Proof.
  induction ws as [|i ws IH]; intros p Hnd Hall Hm Hstop.
  - exists p, []. simpl. repeat split; auto.
    intros i Hi. apply elem_of_nil in Hi. contradiction.
  - apply NoDup_cons in Hnd as [Hi Hnd].
    assert (Hpc : threads p !! i = Some Waiting) by (apply Hall, elem_of_cons; auto).
    pose proof (lookup_lt_Some _ _ _ Hpc) as Hlt.
    pose proof (wake_and_leave_runs i p Hpc Hm Hstop) as Hrun1.
    destruct (IH (set_thread i Stopped p) Hnd)
      as (p' & trace & Hrun & Hdone & Hrest & Hlen & Hq & Hh & Htr & Hm' & Hpo & Hst & Hpu).
    + intros j Hj. simpl. rewrite list_lookup_insert_ne.
      * apply Hall, elem_of_cons. auto.
      * intros ->. contradiction.
    + assumption.
    + assumption.
    + exists p', ([ev_silent; ev_silent; ev_silent] ++ trace).
      split.
      { change (flat_map wake_and_leave (i :: ws))
          with (wake_and_leave (Args:=Args) (V:=V) (Exn:=Exn) i
                  ++ flat_map wake_and_leave ws).
        rewrite (run_app E _ _ _ _ _ Hrun1), Hrun. reflexivity. }
      split.
      { intros j Hj. apply elem_of_cons in Hj as [->|Hj]; [|auto].
        rewrite (Hrest i Hi). simpl. apply list_lookup_insert_eq. assumption. }
      split.
      { intros j Hj. rewrite Hrest.
        - simpl. apply list_lookup_insert_ne. intros ->. apply Hj.
          apply elem_of_cons. auto.
        - intros Hin. apply Hj. apply elem_of_cons. auto. }
      split; [rewrite Hlen; simpl; apply length_insert|].
      simpl in *. repeat split; assumption.
Qed.

(** X14.  The destructor gets through on an idle pool: when every worker
    is parked in its wait and the mutex is free, the destructor sets
    [stop], and once each worker has been woken, has tested the predicate
    and has tested [stop], every worker has returned, so the joins
    complete.  Nothing is popped or started on the way, and at the end of
    the join loop the queue and every shared state are as they were.  The
    destructor then ends by destroying the queue: each task still queued
    is abandoned, and its shared state, if not ready, is made ready with
    [future_error(broken_promise)]; a shared state that was ready, or that
    belongs to no queued task, is left as it was. *)
Theorem teardown_of_an_idle_pool_completes p :
  queue_mutex p = None ->
  (forall i, i < length (threads p) -> threads p !! i = Some Waiting) ->
  exists p' trace,
    run E (teardown (length (threads p))) p = Some (p', ev_silent :: trace)
    /\ joined p' = true
    /\ stop p' = true
    /\ work_queue p' = work_queue p
    /\ promises p' = promises p
    /\ popped trace = [] /\ started trace = []
    /\ ThreadPool_destructor E
         (flat_map wake_and_leave (seq 0 (length (threads p)))) p
       = Some (trace, destroy_members p)
    /\ (forall w, w ∈ work_queue p ->
          promises p !! promise_of w = Some not_ready ->
          destroy_members p !! promise_of w
          = Some (has_exception (future_error broken_promise)))
    /\ (forall k s, promises p !! k = Some s -> s <> not_ready ->
          destroy_members p !! k = Some s)
    /\ (forall k, k ∉ map promise_of (work_queue p) ->
          destroy_members p !! k = promises p !! k).
Proof.
  intros Hm Hall.
  destruct (leave_in_turn (seq 0 (length (threads p))) (set_stop true p))
    as (p' & trace & Hrun & Hdone & _ & Hlen & Hq & Hh & _ & _ & Hpo & Hst & _).
  - apply NoDup_seq.
  - intros i Hi. apply elem_of_seq in Hi. simpl. apply Hall. lia.
  - assumption.
  - reflexivity.
  - assert (Hj : joined p' = true).
    { unfold joined. apply forallb_forall. intros pc Hpc.
      apply list_elem_of_In, list_elem_of_lookup_1 in Hpc as [i Hi].
      pose proof (lookup_lt_Some _ _ _ Hi) as Hlt.
      rewrite Hdone in Hi; [injection Hi as <-; reflexivity|].
      apply elem_of_seq. simpl in Hlen. lia. }
    simpl in Hq, Hh, Hrun.
    exists p', trace. split; [|split; [|split; [|split; [|split; [|split;
      [|split; [|split; [|split; [|split]]]]]]]]].
    + unfold teardown. simpl. unfold destroy. rewrite Hm. simpl.
      rewrite Hrun. reflexivity.
    + exact Hj.
    + destruct (run_stop _ _ _ _ Hrun) as [Hkeep _].
      apply Hkeep. reflexivity.
    + exact Hq.
    + exact Hh.
    + exact Hpo.
    + exact Hst.
    + unfold ThreadPool_destructor, destroy. rewrite Hm. simpl.
      rewrite Hrun. simpl. rewrite Hj.
      unfold destroy_members. rewrite Hq, Hh. reflexivity.
    + intros w Hw Hnr. apply destroy_members_queued; assumption.
    + intros k s Hk Hs. eapply destroy_members_ready; eauto.
    + intros k Hk. apply destroy_members_other. assumption.
Qed.

End Lifecycle.

Lemma stop_is_never_cleared_witness :
  let acts : list (Action unit Z string) :=
    [act_destroy; act_submit_task returns_seven tt; act_worker 0] in
  (stop (ThreadPool_new 1 : ThreadPool unit Z string) = true
   -> stop (pool_after false 1 acts) = true)
  /\ (In act_destroy acts -> stop (pool_after false 1 acts) = true).
Proof.
  intros acts.
  apply (stop_is_never_cleared false acts (ThreadPool_new 1)
           (pool_after false 1 acts) (trace_after false 1 acts)).
  vm_compute. reflexivity.
Defined.

(** Two parked workers, a task that has been run and a task nobody has
    taken. *)
Lemma teardown_of_an_idle_pool_completes_witness :
  let w : WorkItem (TaskClosure unit Z string) :=
    mkWorkItem (mkTaskClosure raises_boom tt 1) 0%Z in
  let p : ThreadPool unit Z string :=
    mkThreadPool 2 [Waiting; Waiting] [w]
      None false 0 {[ 0 := has_value 7%Z; 1 := not_ready ]} in
  destroy_members p
  = {[ 0 := has_value 7%Z;
       1 := has_exception (future_error broken_promise) ]}
  /\ exists p' trace,
       run false (teardown 2) p = Some (p', ev_silent :: trace)
       /\ joined p' = true
       /\ stop p' = true
       /\ work_queue p' = work_queue p
       /\ promises p' = promises p
       /\ popped trace = [] /\ started trace = []
       /\ ThreadPool_destructor false
            (flat_map wake_and_leave (seq 0 (length (threads p)))) p
          = Some (trace, destroy_members p)
       /\ (forall w, w ∈ work_queue p ->
             promises p !! promise_of w = Some not_ready ->
             destroy_members p !! promise_of w
             = Some (has_exception (future_error broken_promise)))
       /\ (forall k s, promises p !! k = Some s -> s <> not_ready ->
             destroy_members p !! k = Some s)
       /\ (forall k, k ∉ map promise_of (work_queue p) ->
             destroy_members p !! k = promises p !! k).
Proof.
  intros w p. split; [vm_compute; reflexivity|].
  apply (teardown_of_an_idle_pool_completes false p).
  - reflexivity.
  - intros i Hi. simpl in Hi.
    destruct i as [|[|i]]; [reflexivity|reflexivity|lia].
Defined.

(** ** Turns of the worker loop *)

Section Turns.
Context {Args V Exn : Type} (E : bool).
Implicit Types (p : ThreadPool Args V Exn).

(** X15.  A worker that finds no work parks: from the top of its loop,
    with the mutex free, [stop] clear and the queue empty, three steps take
    it into the wait with the mutex released again and [tasks_running] one
    less; nothing else changes.  Waking it while there is still no work
    brings the pool back to the very same state, however often it
    happens. *)
Theorem idle_worker_parks (n : Z) p i :
  (0 <= n <= size_max)%Z ->
  reachable E n p ->
  threads p !! i = Some AtLock ->
  queue_mutex p = None ->
  stop p = false ->
  work_queue p = [] ->
  let parked :=
    set_thread i Waiting (set_tasks_running (tasks_running p - 1) p) in
  run E (replicate 3 (act_worker i)) p
    = Some (parked, [ev_silent; ev_silent; ev_silent])
  /\ forall k,
       run E (replicate (2 * k) (act_worker i)) parked
       = Some (parked, replicate (2 * k) ev_silent).
Proof.
  intros Hn Hreach Hpc Hm Hstop Hq parked.
  destruct (counter_round_trip E n p i Hn Hreach Hpc) as [Hdec _].
  pose proof (lookup_lt_Some _ _ _ Hpc) as Hlt.
  destruct p as [nt ts q m st tr h]. simpl in *. subst m st q.
  split.
  - unfold run, exec, event_of, worker_step. simpl. rewrite Hpc. simpl.
    repeat (rewrite list_lookup_insert_eq by (rewrite ?length_insert; assumption);
            simpl).
    rewrite Hdec. unfold parked, set_thread, set_queue_mutex, set_tasks_running.
    simpl. rewrite !list_insert_insert_eq. reflexivity.
  - assert (Htwo : run E [act_worker i; act_worker i] parked
                   = Some (parked, [ev_silent; ev_silent])).
    { unfold parked, run, exec, event_of, worker_step. simpl.
      repeat (rewrite list_lookup_insert_eq by (rewrite ?length_insert; assumption);
              simpl).
      unfold set_thread, set_queue_mutex, set_tasks_running. simpl.
      rewrite !list_insert_insert_eq. reflexivity. }
    induction k as [|k IH]; [reflexivity|].
    replace (2 * S k) with (2 + 2 * k) by lia.
    rewrite !replicate_add.
    rewrite (run_app E _ _ _ _ _ Htwo), IH. reflexivity.
Qed.

(** X16.  One turn of the loop runs one task and leaves the pool as it
    found it but for that task: from the top of the loop, with the mutex
    free, [stop] clear and work queued, eight steps of the worker take the
    item that [pop] returns, run it and come back to the top.  The queue is
    what [pop] left, the outcome of the task is in its promise, and the
    mutex, [stop], the other workers and [tasks_running] are as before. *)
Theorem one_turn_runs_one_task (n : Z) p i w q' :
  (0 <= n <= size_max)%Z ->
  reachable E n p ->
  threads p !! i = Some AtLock ->
  queue_mutex p = None ->
  stop p = false ->
  WorkQueue.pop E (work_queue p) = Some (w, q') ->
  exists trace,
    run E (one_turn i) p
    = Some (set_work_queue q'
              (set_promises
                 (<[promise_of w := recorded (outcome_of w)]> (promises p)) p),
            trace)
    /\ popped trace = [w] /\ started trace = [w] /\ pushed trace = [].
Proof. exact (one_turn_runs E n p i w q'). Qed.

End Turns.

Lemma idle_worker_parks_witness :
  let p : ThreadPool unit Z string := ThreadPool_new 1 in
  let parked :=
    set_thread 0 Waiting (set_tasks_running (tasks_running p - 1) p) in
  run false (replicate 3 (act_worker 0)) p
    = Some (parked, [ev_silent; ev_silent; ev_silent])
  /\ forall k,
       run false (replicate (2 * k) (act_worker 0)) parked
       = Some (parked, replicate (2 * k) ev_silent).
Proof.
  apply (idle_worker_parks false 1 (ThreadPool_new 1) 0).
  - unfold size_max. lia.
  - exists [], []. reflexivity.
  - reflexivity.
  - reflexivity.
  - reflexivity.
  - reflexivity.
Defined.

Lemma one_turn_runs_one_task_witness :
  let p := pool_after false 1 [act_submit_task returns_seven tt] in
  let w := mkWorkItem (mkTaskClosure returns_seven tt 0) (to_Priority 0) in
  exists trace,
    run false (one_turn 0) p
    = Some (set_work_queue []
              (set_promises
                 (<[promise_of w := recorded (outcome_of w)]> (promises p)) p),
            trace)
    /\ popped trace = [w] /\ started trace = [w] /\ pushed trace = [].
Proof.
  apply (one_turn_runs_one_task false 1
           (pool_after false 1 [act_submit_task returns_seven tt]) 0).
  - unfold size_max. lia.
  - exists [act_submit_task returns_seven tt]. eexists. vm_compute. reflexivity.
  - vm_compute. reflexivity.
  - vm_compute. reflexivity.
  - vm_compute. reflexivity.
  - vm_compute. reflexivity.
Defined.

(** ** What [get_tasks_running] reports *)

Section Counter.
Context {Args V Exn : Type} (E : bool).
Implicit Types (p : ThreadPool Args V Exn)
  (ts : list (WorkerPC (TaskClosure Args V Exn))).




(** X18.  A pool built with no threads never runs anything, and its
    destructor abandons all that was submitted: in every run whatever is
    submitted stays queued, no task is taken from the queue or started, and
    while the pool exists no future is ready, so reading any of them
    blocks.  The destructor has no worker to wait for; it ends by
    destroying the queue, and from then on every future throws
    [future_error(broken_promise)]. *)
Theorem pool_without_threads_runs_nothing acts p trace :
  run E acts (ThreadPool_new 0) = Some (p, trace) ->
  threads p = []
  /\ popped trace = [] /\ started trace = []
  /\ pushed trace ≡ₚ work_queue p
  /\ (forall w, w ∈ pushed trace ->
        future_get (future_of w) (promises p) = None)
  /\ ThreadPool_destructor E [] p = Some ([], destroy_members p)
  /\ (forall w, w ∈ pushed trace ->
        future_get (future_of w) (destroy_members p)
        = Some (throws (future_error broken_promise),
                mkFuture (promise_of w) false)).
Proof.
  intros Hrun.
  assert (Hn : (0 <= 0 <= size_max)%Z) by (unfold size_max; lia).
  pose proof (run_inv E acts _ _ _ (pool_inv_new E 0 Hn) Hrun) as Hinv.
  destruct (run_joined E acts _ _ _ Hrun eq_refl) as (Hj & Hpo & Hst).
  pose proof (run_conserves E acts _ _ _ (pool_inv_new E 0 Hn) Hrun) as Hcons.
  assert (Hts : threads p = []).
  { destruct (inv_size E p Hinv) as [_ Hlen].
    assert (Hreach : reachable E 0 p) by (exists acts, trace; exact Hrun).
    rewrite (reachable_num_threads E 0 p Hreach) in Hlen.
    destruct (threads p); [reflexivity|discriminate]. }
  assert (Hq : pushed trace ≡ₚ work_queue p).
  { unfold pending in Hcons. rewrite Hst, Hts in Hcons. simpl in Hcons.
    rewrite app_nil_r in Hcons. exact Hcons. }
  assert (Hnr : forall w, w ∈ pushed trace ->
            promises p !! promise_of w = Some not_ready).
  { intros w Hw. apply (inv_not_ready E p Hinv). unfold pending.
    rewrite Hts. simpl. rewrite app_nil_r, <- Hq. assumption. }
  assert (Hm : queue_mutex p = None).
  { destruct (queue_mutex p) as [i|] eqn:Hm; [|reflexivity].
    destruct (proj1 (inv_owner E p Hinv i) Hm) as (pc & Hpc & _).
    rewrite Hts in Hpc. discriminate. }
  split; [assumption|]. split; [assumption|]. split; [assumption|].
  split; [assumption|]. split; [|split].
  - intros w Hw. apply future_get_not_ready. auto.
  - unfold ThreadPool_destructor, destroy. rewrite Hm. simpl.
    unfold joined. simpl. rewrite Hts. reflexivity.
  - intros w Hw. apply future_get_exception.
    apply destroy_members_queued; [rewrite <- Hq; assumption|auto].
Qed.

End Counter.


Lemma pool_without_threads_runs_nothing_witness :
  let acts : list (Action unit Z string) :=
    [act_submit_task returns_seven tt; act_get_tasks_running;
     act_submit_task raises_boom tt] in
  let p := pool_after false 0 acts in
  let trace := trace_after false 0 acts in
  (length (pushed trace) = 2
   /\ destroy_members p
      = {[ 0 := has_exception (future_error broken_promise);
           1 := has_exception (future_error broken_promise) ]})
  /\ threads p = []
  /\ popped trace = [] /\ started trace = []
  /\ pushed trace ≡ₚ work_queue p
  /\ (forall w, w ∈ pushed trace ->
        future_get (future_of w) (promises p) = None)
  /\ ThreadPool_destructor false [] p = Some ([], destroy_members p)
  /\ (forall w, w ∈ pushed trace ->
        future_get (future_of w) (destroy_members p)
        = Some (throws (future_error broken_promise),
                mkFuture (promise_of w) false)).
Proof.
  intros acts p trace.
  split; [split; vm_compute; reflexivity|].
  apply (pool_without_threads_runs_nothing false acts p trace).
  vm_compute. reflexivity.
Defined.

(** ** The workloads of the tests *)

Section FibonacciProofs.
Local Open Scope Z_scope.

Lemma fibonacci_body n :
  fibonacci n
  = if n <=? 1 then n
    else size_add (fibonacci (size_sub n 1)) (fibonacci (size_sub n 2)).
Proof.
  rewrite fibonacci_equation_1.
  destruct (Z_le_gt_dec n 1) as [Hle|Hgt]; simpl.
  - apply Z.leb_le in Hle. rewrite Hle. reflexivity.
  - assert (Hle : (n <=? 1) = false) by (apply Z.leb_gt; lia).
    rewrite Hle. reflexivity.
Qed.

Lemma fib_number_step k :
  fib_number (S (S k)) = fib_number (S k) + fib_number k.
Proof. reflexivity. Qed.

Lemma fib_pair_spec k :
  fib_pair k = (fib_number k, fib_number (S k)).
Proof.
  induction k as [|k IH]; [reflexivity|].
  cbn [fib_pair]. rewrite IH, fib_number_step. f_equal. lia.
Qed.

Lemma fib_number_fst k : fib_number k = (fib_pair k).1.
Proof. rewrite fib_pair_spec. reflexivity. Qed.

Lemma fib_number_93 : fib_number 93 < 2 ^ 64.
Proof. rewrite fib_number_fst. vm_compute. reflexivity. Qed.

Lemma fib_number_94 : 2 ^ 64 <= fib_number 94.
Proof. rewrite fib_number_fst. vm_compute. discriminate. Qed.

Lemma fib_number_nonneg k : 0 <= fib_number k /\ 0 <= fib_number (S k).
Proof.
  induction k as [|k [IH0 IH1]]; [simpl; lia|].
  split; [assumption|]. rewrite fib_number_step. lia.
Qed.

Lemma fib_number_mono j k : (j <= k)%nat -> fib_number j <= fib_number k.
Proof.
  induction 1 as [|k Hle IH]; [lia|].
  etransitivity; [exact IH|].
  destruct k as [|k]; [simpl; lia|].
  rewrite fib_number_step. pose proof (fib_number_nonneg k). lia.
Qed.

Lemma fibonacci_modulo k : forall n,
  Z.to_nat n = k -> 0 <= n < 2 ^ 64 ->
  fibonacci n = fib_number k mod 2 ^ 64.
Proof.
  induction k as [k IH] using lt_wf_ind. intros n Hk Hn.
  rewrite fibonacci_body. destruct (n <=? 1) eqn:Hle.
  - apply Z.leb_le in Hle.
    assert (n = 0 \/ n = 1) as [->| ->] by lia; subst k; reflexivity.
  - apply Z.leb_gt in Hle.
    assert (H1 : size_sub n 1 = n - 1)
      by (unfold size_sub; apply Z.mod_small; lia).
    assert (H2 : size_sub n 2 = n - 2)
      by (unfold size_sub; apply Z.mod_small; lia).
    rewrite H1, H2.
    destruct k as [|[|k]]; [lia|lia|].
    rewrite (IH (S k)) by lia. rewrite (IH k) by lia.
    unfold size_add. rewrite <- Zplus_mod, fib_number_step. reflexivity.
Qed.

End FibonacciProofs.

(** X19.  [fibonacci] computes the Fibonacci numbers modulo 2^64: for every
    [std::size_t] argument the result is the [n]-th Fibonacci number
    reduced to 64 bits, and it is that number itself exactly for the
    arguments up to 93, the last one whose Fibonacci number fits. *)
Theorem fibonacci_wraps_after_93 (n : Z) :
  (0 <= n < 2 ^ 64)%Z ->
  fibonacci n = (fib_number (Z.to_nat n) mod 2 ^ 64)%Z
  /\ (fibonacci n = fib_number (Z.to_nat n) <-> (n <= 93)%Z).
Proof.
  intros Hn.
  assert (Hmod : fibonacci n = (fib_number (Z.to_nat n) mod 2 ^ 64)%Z)
    by (apply fibonacci_modulo; [reflexivity|assumption]).
  split; [assumption|]. rewrite Hmod.
  pose proof (Z.mod_pos_bound (fib_number (Z.to_nat n)) (2 ^ 64)
                ltac:(lia)) as Hb.
  pose proof (fib_number_nonneg (Z.to_nat n)) as [Hpos _].
  split.
  - intros Heq. destruct (Z_le_gt_dec n 93) as [|Hgt]; [assumption|exfalso].
    assert (Hk : (94 <= Z.to_nat n)%nat) by lia.
    apply fib_number_mono in Hk.
    apply (Z.le_trans _ _ _ fib_number_94) in Hk. lia.
  - intros Hle. apply Z.mod_small. split; [assumption|].
    assert (Hk : (Z.to_nat n <= 93)%nat) by lia.
    apply fib_number_mono in Hk.
    exact (Z.le_lt_trans _ _ _ Hk fib_number_93).
Qed.

Section MemoryWorkProofs.
Local Open Scope Z_scope.

Lemma iota_overflows range : forall value,
  value <= INT_MAX -> INT_MAX < value + Z.of_nat (length range) ->
  iota range value = None.
Proof.
  induction range as [|x rest IH]; intros value Hv Hlen; simpl in *; [lia|].
  unfold int_incr. destruct (decide (value < INT_MAX)) as [Hlt|Hge]; simpl;
    [|reflexivity].
  rewrite IH by lia. reflexivity.
Qed.

Lemma iota_fits range : forall value,
  value + Z.of_nat (length range) <= INT_MAX ->
  exists data, iota range value = Some data.
Proof.
  induction range as [|x rest IH]; intros value Hlen; simpl in *; [eauto|].
  unfold int_incr. destruct (decide (value < INT_MAX)) as [Hlt|Hge]; [|lia].
  simpl. destruct (IH (value + 1)) as [data' ->]; [lia|]. simpl. eauto.
Qed.

(** The sum of what [iota] has written, modulo 2^64. *)
Lemma iota_accumulate range : forall value init data,
  iota range value = Some data -> 0 <= value -> 0 <= init < 2 ^ 64 ->
  exists s,
    2 * s = 2 * Z.of_nat (length range) * value
            + Z.of_nat (length range) * (Z.of_nat (length range) - 1)
    /\ accumulate data init = (init + s) mod 2 ^ 64.
Proof.
  induction range as [|x rest IH]; intros value init data Hiota Hv Hinit;
    simpl in Hiota.
  - injection Hiota as <-. exists 0. simpl. split; [lia|].
    rewrite Z.add_0_r, Z.mod_small by lia. reflexivity.
  - unfold int_incr in Hiota.
    destruct (decide (value < INT_MAX)) as [Hlt|Hge]; [|discriminate].
    simpl in Hiota.
    destruct (iota rest (value + 1)) as [rest'|] eqn:Hrest; [|discriminate].
    simpl in Hiota. injection Hiota as <-.
    cbn [accumulate].
    destruct (IH (value + 1) (size_add init (value mod 2 ^ 64)) rest' Hrest)
      as (s' & Hs' & Hacc).
    { lia. }
    { unfold size_add. apply Z.mod_pos_bound. lia. }
    exists (value + s'). split.
    + rewrite length_cons, Nat2Z.inj_succ. nia.
    + rewrite Hacc. unfold size_add.
      rewrite (Z.mod_small value) by (unfold INT_MAX in Hlt; lia).
      rewrite Zplus_mod_idemp_l. f_equal. lia.
Qed.

Lemma memory_work_fits allocate size :
  0 <= size <= INT_MAX ->
  (size = 0 \/ allocate size = true) ->
  memory_work allocate size = finished (size * (size - 1) / 2).
Proof.
  intros Hsize Hroom. unfold memory_work.
  destruct (decide (vector_int_max_size < size)) as [Hbig|_].
  { unfold vector_int_max_size, INT_MAX in *. exfalso.
    assert ((2 ^ 63 - 1) / 4 = 2 ^ 61 - 1) as Hq by reflexivity. lia. }
  assert (Hok : ((size =? 0) || allocate size)%bool = true).
  { destruct Hroom as [-> | ->]; [reflexivity|apply orb_true_r]. }
  rewrite Hok. simpl.
  destruct (iota_fits (replicate (Z.to_nat size) 0) 0) as [data Hdata].
  { rewrite length_replicate. lia. }
  rewrite Hdata.
  destruct (iota_accumulate _ 0 0 data Hdata) as (s & Hs & ->); [lia|lia|].
  rewrite length_replicate, Z2Nat.id in Hs by lia.
  f_equal. rewrite Z.add_0_l.
  assert (Heq : size * (size - 1) = s * 2) by lia.
  rewrite Heq, Z.div_mul by lia.
  apply Z.mod_small. unfold INT_MAX in Hsize. nia.
Qed.

End MemoryWorkProofs.

(** X20.  [memory_work] returns the sum of the integers below [size], and
    only for a [size] up to [INT_MAX]: the vector is then filled with
    0, 1, ..., [size - 1] and the sum does not wrap.  For a larger [size]
    that the allocator grants, the counter of [std::iota] overflows an
    [int], which is undefined behaviour. *)
Theorem memory_work_sums_the_integers_below_size (allocate : Z -> bool)
    (size : Z) :
  (0 <= size < 2 ^ 64)%Z ->
  (forall v, memory_work allocate size = finished v <->
     (size <= INT_MAX)%Z /\ (size = 0%Z \/ allocate size = true)
     /\ v = (size * (size - 1) / 2)%Z)
  /\ (memory_work allocate size = undefined <->
        (INT_MAX < size <= vector_int_max_size)%Z /\ allocate size = true).
Proof.
  intros Hsize.
  destruct (Z_le_gt_dec size INT_MAX) as [Hle|Hgt].
  - destruct (Z.eq_dec size 0) as [H0|H0];
      [|destruct (allocate size) eqn:Ha].
    + rewrite memory_work_fits by (auto; lia). split.
      * intros v. split; [intros [= <-]; auto|].
        intros (_ & _ & ->). reflexivity.
      * split; [discriminate|lia].
    + rewrite memory_work_fits by (auto; lia). split.
      * intros v. split; [intros [= <-]; auto|].
        intros (_ & _ & ->). reflexivity.
      * split; [discriminate|lia].
    + assert (Hm : memory_work allocate size = thrown bad_alloc).
      { unfold memory_work.
        destruct (decide (vector_int_max_size < size)%Z) as [Hbig|_].
        { unfold vector_int_max_size, INT_MAX in *. exfalso.
          assert ((2 ^ 63 - 1) / 4 = 2 ^ 61 - 1)%Z as Hq by reflexivity. lia. }
        rewrite Ha. apply Z.eqb_neq in H0. rewrite H0. reflexivity. }
      rewrite Hm. split.
      * intros v. split; [discriminate|].
        intros (_ & [?|?] & _); [contradiction|discriminate].
      * split; [discriminate|intros [_ ?]; discriminate].
  - unfold memory_work.
    destruct (decide (vector_int_max_size < size)%Z) as [Hbig|Hsmall].
    { split.
      - intros v. split; [discriminate|lia].
      - split; [discriminate|lia]. }
    assert (H0 : (size =? 0)%Z = false)
      by (apply Z.eqb_neq; unfold INT_MAX in Hgt; lia).
    rewrite H0. simpl. destruct (allocate size) eqn:Ha; simpl.
    + rewrite iota_overflows
        by (rewrite ?length_replicate; unfold INT_MAX in *; lia).
      split.
      * intros v. split; [discriminate|lia].
      * split; [intros _; split; [lia|reflexivity]|reflexivity].
    + split.
      * intros v. split; [discriminate|lia].
      * split; [discriminate|intros [_ ?]; discriminate].
Qed.

Lemma fibonacci_wraps_after_93_witness :
  fibonacci 35 = (fib_number (Z.to_nat 35) mod 2 ^ 64)%Z
  /\ (fibonacci 35 = fib_number (Z.to_nat 35) <-> (35 <= 93)%Z).
Proof. apply (fibonacci_wraps_after_93 35). lia. Defined.

Lemma memory_work_sums_the_integers_below_size_witness :
  (forall v, memory_work (fun _ => true) 1000 = finished v <->
     (1000 <= INT_MAX)%Z /\ (1000%Z = 0%Z \/ true = true)
     /\ v = (1000 * (1000 - 1) / 2)%Z)
  /\ (memory_work (fun _ => true) 1000 = undefined <->
        (INT_MAX < 1000 <= vector_int_max_size)%Z /\ true = true).
Proof.
  apply (memory_work_sums_the_integers_below_size (fun _ => true) 1000). lia.
Defined.

(** ** The exception-handling test *)

Section SubmittedOutcomes.
Context {Args V Exn : Type} (E : bool).
Implicit Types (p : ThreadPool Args V Exn).

(** The future that [submit_task_helper] returns is the one of the item
    it pushes. *)
Lemma submit_task_helper_future priority f args p fut p' :
  submit_task_helper E priority f args p = Some (fut, p') ->
  fut = future_of (mkWorkItem
                     (mkTaskClosure f args (fresh (dom (promises p))))
                     priority).
Proof.
  unfold submit_task_helper. intros H.
  destruct (queue_mutex p); [discriminate|].
  destruct (WorkQueue.push E (work_queue p) _); [|discriminate].
  simpl in H. injection H as <- _. reflexivity.
Qed.

Lemma exec_requested a p p' :
  exec E a p = Some p' ->
  map outcome_of (pushed [event_of E a p]) = requested a.
Proof.
  intros Hexec. destruct a as [j|f args|priority f args| |]; simpl.
  - destruct (threads p !! j) as [[]|]; try reflexivity.
    destruct (WorkQueue.pop E (work_queue p)) as [[w q]|]; reflexivity.
  - reflexivity.
  - reflexivity.
  - reflexivity.
  - reflexivity.
Qed.

Lemma run_requested acts : forall p p' trace,
  run E acts p = Some (p', trace) ->
  map outcome_of (pushed trace) = flat_map requested acts.
Proof.
  induction acts as [|a acts IH]; intros p p' trace Hrun; simpl in Hrun.
  - injection Hrun as <- <-. reflexivity.
  - destruct (exec E a p) as [p1|] eqn:Hexec; [|discriminate]. simpl in Hrun.
    destruct (run E acts p1) as [[p2 tr2]|] eqn:Hrun1; [|discriminate].
    simpl in Hrun. injection Hrun as <- <-.
    rewrite pushed_cons, map_app, (exec_requested a p p1 Hexec).
    simpl. f_equal. eapply IH; eauto.
Qed.

Lemma requested_client_part (acts : list (Action Args V Exn)) :
  flat_map requested (client_part acts) = flat_map requested acts.
Proof.
  induction acts as [|a acts IH]; [reflexivity|].
  destruct a; simpl; rewrite ?IH; reflexivity.
Qed.

End SubmittedOutcomes.

Section ExceptionTest.
Context (E : bool).
Implicit Types (p : ThreadPool unit Z string)
  (ws : list (WorkItem (TaskClosure unit Z string))).

Lemma handle_results_step fut futs meanwhile p c0 :
  handle_results E (fut :: futs) meanwhile p c0
  = match run E (hd [] meanwhile) p with
    | Some (p', _) =>
        match future_get fut (promises p') with
        | Some (result, _) =>
            handle_results E futs (tl meanwhile) p'
              (match result with
               | normal _ => c0
               | throws _ => S c0
               end)
        | None => None
        end
    | None => None
    end.
Proof.
  simpl. destruct (run E (hd [] meanwhile) p) as [[p' tr]|]; simpl;
    [|reflexivity].
  destruct (future_get fut (promises p')) as [[result fut']|]; reflexivity.
Qed.

Lemma handle_results_counts ws : forall meanwhile p submitted c0 c,
  pool_inv E p -> integrity submitted p ->
  (forall w, w ∈ ws -> w ∈ submitted) ->
  handle_results E (map future_of ws) meanwhile p c0 = Some c ->
  c = c0 + length (filter (fun o => raised o = true) (map outcome_of ws)).
Proof.
  induction ws as [|w ws IH]; intros meanwhile p submitted c0 c Hinv Hint Hsub H.
  - injection H as <-. simpl. lia.
  - cbn [map] in H. rewrite handle_results_step in H.
    destruct (run E (hd [] meanwhile) p) as [[p' tr]|] eqn:Hrun;
      [|discriminate].
    pose proof (run_inv E _ _ _ _ Hinv Hrun) as Hinv'.
    pose proof (run_integrity E _ _ _ _ _ Hinv Hint Hrun) as Hint'.
    assert (Hw : w ∈ submitted ++ pushed tr)
      by (apply elem_of_app; left; apply Hsub, elem_of_cons; auto).
    destruct (proj1 (proj2 Hint') w Hw) as [Hnr|Hrec].
    + assert (Hget : future_get (future_of w) (promises p') = None)
        by (apply future_get_not_ready; exact Hnr).
      rewrite Hget in H. discriminate.
    + assert (Hget : future_get (future_of w) (promises p')
                     = Some (delivered (outcome_of w),
                             mkFuture (promise_of w) false))
        by (apply future_get_recorded; exact Hrec).
      rewrite Hget in H.
      apply (IH _ _ (submitted ++ pushed tr)) in H; [|assumption|assumption|].
      * rewrite H. cbn [map]. rewrite filter_cons.
        destruct (outcome_of w) as [v|e]; cbn [delivered raised].
        -- rewrite decide_False by discriminate. reflexivity.
        -- rewrite decide_True by reflexivity. rewrite length_cons. lia.
      * intros w' Hw'. apply elem_of_app. left.
        apply Hsub, elem_of_cons. auto.
Qed.

Lemma requested_submission_loop N :
  flat_map requested (submission_loop N)
  = map (fun i => exception_task (Z.of_nat i) tt) (seq 0 N).
Proof.
  unfold submission_loop. induction (seq 0 N) as [|i l IH]; [reflexivity|].
  simpl. rewrite IH. reflexivity.
Qed.

Lemma raised_exception_task i :
  raised (exception_task (Z.of_nat i) tt) = Nat.even i.
Proof.
  unfold exception_task.
  destruct (Nat.even i) eqn:He.
  - apply Nat.even_spec in He as [k ->].
    replace (Z.of_nat (2 * k) mod 2)%Z with 0%Z; [reflexivity|].
    rewrite Nat2Z.inj_mul, Z.mul_comm, Z.mod_mul by lia. reflexivity.
  - assert (Ho : Nat.odd i = true) by (rewrite <- Nat.negb_even, He; reflexivity).
    apply Nat.odd_spec in Ho as [k ->].
    replace (Z.of_nat (2 * k + 1) mod 2)%Z with 1%Z; [reflexivity|].
    rewrite Nat2Z.inj_add, Nat2Z.inj_mul, Z.add_comm, Z.mul_comm,
      Z.mod_add by lia.
    reflexivity.
Qed.

Lemma even_tasks_below N :
  length (filter (fun o => raised o = true)
            (map (fun i => exception_task (Z.of_nat i) tt) (seq 0 N)))
  = N - N / 2.
Proof.
  induction N as [|N IH]; [reflexivity|].
  rewrite seq_S, map_app, filter_app, length_app, IH. simpl.
  rewrite filter_cons, filter_nil, raised_exception_task.
  destruct (Nat.even N) eqn:He.
  - rewrite decide_True by reflexivity. simpl.
    apply Nat.even_spec in He as [k ->].
    replace (S (2 * k)) with (1 + k * 2) by lia.
    rewrite Nat.div_add by lia.
    replace (2 * k) with (k * 2) by lia. rewrite Nat.div_mul by lia.
    simpl. lia.
  - rewrite decide_False by discriminate. simpl.
    assert (Ho : Nat.odd N = true) by (rewrite <- Nat.negb_even, He; reflexivity).
    apply Nat.odd_spec in Ho as [k ->].
    replace (S (2 * k + 1)) with ((k + 1) * 2) by lia.
    rewrite Nat.div_mul by lia.
    replace (2 * k + 1) with (1 + k * 2) by lia.
    rewrite Nat.div_add by lia. simpl. lia.
Qed.

Lemma half_check N : negb (N - N / 2 =? N / 2) = Nat.odd N.
Proof.
  destruct (Nat.eqb_spec (N - N / 2) (N / 2)) as [Heq|Hne]; cbn [negb];
    symmetry.
  - apply Bool.not_true_is_false. rewrite Nat.odd_spec. intros [k Hk]. lia.
  - apply Nat.odd_spec. exists (N / 2). lia.
Qed.

(** X21.  [test_exception_handling] counts one exception for each even
    index, whatever the schedule: if the submitting thread's actions are
    the submission loop and the reading loop gets through all the futures,
    then [exception_count] is the number of even indices below
    [exception_tasks], and the check against [futures.size() / 2] fails
    exactly for an odd number of tasks; so not for the test's 1000. *)
Theorem exception_test_counts_the_even_indices (n : Z) (exception_tasks : nat)
    acts meanwhile p trace exception_count :
  (0 <= n <= size_max)%Z ->
  run E acts (ThreadPool_new n) = Some (p, trace) ->
  client_part acts = submission_loop exception_tasks ->
  handle_results E (map future_of (pushed trace)) meanwhile p 0
    = Some exception_count ->
  length (pushed trace) = exception_tasks
  /\ exception_count = exception_tasks - exception_tasks / 2
  /\ unexpected_number exception_count (map future_of (pushed trace))
     = Nat.odd exception_tasks.
Proof.
  intros Hn Hrun Hclient Hread.
  assert (Hout : map outcome_of (pushed trace)
                 = map (fun i => exception_task (Z.of_nat i) tt)
                       (seq 0 exception_tasks)).
  { rewrite (run_requested E acts _ _ _ Hrun), <- requested_client_part,
      Hclient.
    apply requested_submission_loop. }
  assert (Hlen : length (pushed trace) = exception_tasks).
  { rewrite <- (length_map outcome_of), Hout, length_map, length_seq.
    reflexivity. }
  pose proof (run_inv E _ _ _ _ (pool_inv_new E n Hn) Hrun) as Hinv.
  pose proof (run_integrity E _ _ _ _ [] (pool_inv_new E n Hn)
                (integrity_new n) Hrun) as Hint.
  apply (handle_results_counts _ _ _ _ _ _ Hinv Hint) in Hread; [|auto].
  rewrite Hout, even_tasks_below in Hread. simpl in Hread.
  split; [assumption|]. split; [assumption|].
  unfold unexpected_number. rewrite length_map, Hlen, Hread.
  apply half_check.
Qed.

End ExceptionTest.

Lemma exception_test_counts_the_even_indices_witness :
  let p := pool_after true 2 four_submitted in
  let trace := trace_after true 2 four_submitted in
  length (pushed trace) = 4
  /\ 2 = 4 - 4 / 2
  /\ unexpected_number 2 (map future_of (pushed trace)) = Nat.odd 4.
Proof.
  intros p trace.
  apply (exception_test_counts_the_even_indices true 2 4 four_submitted
           four_meanwhile p trace 2).
  - unfold size_max. lia.
  - vm_compute. reflexivity.
  - vm_compute. reflexivity.
  - vm_compute. reflexivity.
Defined.

(** ** Progress under a worker that keeps running *)

Section Progress.
Context {Args V Exn : Type} (E : bool).
Implicit Types (p : ThreadPool Args V Exn)
  (w : WorkItem (TaskClosure Args V Exn)).

Lemma reachable_run n p acts p' trace :
  reachable E n p -> run E acts p = Some (p', trace) -> reachable E n p'.
Proof.
  intros (acts0 & tr0 & Hrun0) Hrun. exists (acts0 ++ acts), (tr0 ++ trace).
  rewrite (run_app E _ _ _ _ _ Hrun0), Hrun. reflexivity.
Qed.

Lemma turns_S k i :
  turns (S k) i = one_turn i ++ (turns k i : list (Action Args V Exn)).
Proof. reflexivity. Qed.

Lemma turns_drain (n : Z) i k : forall p,
  (0 <= n <= size_max)%Z ->
  reachable E n p ->
  threads p !! i = Some AtLock ->
  queue_mutex p = None ->
  stop p = false ->
  length (work_queue p) = k ->
  exists p' trace,
    run E (turns k i) p = Some (p', trace)
    /\ work_queue p' = []
    /\ threads p' = threads p
    /\ queue_mutex p' = None /\ stop p' = false
    /\ tasks_running p' = tasks_running p
    /\ started trace ≡ₚ work_queue p
    /\ pushed trace = []
    /\ forall w, w ∈ work_queue p ->
         promises p' !! promise_of w = Some (recorded (outcome_of w)).
Proof.
  induction k as [|k IH]; intros p Hn Hreach Hpc Hm Hstop Hlen.
  - apply nil_length_inv in Hlen. exists p, []. rewrite Hlen.
    repeat split; auto.
    intros w Hw. apply elem_of_nil in Hw. contradiction.
  - pose proof (reachable_inv E n p Hn Hreach) as Hinv.
    assert (Hne : work_queue p <> []) by (intros Hq; rewrite Hq in Hlen; discriminate).
    destruct (pop_spec E _ (inv_queue E p Hinv) Hne) as (w & q' & Hpop & Hperm).
    destruct (one_turn_runs E n p i w q' Hn Hreach Hpc Hm Hstop Hpop)
      as (tr1 & Hrun1 & _ & Hst1 & Hpu1).
    set (p1 := set_work_queue q'
                 (set_promises
                    (<[promise_of w := recorded (outcome_of w)]> (promises p)) p))
      in *.
    assert (Hlen' : length q' = k).
    { apply Permutation_length in Hperm. simpl in Hperm. lia. }
    destruct (IH p1 Hn (reachable_run _ _ _ _ _ Hreach Hrun1) Hpc Hm Hstop Hlen')
      as (p' & tr2 & Hrun2 & Hq & Hts & Hm' & Hstop' & Htr & Hst2 & Hpu2 & Hrec).
    exists p', (tr1 ++ tr2).
    split.
    { rewrite turns_S, (run_app E _ _ _ _ _ Hrun1), Hrun2. reflexivity. }
    split; [assumption|]. split; [assumption|]. split; [assumption|].
    split; [assumption|]. split; [assumption|].
    split; [rewrite started_app, Hst1, Hst2, Hperm; reflexivity|].
    split; [rewrite pushed_app, Hpu1, Hpu2; reflexivity|].
    intros w0 Hw0. rewrite Hperm in Hw0. apply elem_of_cons in Hw0 as [->|Hw0].
    + apply (run_keeps_ready E _ _ _ _ _ _ Hrun2); [|apply recorded_ready].
      unfold p1. simpl. apply lookup_insert_eq.
    + apply Hrec. assumption.
Qed.

(** X22.  A worker that keeps running gets through all the queued work:
    from the top of its loop, with the mutex free and [stop] clear, as many
    turns as there are items in the queue empty it.  Each queued task has
    then been started once and its outcome is in its promise, so that its
    future is ready with that outcome; the workers, the mutex, [stop] and
    [tasks_running] are as they were. *)
Theorem worker_turns_drain_the_queue (n : Z) p i :
  (0 <= n <= size_max)%Z ->
  reachable E n p ->
  threads p !! i = Some AtLock ->
  queue_mutex p = None ->
  stop p = false ->
  exists p' trace,
    run E (turns (length (work_queue p)) i) p = Some (p', trace)
    /\ work_queue p' = []
    /\ threads p' = threads p
    /\ queue_mutex p' = None /\ stop p' = false
    /\ tasks_running p' = tasks_running p
    /\ started trace ≡ₚ work_queue p
    /\ forall w, w ∈ work_queue p ->
         future_get (future_of w) (promises p')
         = Some (delivered (outcome_of w), mkFuture (promise_of w) false).
Proof.
  intros Hn Hreach Hpc Hm Hstop.
  destruct (turns_drain n i _ p Hn Hreach Hpc Hm Hstop eq_refl)
    as (p' & trace & Hrun & Hq & Hts & Hm' & Hstop' & Htr & Hst & _ & Hrec).
  exists p', trace. repeat (split; [assumption|]).
  intros w Hw. apply future_get_recorded, Hrec, Hw.
Qed.

End Progress.

Lemma worker_turns_drain_the_queue_witness :
  let p := pool_after true 2 (submission_loop 4) in
  exists p' trace,
    run true (turns (length (work_queue p)) 1) p = Some (p', trace)
    /\ work_queue p' = []
    /\ threads p' = threads p
    /\ queue_mutex p' = None /\ stop p' = false
    /\ tasks_running p' = tasks_running p
    /\ started trace ≡ₚ work_queue p
    /\ forall w, w ∈ work_queue p ->
         future_get (future_of w) (promises p')
         = Some (delivered (outcome_of w), mkFuture (promise_of w) false).
Proof.
  intros p.
  apply (worker_turns_drain_the_queue true 2 p 1).
  - unfold size_max. lia.
  - exists (submission_loop 4). eexists. vm_compute. reflexivity.
  - vm_compute. reflexivity.
  - vm_compute. reflexivity.
  - vm_compute. reflexivity.
Defined.
